(** * ResilientWebSocket: a shallow embedding and its lifecycle properties

    The development embeds the class [ResilientWebSocket] (reconnecting
    WebSocket wrapper with an application-level ping/pong keepalive) as
    state-passing functions over a [World]: the fields of the wrapper
    instance together with the environment the class talks to (a fake
    clock with its pending timers, the listeners attached to the
    transports the factory produced, and a chronological log of the
    observable effects).

    JavaScript behaviour the class relies on is modelled where it is
    observable: [Set.prototype.forEach] walks the live entry list,
    [===] compares strings by content and objects by identity, reading a
    property of [undefined] raises a [TypeError]. *)

From Stdlib Require Import List String Arith NArith Bool Lia.
Import ListNotations.
Open Scope string_scope.
Open Scope list_scope.

(** ** JavaScript values *)

Module Js.

(** The values that flow through the wrapper: message payloads, ping and
    pong messages, event arguments.  An object carries its heap
    reference (its identity) and its own properties. *)
Inductive Value : Type :=
| VUndefined
| VString (s : string)
| VObject (ref : nat) (props : list (string * string))
| VThis.

Definition prop_eqb (p q : string * string) : bool :=
  String.eqb (fst p) (fst q) && String.eqb (snd p) (snd q).

Fixpoint props_eqb (ps qs : list (string * string)) : bool :=
  match ps, qs with
  | [], [] => true
  | p :: ps', q :: qs' => prop_eqb p q && props_eqb ps' qs'
  | _, _ => false
  end.

(** The operator [===]: primitives by value, objects by reference. *)
Definition strict_eq (a b : Value) : bool :=
  match a, b with
  | VUndefined, VUndefined => true
  | VString s, VString t => String.eqb s t
  | VObject r _, VObject r' _ => Nat.eqb r r'
  | VThis, VThis => true
  | _, _ => false
  end.

(** Equality of variant and content, the rule the design document asks
    for; the class does not use it, it is here to state that rule. *)
Definition value_eq (a b : Value) : bool :=
  match a, b with
  | VUndefined, VUndefined => true
  | VString s, VString t => String.eqb s t
  | VObject _ ps, VObject _ qs => props_eqb ps qs
  | VThis, VThis => true
  | _, _ => false
  end.

(** Failures: the two exceptions the runtime can raise under the class,
    and [NotConnected], the condition named by the design document,
    which no line of the class raises. *)
Inductive Error : Type := TypeError | SyntaxError | NotConnected.

(** Truthiness of an optional boolean option field, and the number of
    milliseconds [setTimeout] reads from an optional number ([undefined]
    counts as 0). *)
Definition truthy (o : option bool) : bool :=
  match o with Some b => b | None => false end.

Definition delay (o : option N) : N :=
  match o with Some d => d | None => 0%N end.

Definition value_of (o : option Value) : Value :=
  match o with Some v => v | None => VUndefined end.

End Js.
Export Js.

(** ** Options, events *)

(** The options as the class reads them, [this.options.<key>]: the value
    of each key, [None] for [undefined].  Durations are whole numbers of
    milliseconds. *)
Record ResilientWebSocketOptions : Type := {
  autoJsonify : option bool;
  autoConnect : option bool;
  reconnectInterval : option N;
  pingEnabled : option bool;
  pingInterval : option N;
  pongTimeout : option N;
  pingMessage : option Value;
  pongMessage : option Value;
  reconnectOnError : option bool
}.

Definition defaultOptions : ResilientWebSocketOptions := {|
  autoJsonify := Some false;
  autoConnect := Some true;
  reconnectInterval := Some 1000%N;
  pingEnabled := Some false;
  pingInterval := Some 10000%N;
  pongTimeout := Some 5000%N;
  pingMessage := Some (VString "PING");
  pongMessage := Some (VString "PONG");
  reconnectOnError := Some true
|}.

(** An options object as a caller passes it, with its own keys.  Every
    key of the interface is optional: a key is absent ([None]), or
    present with a value, and that value can be [undefined]
    ([Some None]), as in [{ autoConnect: undefined }]. *)
Record OptionsLiteral : Type := {
  own_autoJsonify : option (option bool);
  own_autoConnect : option (option bool);
  own_reconnectInterval : option (option N);
  own_pingEnabled : option (option bool);
  own_pingInterval : option (option N);
  own_pongTimeout : option (option N);
  own_pingMessage : option (option Value);
  own_pongMessage : option (option Value);
  own_reconnectOnError : option (option bool)
}.

(** The literal that has the keys given a value here, and no other. *)
Definition mkOptions (autoJsonify autoConnect : option bool)
           (reconnectInterval : option N) (pingEnabled : option bool)
           (pingInterval pongTimeout : option N)
           (pingMessage pongMessage : option Value)
           (reconnectOnError : option bool) : OptionsLiteral := {|
  own_autoJsonify := option_map Some autoJsonify;
  own_autoConnect := option_map Some autoConnect;
  own_reconnectInterval := option_map Some reconnectInterval;
  own_pingEnabled := option_map Some pingEnabled;
  own_pingInterval := option_map Some pingInterval;
  own_pongTimeout := option_map Some pongTimeout;
  own_pingMessage := option_map Some pingMessage;
  own_pongMessage := option_map Some pongMessage;
  own_reconnectOnError := option_map Some reconnectOnError
|}.

(** [{}] *)
Definition noOptions : OptionsLiteral :=
  mkOptions None None None None None None None None None.

(** One key of a spread: a key of the later object wins when the object
    has it, whatever its value, [undefined] included. *)
Definition over {A} (base : option A) (top : option (option A)) : option A :=
  match top with Some v => v | None => base end.

(** The object spread [{ ...a, ...b }], for [a] with all nine keys. *)
Definition spread (a : ResilientWebSocketOptions) (b : OptionsLiteral)
  : ResilientWebSocketOptions := {|
  autoJsonify := over (autoJsonify a) (own_autoJsonify b);
  autoConnect := over (autoConnect a) (own_autoConnect b);
  reconnectInterval := over (reconnectInterval a) (own_reconnectInterval b);
  pingEnabled := over (pingEnabled a) (own_pingEnabled b);
  pingInterval := over (pingInterval a) (own_pingInterval b);
  pongTimeout := over (pongTimeout a) (own_pongTimeout b);
  pingMessage := over (pingMessage a) (own_pingMessage b);
  pongMessage := over (pongMessage a) (own_pongMessage b);
  reconnectOnError := over (reconnectOnError a) (own_reconnectOnError b)
|}.

Inductive WebSocketEvent : Type :=
  CONNECTION | MESSAGE | CONNECTING | CLOSE | PONG | ERROR.

Definition event_eqb (a b : WebSocketEvent) : bool :=
  match a, b with
  | CONNECTION, CONNECTION | MESSAGE, MESSAGE | CONNECTING, CONNECTING
  | CLOSE, CLOSE | PONG, PONG | ERROR, ERROR => true
  | _, _ => false
  end.

Lemma event_eqb_eq (a b : WebSocketEvent) : event_eqb a b = true <-> a = b.
Proof. destruct a, b; simpl; split; intro H; congruence. Qed.

Lemma event_eqb_refl (a : WebSocketEvent) : event_eqb a a = true.
Proof. now destruct a. Qed.

(** The four transport event kinds the wrapper listens to. *)
Inductive SocketEventKind : Type := open | message | close_ev | error.

Definition kind_eqb (a b : SocketEventKind) : bool :=
  match a, b with
  | open, open | message, message | close_ev, close_ev | error, error => true
  | _, _ => false
  end.

(** ** Callbacks and the subscriber registry *)

(** A callback is a function reference; its identity is the reference. *)
Definition OnCallback : Type := nat.

(** What a callback may do to the wrapper while it runs: register or
    unregister callbacks. *)
Inductive CallbackAction : Type :=
| DoOn (event : WebSocketEvent) (callback : OnCallback)
| DoOff (event : WebSocketEvent) (callback : OnCallback).

Module JsSet.

(** A [Set<OnCallback>]: the entry list of the language definition.
    [add] appends unless the value is present, [delete] empties the
    slot in place, so that a running [forEach] keeps its index. *)
Definition t : Type := list (option OnCallback).

Definition slot_is (c : OnCallback) (e : option OnCallback) : bool :=
  match e with Some c' => Nat.eqb c c' | None => false end.

Definition has (c : OnCallback) (s : t) : bool := existsb (slot_is c) s.

Definition add (c : OnCallback) (s : t) : t :=
  if has c s then s else s ++ [Some c].

Definition delete (c : OnCallback) (s : t) : t :=
  map (fun e => if slot_is c e then None else e) s.

(** The values of the set in insertion order. *)
Fixpoint values (s : t) : list OnCallback :=
  match s with
  | [] => []
  | Some c :: s' => c :: values s'
  | None :: s' => values s'
  end.

End JsSet.

Module JsMap.

(** The [Map<string, Set<OnCallback>>] of the instance, keyed by event. *)
Definition t : Type := list (WebSocketEvent * JsSet.t).

Fixpoint get (k : WebSocketEvent) (m : t) : option JsSet.t :=
  match m with
  | [] => None
  | (k', s) :: m' => if event_eqb k k' then Some s else get k m'
  end.

Fixpoint set (k : WebSocketEvent) (s : JsSet.t) (m : t) : t :=
  match m with
  | [] => [(k, s)]
  | (k', s') :: m' =>
      if event_eqb k k' then (k', s) :: m' else (k', s') :: set k s m'
  end.

End JsMap.

(** ** The world: instance fields and environment *)

Definition SocketId : Type := nat.
Definition TimerId : Type := nat.

(** The three closures the class hands to [setTimeout]. *)
Inductive TimerAction : Type :=
| PingFire      (* the body of the timer set by sendPing *)
| PongFire      (* () => this.pongTimedOut() *)
| Reconnect.    (* () => { this.socket = this.connect() } *)

Record Timer : Type := mkTimer {
  tid : TimerId;
  due : N;
  action : TimerAction
}.

(** Observable effects, in the order they happen: [wsFactory(url)]
    returning transport [s]; [s.send(payload)]; [s.close()];
    [respondToCallbacks(event, data)] being entered; [callback(data)]
    being called for an event; [console.info(msg)]; an exception
    escaping a task. *)
Inductive Effect : Type :=
| FactoryCall (url : string) (s : SocketId)
| SocketSend (s : SocketId) (payload : Value)
| SocketClose (s : SocketId)
| Emitted (event : WebSocketEvent) (data : Value)
| Invoke (event : WebSocketEvent) (callback : OnCallback) (data : Value)
| ConsoleInfo (msg : string)
| Uncaught (e : Error).

Record World : Type := mkWorld {
  (* fields of the instance *)
  callbacks : JsMap.t;
  socket : option SocketId;
  w_pongTimeout : option TimerId;
  w_pingTimeout : option TimerId;
  (* environment *)
  now : N;
  timers : list Timer;
  next_timer : TimerId;
  next_socket : SocketId;
  listeners : list (SocketId * SocketEventKind);
  log : list Effect
}.

Definition empty_world : World :=
  mkWorld [] None None None 0%N [] 0 0 [] [].

Definition with_callbacks (m : JsMap.t) (w : World) : World :=
  mkWorld m (socket w) (w_pongTimeout w) (w_pingTimeout w) (now w) (timers w)
          (next_timer w) (next_socket w) (listeners w) (log w).

Definition with_socket (s : option SocketId) (w : World) : World :=
  mkWorld (callbacks w) s (w_pongTimeout w) (w_pingTimeout w) (now w) (timers w)
          (next_timer w) (next_socket w) (listeners w) (log w).

Definition with_pongTimeout (t : option TimerId) (w : World) : World :=
  mkWorld (callbacks w) (socket w) t (w_pingTimeout w) (now w) (timers w)
          (next_timer w) (next_socket w) (listeners w) (log w).

Definition with_pingTimeout (t : option TimerId) (w : World) : World :=
  mkWorld (callbacks w) (socket w) (w_pongTimeout w) t (now w) (timers w)
          (next_timer w) (next_socket w) (listeners w) (log w).

Definition with_now (n : N) (w : World) : World :=
  mkWorld (callbacks w) (socket w) (w_pongTimeout w) (w_pingTimeout w) n (timers w)
          (next_timer w) (next_socket w) (listeners w) (log w).

Definition with_timers (ts : list Timer) (w : World) : World :=
  mkWorld (callbacks w) (socket w) (w_pongTimeout w) (w_pingTimeout w) (now w) ts
          (next_timer w) (next_socket w) (listeners w) (log w).

Definition with_next_timer (n : TimerId) (w : World) : World :=
  mkWorld (callbacks w) (socket w) (w_pongTimeout w) (w_pingTimeout w) (now w) (timers w)
          n (next_socket w) (listeners w) (log w).

Definition with_next_socket (n : SocketId) (w : World) : World :=
  mkWorld (callbacks w) (socket w) (w_pongTimeout w) (w_pingTimeout w) (now w) (timers w)
          (next_timer w) n (listeners w) (log w).

Definition with_listeners (ls : list (SocketId * SocketEventKind)) (w : World) : World :=
  mkWorld (callbacks w) (socket w) (w_pongTimeout w) (w_pingTimeout w) (now w) (timers w)
          (next_timer w) (next_socket w) ls (log w).

Definition with_log (l : list Effect) (w : World) : World :=
  mkWorld (callbacks w) (socket w) (w_pongTimeout w) (w_pingTimeout w) (now w) (timers w)
          (next_timer w) (next_socket w) (listeners w) l.

(** ** A state monad with exceptions

    A computation runs on a world and ends normally, by a thrown error,
    or runs out of the iteration budget ([Diverge]).  The world reached
    is kept in each case: a JavaScript exception undoes nothing. *)

Inductive Result (A : Type) : Type :=
| Ok (a : A)
| Throw (e : Error)
| Diverge.
Arguments Ok {A} a.
Arguments Throw {A} e.
Arguments Diverge {A}.

Definition M (A : Type) : Type := World -> World * Result A.

Definition ret {A} (a : A) : M A := fun w => (w, Ok a).

Definition bind {A B} (c : M A) (k : A -> M B) : M B :=
  fun w =>
    match c w with
    | (w', Ok a) => k a w'
    | (w', Throw e) => (w', Throw e)
    | (w', Diverge) => (w', Diverge)
    end.

Definition throw {A} (e : Error) : M A := fun w => (w, Throw e).
Definition diverge {A} : M A := fun w => (w, Diverge).
Definition gets {A} (f : World -> A) : M A := fun w => (w, Ok (f w)).
Definition modify (f : World -> World) : M unit := fun w => (f w, Ok tt).

Declare Scope js_scope.
Delimit Scope js_scope with js.
Notation "x <- c ;; k" := (bind c (fun x => k))
  (at level 61, c at next level, right associativity) : js_scope.
Notation "c ;; k" := (bind c (fun _ => k))
  (at level 61, right associativity) : js_scope.
Open Scope js_scope.

Definition exec {A} (c : M A) (w : World) : World := fst (c w).
Definition outcome {A} (c : M A) (w : World) : Result A := snd (c w).

(** ** Environment primitives *)

Definition emit_effect (e : Effect) : M unit :=
  modify (fun w => with_log (log w ++ [e]) w).

(** The longest delay the clock takes as it is. *)
Definition TIMEOUT_MAX : N := 2147483647.

(** How far ahead the clock puts a timer asked for with delay [ms].  The
    clock is the fake clock the test suite installs: a delay above
    [TIMEOUT_MAX] is taken as 1, and a timer of delay 0 set while the
    clock is running a timer's callback ([duringTick]) is put 1 ahead,
    so that it waits for a later round of that tick. *)
Definition timer_delay (duringTick : bool) (ms : N) : N :=
  let ms := if (TIMEOUT_MAX <? ms)%N then 1%N else ms in
  if (ms =? 0)%N then (if duringTick then 1%N else 0%N) else ms.

(** [setTimeout(action, ms)] on that clock: a fresh handle, due
    [timer_delay duringTick ms] after the current time.  [duringTick]
    tells whether the call is made from a timer's callback.  The class
    sets one timer from there, the pong timer in the closure of
    [sendPing]; its other timers are set by handlers of transport
    events, which the environment delivers between ticks. *)
Definition setTimeout (duringTick : bool) (a : TimerAction) (ms : N) : M TimerId :=
  fun w =>
    let id := next_timer w in
    (with_next_timer (S id)
       (with_timers (timers w ++ [mkTimer id (now w + timer_delay duringTick ms) a]) w),
     Ok id).

Definition cancel (id : TimerId) (ts : list Timer) : list Timer :=
  filter (fun t => negb (Nat.eqb (tid t) id)) ts.

(** [clearTimeout(h)]; [clearInterval] is the same operation on the same
    handle space.  An [undefined] or stale handle clears nothing. *)
Definition clearTimeout (h : option TimerId) : M unit :=
  match h with
  | None => ret tt
  | Some id => modify (fun w => with_timers (cancel id (timers w)) w)
  end.

Definition clearInterval : option TimerId -> M unit := clearTimeout.

Definition listener_eqb (a b : SocketId * SocketEventKind) : bool :=
  Nat.eqb (fst a) (fst b) && kind_eqb (snd a) (snd b).

Definition listening (s : SocketId) (k : SocketEventKind) (w : World) : bool :=
  existsb (listener_eqb (s, k)) (listeners w).

(** The handler attached for a kind is always the same bound method, so a
    listener is identified by its transport and kind. *)
Definition addEventListener (s : SocketId) (k : SocketEventKind) : M unit :=
  modify (fun w =>
    if listening s k w then w else with_listeners (listeners w ++ [(s, k)]) w).

Definition removeEventListener (s : SocketId) (k : SocketEventKind) : M unit :=
  modify (fun w =>
    with_listeners (filter (fun l => negb (listener_eqb (s, k) l)) (listeners w)) w).

Definition socket_send (s : SocketId) (payload : Value) : M unit :=
  emit_effect (SocketSend s payload).

Definition socket_close (s : SocketId) : M unit :=
  emit_effect (SocketClose s).

(** [this.socket.<member>]: a [TypeError] while the field is undefined. *)
Definition this_socket : M SocketId :=
  fun w => match socket w with
           | Some s => (w, Ok s)
           | None => (w, Throw TypeError)
           end.

(** The timer the fake clock fires next: the earliest due, the older
    handle first among equals. *)
Definition earlier (a b : Timer) : bool :=
  (due a <? due b)%N || ((due a =? due b)%N && Nat.leb (tid a) (tid b)).

Fixpoint first_timer (ts : list Timer) : option Timer :=
  match ts with
  | [] => None
  | t :: ts' =>
      match first_timer ts' with
      | None => Some t
      | Some u => if earlier t u then Some t else Some u
      end
  end.

Definition first_due (target : N) (ts : list Timer) : option Timer :=
  first_timer (filter (fun t => (due t <=? target)%N) ts).

(** ** The class *)

Section ResilientWebSocket.

(** [url], [options] and [wsFactory] are the readonly fields; the factory
    hands out a fresh transport at each call.  [body] gives the code of
    each callback reference, [JSON_stringify] and [JSON_parse] are the
    runtime's, the latter failing with a [SyntaxError].  [fuel] bounds
    the iterations of one [forEach] and the timers fired by one tick. *)
Variable url : string.
Variable options : ResilientWebSocketOptions.
Variable body : OnCallback -> list CallbackAction.
Variable JSON_stringify : Value -> Value.
Variable JSON_parse : Value -> option Value.
Variable fuel : nat.

Definition wsFactory : M SocketId :=
  fun w =>
    let s := next_socket w in
    (with_log (log w ++ [FactoryCall url s]) (with_next_socket (S s) w), Ok s).

Definition on (event : WebSocketEvent) (callback : OnCallback) : M unit :=
  modify (fun w =>
    match JsMap.get event (callbacks w) with
    | None =>
        with_callbacks (JsMap.set event (JsSet.add callback []) (callbacks w)) w
    | Some callbackList =>
        with_callbacks
          (JsMap.set event (JsSet.add callback callbackList) (callbacks w)) w
    end).

Definition off (event : WebSocketEvent) (callback : OnCallback) : M unit :=
  modify (fun w =>
    match JsMap.get event (callbacks w) with
    | None => w
    | Some callbackList =>
        with_callbacks
          (JsMap.set event (JsSet.delete callback callbackList) (callbacks w)) w
    end).

Definition perform (a : CallbackAction) : M unit :=
  match a with
  | DoOn e c => on e c
  | DoOff e c => off e c
  end.

Fixpoint perform_all (acts : list CallbackAction) : M unit :=
  match acts with
  | [] => ret tt
  | a :: acts' => perform a ;; perform_all acts'
  end.

(** [callback(data)] *)
Definition call (event : WebSocketEvent) (callback : OnCallback)
           (data : Value) : M unit :=
  emit_effect (Invoke event callback data) ;; perform_all (body callback).

(** [callbacks.forEach(callback => callback(data))] from entry [index]
    on.  The set object is the one stored under [event]; it is read
    again at each step, so entries appended by a callback are reached
    and entries emptied before their turn are skipped. *)
Fixpoint forEach (n : nat) (event : WebSocketEvent) (data : Value)
         (index : nat) : M unit :=
  fun w =>
    match JsMap.get event (callbacks w) with
    | None => (w, Ok tt)
    | Some entries =>
        match nth_error entries index with
        | None => (w, Ok tt)
        | Some e =>
            match n with
            | 0 => (w, Diverge)
            | S n' =>
                match e with
                | None => forEach n' event data (S index) w
                | Some callback =>
                    (call event callback data ;;
                     forEach n' event data (S index)) w
                end
            end
        end
    end.

Definition respondToCallbacks (event : WebSocketEvent) (data : Value) : M unit :=
  emit_effect (Emitted event data) ;;
  forEach fuel event data 0.

Definition connect : M SocketId :=
  socket <- wsFactory ;;
  respondToCallbacks CONNECTING VThis ;;
  addEventListener socket open ;;
  addEventListener socket message ;;
  addEventListener socket close_ev ;;
  addEventListener socket error ;;
  ret socket.

Definition send (data : Value) : M unit :=
  s <- this_socket ;;
  socket_send s (if truthy (autoJsonify options) then JSON_stringify data else data).

Definition close : M unit :=
  (h <- gets w_pongTimeout ;; clearTimeout h) ;;
  (h <- gets w_pingTimeout ;; clearInterval h) ;;
  (s <- this_socket ;; removeEventListener s error) ;;
  (s <- this_socket ;; removeEventListener s message) ;;
  (s <- this_socket ;; removeEventListener s open) ;;
  (s <- this_socket ;; removeEventListener s close_ev) ;;
  (s <- this_socket ;; socket_close s) ;;
  respondToCallbacks CLOSE VThis.

Definition sendPing : M unit :=
  id <- setTimeout false PingFire (delay (pingInterval options)) ;;
  modify (with_pingTimeout (Some id)).

(** The closure [sendPing] schedules. *)
Definition pingFired : M unit :=
  send (value_of (pingMessage options)) ;;
  id <- setTimeout true PongFire (delay (pongTimeout options)) ;;
  modify (with_pongTimeout (Some id)).

Definition pongTimedOut : M unit :=
  s <- this_socket ;; socket_close s.

Definition pongReceived : M unit :=
  (h <- gets w_pongTimeout ;; clearTimeout h) ;;
  respondToCallbacks PONG VThis ;;
  sendPing.

Definition onOpen : M unit :=
  emit_effect (ConsoleInfo "onOpen") ;;
  respondToCallbacks CONNECTION VThis ;;
  if truthy (pingEnabled options) then sendPing else ret tt.

(** [data] is [event.data]. *)
Definition onMessage (data : Value) : M unit :=
  if truthy (pingEnabled options)
     && strict_eq data (value_of (pongMessage options))
  then pongReceived
  else
    msg <- (if truthy (autoJsonify options)
            then match JSON_parse data with
                 | Some v => ret v
                 | None => throw SyntaxError
                 end
            else ret data) ;;
    respondToCallbacks MESSAGE msg.

Definition onClose (event : Value) : M unit :=
  respondToCallbacks CLOSE event ;;
  (h <- gets w_pingTimeout ;; clearInterval h) ;;
  (h <- gets w_pongTimeout ;; clearTimeout h) ;;
  _ <- setTimeout false Reconnect (delay (reconnectInterval options)) ;;
  ret tt.

(** The closure [onClose] schedules. *)
Definition reconnectFired : M unit :=
  s <- connect ;;
  modify (with_socket (Some s)).

Definition onError : M unit :=
  respondToCallbacks ERROR VThis ;;
  if truthy (reconnectOnError options) then onClose VUndefined else ret tt.

Definition constructor : M unit :=
  if truthy (autoConnect options)
  then s <- connect ;; modify (with_socket (Some s))
  else ret tt.

(** ** Driving the instance: timers and transport events *)

Definition fire (a : TimerAction) : M unit :=
  match a with
  | PingFire => pingFired
  | PongFire => pongTimedOut
  | Reconnect => reconnectFired
  end.

Definition handler (k : SocketEventKind) (payload : Value) : M unit :=
  match k with
  | open => onOpen
  | message => onMessage payload
  | close_ev => onClose payload
  | error => onError
  end.

(** A task run by the event loop: an exception that escapes it is
    reported and the loop goes on. *)
Definition task (c : M unit) : M unit :=
  fun w =>
    match c w with
    | (w', Throw e) => emit_effect (Uncaught e) w'
    | r => r
    end.

(** The transport [s] delivers an event of kind [k]. *)
Definition dispatch (s : SocketId) (k : SocketEventKind) (payload : Value) : M unit :=
  fun w =>
    if listening s k w then task (handler k payload) w else (w, Ok tt).

(** Fire, in order, the timers due up to [target]; the clock stands at
    each timer's due time while it runs and at [target] in the end. *)
Fixpoint run_timers (n : nat) (target : N) : M unit :=
  fun w =>
    match first_due target (timers w) with
    | None => (with_now target w, Ok tt)
    | Some t =>
        match n with
        | 0 => (w, Diverge)
        | S n' =>
            (task (fire (action t)) ;; run_timers n' target)
              (with_now (due t) (with_timers (cancel (tid t) (timers w)) w))
        end
    end.

(** [clock.tick(ms)] *)
Definition tick (ms : N) : M unit :=
  fun w => run_timers fuel (now w + ms) w.

(** What the caller and the environment can do to an instance. *)
Inductive Input : Type :=
| CallConnect
| CallSend (data : Value)
| CallClose
| CallOn (event : WebSocketEvent) (callback : OnCallback)
| CallOff (event : WebSocketEvent) (callback : OnCallback)
| Deliver (s : SocketId) (k : SocketEventKind) (payload : Value)
| Tick (ms : N).

Definition step (i : Input) : M unit :=
  match i with
  | CallConnect => task (_ <- connect ;; ret tt)
  | CallSend d => task (send d)
  | CallClose => task close
  | CallOn e c => on e c
  | CallOff e c => off e c
  | Deliver s k p => dispatch s k p
  | Tick ms => tick ms
  end.

Fixpoint run (inputs : list Input) : M unit :=
  match inputs with
  | [] => ret tt
  | i :: rest => step i ;; run rest
  end.

End ResilientWebSocket.

(** [new ResilientWebSocket(url, options)] *)
Definition new_ResilientWebSocket body (fuel : nat) (url : string)
           (options : OptionsLiteral) : World :=
  exec (constructor url (spread defaultOptions options) body fuel) empty_world.

(** ** Reading the log *)

(** The data of the emissions of an event recorded in a log. *)
Fixpoint emitted (event : WebSocketEvent) (l : list Effect) : list Value :=
  match l with
  | [] => []
  | Emitted e d :: l' =>
      if event_eqb e event then d :: emitted event l' else emitted event l'
  | _ :: l' => emitted event l'
  end.

Definition is_factory_call (x : Effect) : bool :=
  match x with FactoryCall _ _ => true | _ => false end.

Definition is_send (x : Effect) : bool :=
  match x with SocketSend _ _ => true | _ => false end.

Definition is_socket_close (x : Effect) : bool :=
  match x with SocketClose _ => true | _ => false end.

(** Calls of the transport factory, payloads sent through transports and
    calls of a transport's [close], as recorded in a log. *)
Definition factory_calls (l : list Effect) : nat :=
  List.length (filter is_factory_call l).

Definition sends (l : list Effect) : list Effect := filter is_send l.

Definition socket_closes (l : list Effect) : list Effect := filter is_socket_close l.

(** ** The scenarios of the test suite

    The embedding run on the scenarios of the repository's tests; the
    transport is a mock, as there, and [clock.tick] is [Tick]. *)

Module Tests.

Definition no_code (c : OnCallback) : list CallbackAction := [].

Definition keepalive : OptionsLiteral :=
  mkOptions None None None (Some true) (Some 50%N) (Some 50%N)
            (Some (VString "PINGME")) (Some (VString "PONGYOU")) None.

Definition scenario (user : OptionsLiteral) (inputs : list Input) : World :=
  exec (run "ws://localhost" (spread defaultOptions user) no_code
            (fun v => v) Some 8 inputs)
       (new_ResilientWebSocket no_code 8 "ws://localhost" user).

(** factory passed url *)
Example factory_passed_url :
  filter is_factory_call (log (scenario noOptions [])) = [FactoryCall "ws://localhost" 0].
Proof. reflexivity. Qed.

(** sends a ping once connected *)
Example sends_a_ping_once_connected :
  sends (log (scenario keepalive [Deliver 0 open VUndefined; Tick 60]))
  = [SocketSend 0 (VString "PINGME")].
Proof. vm_compute. reflexivity. Qed.

(** sends multiple pings *)
Example sends_multiple_pings :
  sends
    (log (scenario
            (mkOptions None None None (Some true) (Some 50%N) (Some 500%N)
                       (Some (VString "PINGME")) (Some (VString "PONGYOU")) None)
            [Deliver 0 open VUndefined; Tick 60;
             Deliver 0 message (VString "PONGYOU"); Tick 60]))
  = [SocketSend 0 (VString "PINGME"); SocketSend 0 (VString "PINGME")].
Proof. vm_compute. reflexivity. Qed.

(** does not timeout when pong received; fires pong event when pong
    received *)
Example does_not_timeout_when_pong_received :
  let w := scenario keepalive [Deliver 0 open VUndefined; Tick 90;
                               Deliver 0 message (VString "PONGYOU")] in
  socket_closes (log w) = []
  /\ In (Emitted PONG VThis) (log w).
Proof. vm_compute. intuition. Qed.

(** times out and closes connection when pong not received *)
Example times_out_when_pong_not_received :
  socket_closes
    (log (scenario keepalive [Deliver 0 open VUndefined; Tick 120]))
  = [SocketClose 0].
Proof. vm_compute. reflexivity. Qed.

(** creates a new socket to reconnect when closed *)
Example reconnects_when_closed :
  filter is_factory_call
    (log (scenario noOptions [Deliver 0 open VUndefined;
                              Deliver 0 close_ev VUndefined; Tick 1200]))
  = [FactoryCall "ws://localhost" 0; FactoryCall "ws://localhost" 1].
Proof. vm_compute. reflexivity. Qed.

End Tests.

(** * Properties *)

(** ** Sets and maps *)

Module JsFacts.
Import JsSet JsMap.

Lemma event_eqb_neq (a b : WebSocketEvent) : a <> b -> event_eqb a b = false.
Proof.
  intro H. destruct (event_eqb a b) eqn:E; [|reflexivity].
  apply event_eqb_eq in E. contradiction.
Qed.

Lemma get_set_same k s m : get k (set k s m) = Some s.
Proof.
  induction m as [|[k' s'] m IH]; simpl.
  - now rewrite event_eqb_refl.
  - destruct (event_eqb k k') eqn:E; simpl; rewrite E; auto.
Qed.

Lemma get_set_other k k' s m : k <> k' -> get k (set k' s m) = get k m.
Proof.
  intro H. induction m as [|[k2 s2] m IH]; simpl.
  - now rewrite (event_eqb_neq _ _ H).
  - destruct (event_eqb k' k2) eqn:E; simpl.
    + apply event_eqb_eq in E. subst k2.
      now rewrite (event_eqb_neq _ _ H).
    + now rewrite IH.
Qed.

Lemma set_set k s s' m : set k s (set k s' m) = set k s m.
Proof.
  induction m as [|[k2 s2] m IH]; simpl.
  - now rewrite event_eqb_refl.
  - destruct (event_eqb k k2) eqn:E; simpl; rewrite E; [reflexivity|].
    now rewrite IH.
Qed.

Lemma set_get_id k s m : get k m = Some s -> set k s m = m.
Proof.
  induction m as [|[k2 s2] m IH]; simpl; [discriminate|].
  destruct (event_eqb k k2) eqn:E.
  - now intros [= ->].
  - intro H. now rewrite IH.
Qed.

Lemma slot_is_refl c : slot_is c (Some c) = true.
Proof. simpl. apply Nat.eqb_refl. Qed.

Lemma has_app c s s' : has c (s ++ s') = has c s || has c s'.
Proof. apply existsb_app. Qed.

Lemma has_add c s : has c (add c s) = true.
Proof.
  unfold add. destruct (has c s) eqn:E; [exact E|].
  rewrite has_app. simpl. rewrite Nat.eqb_refl. now rewrite orb_true_r.
Qed.

Lemma add_add c s : add c (add c s) = add c s.
Proof. unfold add at 1. now rewrite has_add. Qed.

Lemma delete_absent c s : has c s = false -> delete c s = s.
Proof.
  induction s as [|e s IH]; simpl; [reflexivity|].
  intro H. apply orb_false_iff in H as [H1 H2].
  rewrite H1. now rewrite IH.
Qed.

Lemma values_app s s' : values (s ++ s') = values s ++ values s'.
Proof.
  induction s as [|[c|] s IH]; simpl; [reflexivity| |]; now rewrite ?IH.
Qed.

Lemma has_In c s : has c s = true <-> In c (values s).
Proof.
  induction s as [|[c'|] s IH]; simpl.
  - split; [discriminate|tauto].
  - rewrite orb_true_iff, IH, Nat.eqb_eq. intuition congruence.
  - exact IH.
Qed.

Lemma has_false_notIn c s : has c s = false -> ~ In c (values s).
Proof. intros H HIn. apply has_In in HIn. congruence. Qed.

Lemma NoDup_values_add c s : NoDup (values s) -> NoDup (values (add c s)).
Proof.
  intro H. unfold add. destruct (has c s) eqn:E; [exact H|].
  rewrite values_app. simpl.
  apply NoDup_app; [exact H|repeat constructor; intros []|].
  intros x Hx [<-|[]]. now apply has_false_notIn in E.
Qed.

Lemma count_values_add c s :
  NoDup (values s) -> count_occ Nat.eq_dec (values (add c s)) c = 1.
Proof.
  intro H. apply NoDup_count_occ'.
  - now apply NoDup_values_add.
  - apply has_In, has_add.
Qed.

End JsFacts.

(** ** Emission *)

Definition action_event (a : CallbackAction) : WebSocketEvent :=
  match a with DoOn e _ | DoOff e _ => e end.

(** A callback is quiet on an event when its code neither registers nor
    unregisters callbacks of that event. *)
Definition quiet (body : OnCallback -> list CallbackAction)
           (event : WebSocketEvent) (c : OnCallback) : Prop :=
  forall a, In a (body c) -> action_event a <> event.

(** The invocations of the callbacks of an event recorded in a log. *)
Fixpoint invoked (event : WebSocketEvent) (l : list Effect) : list OnCallback :=
  match l with
  | [] => []
  | Invoke e c _ :: l' =>
      if event_eqb e event then c :: invoked event l' else invoked event l'
  | _ :: l' => invoked event l'
  end.

Definition registered (event : WebSocketEvent) (c : OnCallback) (w : World) : bool :=
  match JsMap.get event (callbacks w) with
  | Some s => JsSet.has c s
  | None => false
  end.

(** The callbacks of an event in registration order. *)
Definition subscribers (event : WebSocketEvent) (w : World) : list OnCallback :=
  match JsMap.get event (callbacks w) with
  | Some s => JsSet.values s
  | None => []
  end.

(** The length of the entry list of an event, emptied slots included. *)
Definition slots (event : WebSocketEvent) (w : World) : nat :=
  match JsMap.get event (callbacks w) with
  | Some s => List.length s
  | None => 0
  end.

Definition registry_ok (w : World) : Prop :=
  forall e s, JsMap.get e (callbacks w) = Some s -> NoDup (JsSet.values s).

Lemma with_callbacks_id w : with_callbacks (callbacks w) w = w.
Proof. now destruct w. Qed.

Lemma with_log_id w : with_log (log w) w = w.
Proof. now destruct w. Qed.

Lemma skipn_nth_error {A} (l : list A) i x :
  nth_error l i = Some x -> skipn i l = x :: skipn (S i) l.
Proof.
  revert i. induction l as [|y l IH]; intros [|i]; simpl; try discriminate.
  - now intros [= ->].
  - intro H. now rewrite (IH _ H).
Qed.

Lemma values_nth_error s i c :
  nth_error s i = Some (Some c) -> In c (JsSet.values s).
Proof.
  revert i. induction s as [|[c'|] s IH]; intros [|i]; simpl; try discriminate.
  - intros [= ->]. now left.
  - intro H. right. eauto.
  - eauto.
Qed.

Lemma invoked_app e l l' : invoked e (l ++ l') = invoked e l ++ invoked e l'.
Proof.
  induction l as [|x l IH]; simpl; [reflexivity|].
  destruct x; auto. destruct (event_eqb event e); simpl; now rewrite IH.
Qed.

Lemma invoked_map_Invoke e data cs :
  invoked e (map (fun c => Invoke e c data) cs) = cs.
Proof.
  induction cs as [|c cs IH]; simpl; [reflexivity|].
  now rewrite event_eqb_refl, IH.
Qed.

Section Emission.

Variable body : OnCallback -> list CallbackAction.

Lemma on_exec e c w :
  exists m, on e c w = (with_callbacks m w, Ok tt)
    /\ forall e', e' <> e -> JsMap.get e' m = JsMap.get e' (callbacks w).
Proof.
  unfold on, modify.
  destruct (JsMap.get e (callbacks w)); eexists; split; try reflexivity;
    intros e' H; now apply JsFacts.get_set_other.
Qed.

Lemma off_exec e c w :
  exists m, off e c w = (with_callbacks m w, Ok tt)
    /\ forall e', e' <> e -> JsMap.get e' m = JsMap.get e' (callbacks w).
Proof.
  unfold off, modify.
  destruct (JsMap.get e (callbacks w)).
  - eexists; split; [reflexivity|].
    intros e' H; now apply JsFacts.get_set_other.
  - exists (callbacks w). now rewrite with_callbacks_id.
Qed.

(** The code of a callback touches the registry and nothing else, and
    leaves alone the events it does not name. *)
Lemma perform_all_exec acts w :
  exists m, perform_all acts w = (with_callbacks m w, Ok tt)
    /\ (forall e, (forall a, In a acts -> action_event a <> e) ->
                  JsMap.get e m = JsMap.get e (callbacks w))
    /\ (acts = [] -> m = callbacks w).
Proof.
  revert w. induction acts as [|a acts IH]; intro w; simpl.
  - exists (callbacks w). now rewrite with_callbacks_id.
  - unfold bind.
    assert (exists m, perform a w = (with_callbacks m w, Ok tt)
              /\ forall e', e' <> action_event a ->
                   JsMap.get e' m = JsMap.get e' (callbacks w)) as (m & -> & Hm).
    { destruct a; simpl; [apply on_exec|apply off_exec]. }
    destruct (IH (with_callbacks m w)) as (m' & -> & Hm' & _).
    exists m'. split; [reflexivity|]. split; [|discriminate].
    intros e He. rewrite Hm'; [|intros; apply He; now right].
    simpl. apply Hm. intros ->. apply (He a); [now left|reflexivity].
Qed.

Lemma call_exec e c data w :
  exists m, call body e c data w
            = (with_callbacks m (with_log (log w ++ [Invoke e c data]) w), Ok tt)
    /\ (forall e', quiet body e' c -> JsMap.get e' m = JsMap.get e' (callbacks w))
    /\ (body c = [] -> m = callbacks w).
Proof.
  unfold call, bind, emit_effect, modify.
  destruct (perform_all_exec (body c)
              (with_log (log w ++ [Invoke e c data]) w)) as (m & -> & Hm & Hnil).
  exists m. split; [reflexivity|]. split; [|exact Hnil].
  intros e' Hq. now apply Hm.
Qed.

(** Whatever the callbacks do, [forEach] changes the registry and the
    log only, the log by invocations of callbacks of the event; it ends
    normally or exhausts its budget. *)
Lemma forEach_frame n e data : forall index w,
  exists m l r,
    forEach body n e data index w
    = (with_callbacks m (with_log (log w ++ l) w), r)
    /\ Forall (fun x => exists c, x = Invoke e c data) l
    /\ (r = Ok tt \/ r = Diverge).
Proof.
  induction n as [|n IH]; intros index w; simpl.
  - exists (callbacks w), [], (match JsMap.get e (callbacks w) with
                               | Some entries =>
                                   match nth_error entries index with
                                   | Some _ => Diverge
                                   | None => Ok tt
                                   end
                               | None => Ok tt
                               end).
    rewrite app_nil_r, with_log_id, with_callbacks_id.
    destruct (JsMap.get e (callbacks w)) as [entries|]; [|now auto].
    destruct (nth_error entries index); auto.
  - destruct (JsMap.get e (callbacks w)) as [entries|] eqn:Hget.
    + destruct (nth_error entries index) as [[c|]|].
      * unfold bind. destruct (call_exec e c data w) as (m1 & -> & _).
        destruct (IH (S index)
                    (with_callbacks m1 (with_log (log w ++ [Invoke e c data]) w)))
          as (m2 & l & r & Heq & Hl & Hr).
        exists m2, (Invoke e c data :: l), r.
        destruct Hr as [-> | ->]; rewrite Heq; simpl; rewrite <- app_assoc;
          (split; [reflexivity|split; [constructor; eauto|auto]]).
      * apply IH.
      * exists (callbacks w), [], (Ok tt).
        rewrite app_nil_r, with_log_id, with_callbacks_id. auto.
    + exists (callbacks w), [], (Ok tt).
      rewrite app_nil_r, with_log_id, with_callbacks_id. auto.
Qed.

(** Over callbacks that are quiet on the event, [forEach] visits the
    entries from [index] on, in order, each once, and ends. *)
Lemma forEach_quiet n e data entries : forall index w,
  JsMap.get e (callbacks w) = Some entries ->
  (forall c, In c (JsSet.values entries) -> quiet body e c) ->
  List.length entries - index <= n ->
  exists m,
    forEach body n e data index w
    = (with_callbacks m
         (with_log (log w ++ map (fun c => Invoke e c data)
                                 (JsSet.values (skipn index entries))) w),
       Ok tt)
    /\ JsMap.get e m = Some entries
    /\ ((forall c, In c (JsSet.values entries) -> body c = []) -> m = callbacks w).
Proof.
  induction n as [|n IH]; intros index w Hget Hq Hn.
  - assert (nth_error entries index = None) as Hnth
        by (apply nth_error_None; lia).
    exists (callbacks w). simpl. rewrite Hget, Hnth.
    rewrite skipn_all2 by lia. simpl.
    now rewrite app_nil_r, with_log_id, with_callbacks_id.
  - simpl. rewrite Hget.
    destruct (nth_error entries index) as [slot|] eqn:Hnth.
    + rewrite (skipn_nth_error _ _ _ Hnth).
      assert (index < List.length entries) as Hlt
          by (apply nth_error_Some; congruence).
      destruct slot as [c|]; simpl.
      * unfold bind.
        destruct (call_exec e c data w) as (m1 & -> & Hm1 & Hnil1).
        assert (In c (JsSet.values entries)) as Hin
            by (eapply values_nth_error; eauto).
        assert (JsMap.get e m1 = Some entries) as Hget1.
        { rewrite Hm1; [exact Hget|]. now apply Hq. }
        destruct (IH (S index)
                    (with_callbacks m1 (with_log (log w ++ [Invoke e c data]) w))
                    Hget1 Hq ltac:(lia)) as (m2 & -> & Hm2 & Hnil2).
        exists m2. split; [|split; [exact Hm2|]].
        -- simpl. now rewrite <- app_assoc.
        -- intro Hinert. rewrite (Hnil2 Hinert). simpl. auto.
      * destruct (IH (S index) w Hget Hq ltac:(lia)) as (m2 & -> & Hm2).
        exists m2. now split.
    + exists (callbacks w).
      apply nth_error_None in Hnth.
      rewrite skipn_all2 by lia. simpl.
      now rewrite app_nil_r, with_log_id, with_callbacks_id.
Qed.

Variable fuel : nat.

Lemma respondToCallbacks_quiet e data w :
  (forall c, In c (subscribers e w) -> quiet body e c) ->
  slots e w <= fuel ->
  exists m,
    respondToCallbacks body fuel e data w
    = (with_callbacks m
         (with_log (log w ++ Emitted e data
                      :: map (fun c => Invoke e c data) (subscribers e w)) w),
       Ok tt)
    /\ JsMap.get e m = JsMap.get e (callbacks w)
    /\ ((forall c, In c (subscribers e w) -> body c = []) -> m = callbacks w).
Proof.
  intros Hq Hlen.
  unfold respondToCallbacks, bind, emit_effect, modify, subscribers, slots in *.
  destruct (JsMap.get e (callbacks w)) as [entries|] eqn:Hget.
  - destruct (forEach_quiet fuel e data entries 0
                (with_log (log w ++ [Emitted e data]) w))
      as (m & -> & Hm & Hnil); auto.
    { lia. }
    exists m. split; [|split; [exact Hm|exact Hnil]].
    simpl. now rewrite <- app_assoc.
  - exists (callbacks w). split; [|split; [exact Hget|reflexivity]].
    destruct fuel; simpl; rewrite Hget; now destruct w.
Qed.

(** The effects of one emission: the event, then its invocations. *)
Definition emission (e : WebSocketEvent) (data : Value) (w : World) : list Effect :=
  Emitted e data :: map (fun c => Invoke e c data) (subscribers e w).

(** Inert callbacks (their code does nothing to the registry) within
    the iteration budget: every emission then runs to its end. *)
Definition tame (w : World) : Prop :=
  (forall e c, In c (subscribers e w) -> body c = [])
  /\ (forall e, slots e w <= fuel).

Lemma respondToCallbacks_tame e data w :
  tame w ->
  respondToCallbacks body fuel e data w
  = (with_log (log w ++ emission e data w) w, Ok tt).
Proof.
  intros [Hinert Hfuel].
  destruct (respondToCallbacks_quiet e data w) as (m & -> & _ & Hm).
  - intros c Hc a. rewrite (Hinert e c Hc). intros [].
  - apply Hfuel.
  - rewrite Hm by (apply Hinert). unfold emission. now destruct w.
Qed.

Lemma respondToCallbacks_frame e data w :
  exists m l r,
    respondToCallbacks body fuel e data w
    = (with_callbacks m (with_log (log w ++ Emitted e data :: l) w), r)
    /\ Forall (fun x => exists c, x = Invoke e c data) l
    /\ (r = Ok tt \/ r = Diverge).
Proof.
  unfold respondToCallbacks, bind, emit_effect, modify.
  destruct (forEach_frame fuel e data 0 (with_log (log w ++ [Emitted e data]) w))
    as (m & l & r & Heq & Hl & Hr).
  exists m, l, r. rewrite Heq. simpl. rewrite <- app_assoc. simpl.
  destruct Hr as [-> | ->]; auto.
Qed.

End Emission.

(** ** The event bus: [on], [off], emission *)

(** Emission over a snapshot: the callbacks an emission invokes are the
    subscribers at its start, in registration order. *)
Definition snapshot_emission (body : OnCallback -> list CallbackAction)
           (fuel : nat) (event : WebSocketEvent) (data : Value) (w : World) : Prop :=
  invoked event (log (exec (respondToCallbacks body fuel event data) w))
  = invoked event (log w) ++ subscribers event w.

(** A first callback that, while it runs, registers callback 3 and
    unregisters callback 2 of [CONNECTION]. *)
Definition meddling_body (c : OnCallback) : list CallbackAction :=
  match c with
  | 1 => [DoOn CONNECTION 3; DoOff CONNECTION 2]
  | _ => []
  end.

Definition two_subscribers : World :=
  exec (on CONNECTION 1 ;; on CONNECTION 2) empty_world.

(** C5, as stated, fails: with callbacks 1 and 2 registered, callback 1
    registering 3 and unregistering 2 during the emission, the running
    emission invokes 1 and then 3, and never 2: [forEach] walks the live
    set. *)
Lemma emission_is_not_over_a_snapshot :
  subscribers CONNECTION two_subscribers = [1; 2]
  /\ outcome (respondToCallbacks meddling_body 8 CONNECTION VThis) two_subscribers
     = Ok tt
  /\ invoked CONNECTION
       (log (exec (respondToCallbacks meddling_body 8 CONNECTION VThis)
                  two_subscribers)) = [1; 3]
  /\ ~ snapshot_emission meddling_body 8 CONNECTION VThis two_subscribers.
Proof.
  repeat split; try reflexivity.
  unfold snapshot_emission. vm_compute. discriminate.
Qed.

(** C5, amended: an emission synchronously invokes the callbacks of the
    event in registration order over the live set; when no callback
    registered at its start registers or unregisters callbacks of that
    same event while it runs, the emission ends normally having invoked
    exactly the callbacks registered at its start, each once, in
    registration order, and leaves the subscribers as they were. *)
Theorem emission_invokes_subscribers_in_order
        (body : OnCallback -> list CallbackAction) (fuel : nat)
        (event : WebSocketEvent) (data : Value) (w : World)
        (Hquiet : forall c, In c (subscribers event w) -> quiet body event c)
        (Hfuel : slots event w <= fuel) :
  outcome (respondToCallbacks body fuel event data) w = Ok tt
  /\ log (exec (respondToCallbacks body fuel event data) w)
     = log w ++ Emitted event data
             :: map (fun c => Invoke event c data) (subscribers event w)
  /\ snapshot_emission body fuel event data w
  /\ subscribers event (exec (respondToCallbacks body fuel event data) w)
     = subscribers event w.
Proof.
  destruct (respondToCallbacks_quiet body fuel event data w Hquiet Hfuel)
    as (m & Heq & Hm & _).
  unfold snapshot_emission, outcome, exec. rewrite Heq. simpl.
  repeat split.
  - rewrite invoked_app. simpl. now rewrite invoked_map_Invoke.
  - unfold subscribers. simpl. now rewrite Hm.
Qed.

Lemma emission_invokes_subscribers_in_order_witness :
  (forall c, In c (subscribers CONNECTION two_subscribers) ->
             quiet (fun _ => []) CONNECTION c)
  /\ slots CONNECTION two_subscribers <= 2
  /\ log (exec (respondToCallbacks (fun _ => []) 2 CONNECTION VThis) two_subscribers)
     = [Emitted CONNECTION VThis; Invoke CONNECTION 1 VThis;
        Invoke CONNECTION 2 VThis].
Proof.
  assert (forall c, In c (subscribers CONNECTION two_subscribers) ->
                    quiet (fun _ => []) CONNECTION c) as Hq
      by (intros c _ a []).
  assert (slots CONNECTION two_subscribers <= 2) as Hf by (vm_compute; lia).
  split; [exact Hq|]. split; [exact Hf|].
  exact (proj1 (proj2 (emission_invokes_subscribers_in_order
                         (fun _ => []) 2 CONNECTION VThis two_subscribers Hq Hf))).
Defined.

Lemma on_twice e c w : exec (on e c ;; on e c) w = exec (on e c) w.
Proof.
  unfold exec, bind, on, modify. simpl.
  destruct (JsMap.get e (callbacks w)) as [s|]; simpl;
    rewrite JsFacts.get_set_same; simpl;
    now rewrite ?JsFacts.add_add, JsFacts.set_set.
Qed.

Lemma off_unregistered e c w : registered e c w = false -> exec (off e c) w = w.
Proof.
  unfold registered, exec, off, modify. simpl.
  destruct (JsMap.get e (callbacks w)) as [s|] eqn:Hget; [|reflexivity].
  intro H. rewrite (JsFacts.delete_absent _ _ H), (JsFacts.set_get_id _ _ _ Hget).
  apply with_callbacks_id.
Qed.

Lemma subscribers_on e c w :
  registry_ok w ->
  count_occ Nat.eq_dec (subscribers e (exec (on e c) w)) c = 1.
Proof.
  intro Hok. unfold subscribers, exec, on, modify. simpl.
  destruct (JsMap.get e (callbacks w)) as [s|] eqn:Hget; simpl;
    rewrite JsFacts.get_set_same.
  - apply JsFacts.count_values_add. eapply Hok; eauto.
  - apply JsFacts.count_values_add. constructor.
Qed.

(** The registry of a fresh instance holds no callback twice, and [on]
    and [off] keep it so. *)
Lemma registry_ok_empty : registry_ok empty_world.
Proof. intros e s. discriminate. Qed.

Lemma values_delete_incl c s x :
  In x (JsSet.values (JsSet.delete c s)) -> In x (JsSet.values s).
Proof.
  induction s as [|[c'|] s IH]; simpl; auto.
  destruct (Nat.eqb c c'); simpl; intuition.
Qed.

Lemma NoDup_values_delete c s :
  NoDup (JsSet.values s) -> NoDup (JsSet.values (JsSet.delete c s)).
Proof.
  induction s as [|[c'|] s IH]; simpl; auto.
  intro H. inversion H as [|? ? Hnotin Hnodup]; subst.
  destruct (Nat.eqb c c'); simpl; [now apply IH|].
  constructor; [|now apply IH].
  intro Hin. apply Hnotin. eapply values_delete_incl; eauto.
Qed.

Lemma registry_ok_on e c w : registry_ok w -> registry_ok (exec (on e c) w).
Proof.
  intros Hok e' s. unfold exec, on, modify. simpl.
  destruct (event_eqb e' e) eqn:E.
  - apply event_eqb_eq in E. subst e'.
    destruct (JsMap.get e (callbacks w)) as [s0|] eqn:Hget; simpl;
      rewrite JsFacts.get_set_same; intros [= <-];
      apply JsFacts.NoDup_values_add; [eapply Hok; eauto|constructor].
  - assert (e' <> e) as Hne by (intros ->; now rewrite event_eqb_refl in E).
    destruct (JsMap.get e (callbacks w)); simpl;
      rewrite JsFacts.get_set_other by exact Hne; apply Hok.
Qed.

Lemma registry_ok_off e c w : registry_ok w -> registry_ok (exec (off e c) w).
Proof.
  intros Hok e' s. unfold exec, off, modify. simpl.
  destruct (JsMap.get e (callbacks w)) as [s0|] eqn:Hget; simpl; [|apply Hok].
  destruct (event_eqb e' e) eqn:E.
  - apply event_eqb_eq in E. subst e'.
    rewrite JsFacts.get_set_same. intros [= <-].
    apply NoDup_values_delete. eapply Hok; eauto.
  - assert (e' <> e) as Hne by (intros ->; now rewrite event_eqb_refl in E).
    rewrite JsFacts.get_set_other by exact Hne. apply Hok.
Qed.

(** C6: registering a callback twice leaves the world as registering it
    once; an emission of the event over quiet callbacks then invokes it
    exactly once; unregistering a callback that is not registered
    changes nothing. *)
Theorem on_is_idempotent_and_off_of_unregistered_is_noop
        (body : OnCallback -> list CallbackAction) (fuel : nat)
        (event : WebSocketEvent) (callback : OnCallback) (data : Value)
        (event' : WebSocketEvent) (callback' : OnCallback) (w : World)
        (Hok : registry_ok w)
        (Hquiet : forall c, In c (subscribers event (exec (on event callback) w)) ->
                            quiet body event c)
        (Hfuel : slots event (exec (on event callback) w) <= fuel)
        (Hunreg : registered event' callback' w = false) :
  let once := exec (on event callback) w in
  let twice := exec (on event callback ;; on event callback) w in
  twice = once
  /\ outcome (respondToCallbacks body fuel event data) twice = Ok tt
  /\ count_occ Nat.eq_dec
       (invoked event (log (exec (respondToCallbacks body fuel event data) twice)))
       callback
     = count_occ Nat.eq_dec (invoked event (log twice)) callback + 1
  /\ exec (off event' callback') w = w.
Proof.
  intros once twice. subst once twice. rewrite on_twice.
  split; [reflexivity|].
  pose proof (subscribers_on event callback w Hok) as Hcount.
  destruct (respondToCallbacks_quiet body fuel event data _ Hquiet Hfuel)
    as (m & Heq & Hm & _).
  set (w1 := exec (on event callback) w) in *.
  repeat split.
  - unfold outcome. now rewrite Heq.
  - unfold exec at 1. rewrite Heq. simpl.
    rewrite invoked_app. simpl. rewrite invoked_map_Invoke.
    rewrite count_occ_app. now f_equal.
  - now apply off_unregistered.
Qed.

Lemma on_is_idempotent_and_off_of_unregistered_is_noop_witness :
  registry_ok two_subscribers
  /\ registered MESSAGE 1 two_subscribers = false
  /\ exec (on CONNECTION 2 ;; on CONNECTION 2) two_subscribers
     = exec (on CONNECTION 2) two_subscribers
  /\ exec (off MESSAGE 1) two_subscribers = two_subscribers.
Proof.
  assert (registry_ok two_subscribers) as Hok.
  { intros e s. destruct e; simpl; try discriminate.
    intros [= <-]. simpl. repeat constructor; simpl; intuition discriminate. }
  assert (forall c, In c (subscribers CONNECTION (exec (on CONNECTION 2) two_subscribers)) ->
                    quiet (fun _ => []) CONNECTION c) as Hq
      by (intros c _ a []).
  assert (slots CONNECTION (exec (on CONNECTION 2) two_subscribers) <= 2) as Hf
      by (vm_compute; lia).
  assert (registered MESSAGE 1 two_subscribers = false) as Hu by reflexivity.
  split; [exact Hok|]. split; [exact Hu|].
  pose proof (on_is_idempotent_and_off_of_unregistered_is_noop
                (fun _ => []) 2 CONNECTION 2 VThis MESSAGE 1 two_subscribers
                Hok Hq Hf Hu) as H.
  simpl in H. destruct H as (H1 & _ & _ & H4).
  split; [exact H1|exact H4].
Defined.

(** ** Facts about logs *)

Definition invocations_only (l : list Effect) : Prop :=
  Forall (fun x => exists e c d, x = Invoke e c d) l.

Lemma invocations_of_event e data l :
  Forall (fun x => exists c, x = Invoke e c data) l -> invocations_only l.
Proof. apply Forall_impl. intros x [c ->]. eauto. Qed.

Lemma emitted_app e l l' : emitted e (l ++ l') = emitted e l ++ emitted e l'.
Proof.
  induction l as [|x l IH]; simpl; [reflexivity|].
  destruct x; auto. destruct (event_eqb event e); simpl; now rewrite IH.
Qed.

Lemma emitted_invocations e l : invocations_only l -> emitted e l = [].
Proof. induction 1 as [|x l (e' & c & d & ->) _ IH]; simpl; auto. Qed.

Lemma filter_invocations (p : Effect -> bool) l :
  (forall e c d, p (Invoke e c d) = false) -> invocations_only l -> filter p l = [].
Proof.
  intros Hp. induction 1 as [|x l (e' & c & d & ->) _ IH]; simpl; auto.
  now rewrite Hp.
Qed.

Lemma invoked_other e e' data l :
  e <> e' -> Forall (fun x => exists c, x = Invoke e c data) l -> invoked e' l = [].
Proof.
  intros Hne. induction 1 as [|x l [c ->] _ IH]; simpl; auto.
  now rewrite (JsFacts.event_eqb_neq _ _ Hne).
Qed.

Lemma factory_calls_app l l' :
  factory_calls (l ++ l') = factory_calls l + factory_calls l'.
Proof. unfold factory_calls. now rewrite filter_app, length_app. Qed.

Lemma factory_calls_invocations l : invocations_only l -> factory_calls l = 0.
Proof.
  intro H. unfold factory_calls. now rewrite filter_invocations.
Qed.

(** ** [send] without a connection handle (C4) *)

Definition manual_options : OptionsLiteral :=
  mkOptions None (Some false) None None None None None None None.

Definition unconnected : World :=
  new_ResilientWebSocket (fun _ => []) 0 "ws://localhost" manual_options.

(** C4, as stated, fails: on an instance built with [autoConnect] false
    and never connected, [send] ends with the runtime's [TypeError]
    (reading [send] of the undefined [socket] field), not with a
    [NotConnected] condition. *)
Lemma send_unconnected_is_not_NotConnected :
  let options := spread defaultOptions manual_options in
  socket unconnected = None
  /\ outcome (send options (fun v => v) (VString "hello")) unconnected
     = Throw TypeError
  /\ outcome (send options (fun v => v) (VString "hello")) unconnected
     <> Throw NotConnected.
Proof. repeat split. discriminate. Qed.

(** C4, amended: [send] makes no check of its own.  With no connection
    handle it raises the runtime's [TypeError] to its caller, sending
    nothing and leaving the instance as it was; with a handle it forwards
    the encoded payload to that transport whatever the transport's
    state.  No [NotConnected] condition is ever raised. *)
Theorem send_raises_TypeError_without_handle
        (options : ResilientWebSocketOptions) (JSON_stringify : Value -> Value)
        (data : Value) (w : World) :
  send options JSON_stringify data w
  = match socket w with
    | None => (w, Throw TypeError)
    | Some s =>
        (with_log (log w ++ [SocketSend s (if truthy (autoJsonify options)
                                           then JSON_stringify data else data)]) w,
         Ok tt)
    end
  /\ outcome (send options JSON_stringify data) w <> Throw NotConnected.
Proof.
  unfold outcome, send, bind, this_socket, socket_send, emit_effect, modify.
  destruct (socket w); simpl; split; (reflexivity || discriminate).
Qed.

(** ** Handlers, step by step *)

Definition cancel_opt (h : option TimerId) (ts : list Timer) : list Timer :=
  match h with Some id => cancel id ts | None => ts end.

Lemma with_timers_id w : with_timers (timers w) w = w.
Proof. now destruct w. Qed.

Lemma clearTimeout_exec h w :
  clearTimeout h w = (with_timers (cancel_opt h (timers w)) w, Ok tt).
Proof. destruct h; simpl; [reflexivity|]. now rewrite with_timers_id. Qed.

Ltac frame_emission :=
  match goal with
  | |- context [respondToCallbacks ?b ?f ?e ?d ?w] =>
      let m := fresh "m" in
      let l := fresh "l" in
      let r := fresh "r" in
      let Heq := fresh "Heq" in
      let Hl := fresh "Hl" in
      let Hr := fresh "Hr" in
      destruct (respondToCallbacks_frame b f e d w) as (m & l & r & Heq & Hl & Hr);
      rewrite Heq; clear Heq
  end.

Section Handlers.

Variable url : string.
Variable options : ResilientWebSocketOptions.
Variable body : OnCallback -> list CallbackAction.
Variable JSON_stringify : Value -> Value.
Variable JSON_parse : Value -> option Value.
Variable fuel : nat.

(** The timer [sendPing] sets up in a world. *)
Definition next_ping (w : World) : Timer :=
  mkTimer (next_timer w) (now w + timer_delay false (delay (pingInterval options)))
          PingFire.

(** [pongReceived], whatever the registry: the recorded pong timer is
    cancelled, [PONG] is emitted, and if the emission ends a ping is
    scheduled a full interval ahead. *)
Lemma pongReceived_frame w :
  exists m l r,
    Forall (fun x => exists c, x = Invoke PONG c VThis) l
    /\ (r = Ok tt \/ r = Diverge)
    /\ pongReceived options body fuel w
       = (let w1 := with_callbacks m
                      (with_log (log w ++ Emitted PONG VThis :: l)
                         (with_timers (cancel_opt (w_pongTimeout w) (timers w)) w)) in
          match r with
          | Ok _ => with_pingTimeout (Some (next_timer w))
                      (with_next_timer (S (next_timer w))
                         (with_timers (timers w1 ++ [next_ping w]) w1))
          | _ => w1
          end, r).
Proof.
  unfold pongReceived, bind, gets. rewrite clearTimeout_exec.
  frame_emission. exists m, l, r. split; [exact Hl|]. split; [exact Hr|].
  destruct Hr as [-> | ->]; reflexivity.
Qed.

End Handlers.

Lemma tame_same_callbacks body fuel w w' :
  callbacks w' = callbacks w -> tame body fuel w -> tame body fuel w'.
Proof.
  unfold tame, subscribers, slots. now intros ->.
Qed.

Section PongRecognition.

Variable options : ResilientWebSocketOptions.
Variable body : OnCallback -> list CallbackAction.
Variable JSON_parse : Value -> option Value.
Variable fuel : nat.

Lemma pongReceived_tame w :
  tame body fuel w ->
  pongReceived options body fuel w
  = (with_pingTimeout (Some (next_timer w))
       (with_next_timer (S (next_timer w))
          (with_timers (cancel_opt (w_pongTimeout w) (timers w) ++ [next_ping options w])
             (with_log (log w ++ emission PONG VThis w) w))), Ok tt).
Proof.
  intro Ht. unfold pongReceived, bind, gets. rewrite clearTimeout_exec.
  rewrite respondToCallbacks_tame by (revert Ht; now apply tame_same_callbacks).
  now destruct w.
Qed.

(** The branch of [onMessage] for payloads that are not the pong. *)
Definition deliver (data : Value) : M unit :=
  msg <- (if truthy (autoJsonify options)
          then match JSON_parse data with
               | Some v => ret v
               | None => throw SyntaxError
               end
          else ret data) ;;
  respondToCallbacks body fuel MESSAGE msg.

Lemma deliver_emits_no_pong data w :
  emitted PONG (log (exec (deliver data) w)) = emitted PONG (log w).
Proof.
  unfold exec, deliver, bind, ret, throw.
  destruct (truthy (autoJsonify options)); [destruct (JSON_parse data)|];
    simpl; try reflexivity;
    frame_emission; simpl; rewrite emitted_app; simpl;
    rewrite (emitted_invocations PONG l) by (eapply invocations_of_event; eauto);
    now rewrite app_nil_r.
Qed.

Lemma pongReceived_log w :
  exists l, log (exec (pongReceived options body fuel) w)
            = log w ++ Emitted PONG VThis :: l
            /\ Forall (fun x => exists c, x = Invoke PONG c VThis) l.
Proof.
  destruct (pongReceived_frame options body fuel w) as (m & l & r & Hl & Hr & Heq).
  exists l. unfold exec. rewrite Heq. split; [|exact Hl].
  destruct Hr as [-> | ->]; reflexivity.
Qed.

Lemma onMessage_branches data :
  truthy (pingEnabled options) = true ->
  onMessage options body JSON_parse fuel data
  = if strict_eq data (value_of (pongMessage options))
    then pongReceived options body fuel
    else deliver data.
Proof. intro H. unfold onMessage, deliver. now rewrite H. Qed.

End PongRecognition.

(** Recognition by equality of variant and content, the rule C7 states:
    the handler emits [PONG] exactly for the payloads that are
    [value_eq] to the configured pong message. *)
Definition recognises_by_content (options : ResilientWebSocketOptions)
           (body : OnCallback -> list CallbackAction)
           (JSON_parse : Value -> option Value) (fuel : nat)
           (data : Value) (w : World) : Prop :=
  emitted PONG (log (exec (onMessage options body JSON_parse fuel data) w))
  = emitted PONG (log w)
    ++ (if value_eq data (value_of (pongMessage options)) then [VThis] else []).

Definition structured_pong_options : OptionsLiteral :=
  mkOptions None None None (Some true) None None None
            (Some (VObject 1 [("type", "pong")])) None.

(** C7, as stated, fails: with the pong message configured as the object
    [{type: "pong"}], an inbound object with the same content (another
    object, as every decoded payload is) is not taken for a pong; it is
    delivered to the [MESSAGE] subscribers. *)
Lemma structured_pong_of_equal_content_is_not_recognised :
  let options := spread defaultOptions structured_pong_options in
  let data := VObject 2 [("type", "pong")] in
  let w := new_ResilientWebSocket (fun _ => []) 4 "ws://localhost"
                                  structured_pong_options in
  value_eq data (value_of (pongMessage options)) = true
  /\ emitted PONG (log (exec (onMessage options (fun _ => []) Some 4 data) w)) = []
  /\ emitted MESSAGE (log (exec (onMessage options (fun _ => []) Some 4 data) w))
     = [data]
  /\ ~ recognises_by_content options (fun _ => []) Some 4 data w.
Proof.
  repeat split. unfold recognises_by_content. vm_compute. discriminate.
Qed.

(** C7, amended: with pings enabled, an inbound payload is taken for a
    pong exactly when it is strictly equal ([===]) to the configured pong
    message: for text, the same string, never a prefix or a pattern; a
    text and a structured value are never equal; for structured values,
    only the very same object, equal content not being enough. *)
Theorem pong_is_recognised_by_strict_equality
        (options : ResilientWebSocketOptions)
        (body : OnCallback -> list CallbackAction)
        (JSON_parse : Value -> option Value) (fuel : nat)
        (data : Value) (w : World)
        (Hping : truthy (pingEnabled options) = true) :
  let pong := value_of (pongMessage options) in
  emitted PONG (log (exec (onMessage options body JSON_parse fuel data) w))
  = emitted PONG (log w) ++ (if strict_eq data pong then [VThis] else [])
  /\ (forall s p, data = VString s -> pong = VString p ->
                  (strict_eq data pong = true <-> s = p))
  /\ (forall r ps r' qs, data = VObject r ps -> pong = VObject r' qs ->
                         (strict_eq data pong = true <-> r = r'))
  /\ (forall s r ps, data = VString s /\ pong = VObject r ps
                     \/ data = VObject r ps /\ pong = VString s ->
                     strict_eq data pong = false).
Proof.
  intro pong. subst pong. split; [|split; [|split]].
  - rewrite onMessage_branches by exact Hping.
    destruct (strict_eq data (value_of (pongMessage options))).
    + destruct (pongReceived_log options body fuel w) as (l & Hlog & Hl).
      rewrite Hlog, emitted_app. simpl.
      now rewrite (emitted_invocations PONG l)
        by (eapply invocations_of_event; eauto).
    + rewrite app_nil_r. apply deliver_emits_no_pong.
  - intros s p -> ->. simpl. apply String.eqb_eq.
  - intros r ps r' qs -> ->. simpl. apply Nat.eqb_eq.
  - intros s r ps [[-> ->] | [-> ->]]; reflexivity.
Qed.

Lemma pong_is_recognised_by_strict_equality_witness :
  truthy (pingEnabled (spread defaultOptions structured_pong_options)) = true
  /\ emitted PONG
       (log (exec (onMessage (spread defaultOptions structured_pong_options)
                             (fun _ => []) Some 4 (VObject 1 [("type", "pong")]))
                  empty_world))
     = [VThis].
Proof.
  split; [reflexivity|].
  exact (proj1 (pong_is_recognised_by_strict_equality
                  (spread defaultOptions structured_pong_options)
                  (fun _ => []) Some 4 (VObject 1 [("type", "pong")])
                  empty_world eq_refl)).
Defined.

(** ** Pong payloads never reach the [MESSAGE] subscribers (C10) *)

(** C10: with pings enabled, an inbound payload equal ([===]) to the
    configured pong message takes the keepalive path in every world,
    also one with no ping outstanding: nothing is emitted to or invoked
    for [MESSAGE], [PONG] is emitted, the recorded pong timer is
    cancelled and, the emission over, a further ping is scheduled a
    full interval ahead; over tame callbacks the handler ends
    normally. *)
Theorem pong_payload_is_consumed_by_keepalive
        (options : ResilientWebSocketOptions)
        (body : OnCallback -> list CallbackAction)
        (JSON_parse : Value -> option Value) (fuel : nat)
        (data : Value) (w : World)
        (Hping : truthy (pingEnabled options) = true)
        (Hpong : strict_eq data (value_of (pongMessage options)) = true) :
  let handled := onMessage options body JSON_parse fuel data in
  handled w = pongReceived options body fuel w
  /\ emitted MESSAGE (log (exec handled w)) = emitted MESSAGE (log w)
  /\ invoked MESSAGE (log (exec handled w)) = invoked MESSAGE (log w)
  /\ emitted PONG (log (exec handled w)) = emitted PONG (log w) ++ [VThis]
  /\ (outcome handled w = Ok tt ->
      timers (exec handled w)
      = cancel_opt (w_pongTimeout w) (timers w) ++ [next_ping options w]
      /\ w_pingTimeout (exec handled w) = Some (next_timer w))
  /\ (tame body fuel w -> outcome handled w = Ok tt).
Proof.
  intro handled. subst handled.
  rewrite onMessage_branches by exact Hping. rewrite Hpong.
  split; [reflexivity|].
  destruct (pongReceived_frame options body fuel w) as (m & l & r & Hl & Hr & Heq).
  unfold exec, outcome. rewrite Heq.
  assert (invocations_only l) as Hinv by (eapply invocations_of_event; eauto).
  split; [|split; [|split; [|split]]].
  - destruct Hr as [-> | ->]; simpl; rewrite emitted_app; simpl;
      rewrite (emitted_invocations MESSAGE l Hinv); now rewrite app_nil_r.
  - destruct Hr as [-> | ->]; simpl; rewrite invoked_app; simpl;
      rewrite (invoked_other PONG MESSAGE VThis l) by (auto; discriminate);
      now rewrite app_nil_r.
  - destruct Hr as [-> | ->]; simpl; rewrite emitted_app; simpl;
      now rewrite (emitted_invocations PONG l Hinv).
  - simpl. intros ->. split; reflexivity.
  - intro Ht. rewrite <- Heq, pongReceived_tame by exact Ht. reflexivity.
Qed.

(** Pings enabled, every 50 ms, with 50 ms for the pong. *)
Definition ping_options : OptionsLiteral :=
  mkOptions None None None (Some true) (Some 50%N) (Some 50%N) None None None.

(** An unsolicited pong: the connection is open, the first ping is still
    scheduled, none has been sent. *)
Lemma pong_payload_is_consumed_by_keepalive_witness :
  let options := spread defaultOptions ping_options in
  let w := exec (dispatch options (fun _ => []) Some 4 0 open VUndefined)
                (new_ResilientWebSocket (fun _ => []) 4 "ws://localhost" ping_options) in
  w_pongTimeout w = None
  /\ truthy (pingEnabled options) = true
  /\ strict_eq (VString "PONG") (value_of (pongMessage options)) = true
  /\ emitted MESSAGE
       (log (exec (onMessage options (fun _ => []) Some 4 (VString "PONG")) w)) = []
  /\ List.length
       (timers (exec (onMessage options (fun _ => []) Some 4 (VString "PONG")) w)) = 2.
Proof.
  intros options w.
  pose proof (pong_payload_is_consumed_by_keepalive
                options (fun _ => []) Some 4 (VString "PONG") w eq_refl eq_refl)
    as (_ & H2 & _ & _ & H5 & _).
  do 3 (split; [reflexivity|]). split; [exact H2|].
  rewrite (proj1 (H5 eq_refl)). reflexivity.
Defined.

(** ** Timers and tasks, step by step *)

Lemma timer_delay_in_range b d :
  (1 <= d <= TIMEOUT_MAX)%N -> timer_delay b d = d.
Proof.
  intros [H1 H2]. unfold timer_delay.
  replace (TIMEOUT_MAX <? d)%N with false by (symmetry; apply N.ltb_ge; exact H2).
  replace (d =? 0)%N with false by (symmetry; apply N.eqb_neq; lia).
  reflexivity.
Qed.

Lemma timer_delay_as_asked d :
  (d <= TIMEOUT_MAX)%N -> timer_delay false d = d.
Proof.
  intro H. unfold timer_delay.
  replace (TIMEOUT_MAX <? d)%N with false by (symmetry; apply N.ltb_ge; exact H).
  destruct (d =? 0)%N eqn:E; [apply N.eqb_eq in E; now subst|reflexivity].
Qed.

Lemma timer_delay_overflow b d : (TIMEOUT_MAX < d)%N -> timer_delay b d = 1%N.
Proof.
  intro H. unfold timer_delay. apply N.ltb_lt in H as ->. reflexivity.
Qed.

Lemma timer_delay_le d : (timer_delay false d <= d)%N.
Proof.
  unfold timer_delay.
  destruct (TIMEOUT_MAX <? d)%N eqn:E.
  - apply N.ltb_lt in E. unfold TIMEOUT_MAX in E. simpl. lia.
  - destruct (d =? 0)%N eqn:E0; [apply N.eqb_eq in E0|]; lia.
Qed.

Lemma timer_delay_positive d : (0 < timer_delay true d)%N.
Proof.
  unfold timer_delay.
  destruct (TIMEOUT_MAX <? d)%N eqn:E; [simpl; lia|].
  destruct (d =? 0)%N eqn:E0; [lia|apply N.eqb_neq in E0; lia].
Qed.

Lemma first_due_none target ts :
  (forall t, In t ts -> (target < due t)%N) -> first_due target ts = None.
Proof.
  intro H. unfold first_due.
  replace (filter (fun t => (due t <=? target)%N) ts) with (@nil Timer);
    [reflexivity|].
  induction ts as [|t ts IH]; simpl; [reflexivity|].
  assert ((due t <=? target)%N = false) as ->
      by (apply N.leb_gt, H; now left).
  apply IH. intros; apply H; now right.
Qed.

Lemma first_due_single target t :
  (due t <= target)%N -> first_due target [t] = Some t.
Proof.
  intro H. unfold first_due. simpl.
  now apply N.leb_le in H as ->.
Qed.

Lemma cancel_single t : cancel (tid t) [t] = [].
Proof. unfold cancel. simpl. now rewrite Nat.eqb_refl. Qed.

Lemma cancel_recorded id d a : cancel id [mkTimer id d a] = [].
Proof. apply (cancel_single (mkTimer id d a)). Qed.

Lemma task_ok (c : M unit) w w' : c w = (w', Ok tt) -> task c w = (w', Ok tt).
Proof. unfold task. now intros ->. Qed.

Lemma task_throw (c : M unit) w w' e :
  c w = (w', Throw e) -> task c w = (with_log (log w' ++ [Uncaught e]) w', Ok tt).
Proof. unfold task. now intros ->. Qed.

Section Stepping.

Variable url : string.
Variable options : ResilientWebSocketOptions.
Variable body : OnCallback -> list CallbackAction.
Variable JSON_stringify : Value -> Value.
Variable JSON_parse : Value -> option Value.
Variable fuel : nat.

Abbreviation run_timers_ := (run_timers url options body JSON_stringify fuel).
Abbreviation tick_ := (tick url options body JSON_stringify fuel).
Abbreviation fire_ := (fire url options body JSON_stringify fuel).
Abbreviation dispatch_ := (dispatch options body JSON_parse fuel).
Abbreviation handler_ := (handler options body JSON_parse fuel).

Lemma run_timers_idle n target w :
  (forall t, In t (timers w) -> (target < due t)%N) ->
  run_timers_ n target w = (with_now target w, Ok tt).
Proof.
  intro H. destruct n; simpl; now rewrite (first_due_none _ _ H).
Qed.

Lemma run_timers_single n target w t :
  timers w = [t] -> (due t <= target)%N -> 1 <= n ->
  run_timers_ n target w
  = (task (fire_ (action t)) ;; run_timers_ (pred n) target)
      (with_now (due t) (with_timers [] w)).
Proof.
  intros Ht Hdue Hn. destruct n as [|n]; [lia|].
  simpl. rewrite Ht, (first_due_single _ _ Hdue).
  now rewrite cancel_single.
Qed.

Lemma dispatch_listening s k payload w :
  listening s k w = true -> dispatch_ s k payload w = task (handler_ k payload) w.
Proof. unfold dispatch. now intros ->. Qed.

(** [onOpen] with pings enabled *)
Lemma onOpen_tame w :
  tame body fuel w -> truthy (pingEnabled options) = true ->
  onOpen options body fuel w
  = (with_pingTimeout (Some (next_timer w))
       (with_next_timer (S (next_timer w))
          (with_timers (timers w ++ [next_ping options w])
             (with_log (log w ++ ConsoleInfo "onOpen" :: emission CONNECTION VThis w)
                       w))), Ok tt).
Proof.
  intros Ht Hp. unfold onOpen, bind, emit_effect, modify. rewrite Hp.
  rewrite respondToCallbacks_tame by (revert Ht; now apply tame_same_callbacks).
  destruct w. simpl. unfold emission, subscribers. simpl.
  now rewrite <- app_assoc.
Qed.

(** The payload [send] hands to the transport. *)
Definition encoded (data : Value) : Value :=
  if truthy (autoJsonify options) then JSON_stringify data else data.

(** The timer [pingFired] sets up in a world. *)
Definition next_pong (w : World) : Timer :=
  mkTimer (next_timer w) (now w + timer_delay true (delay (pongTimeout options)))
          PongFire.

Lemma pingFired_exec s w :
  socket w = Some s ->
  pingFired options JSON_stringify w
  = (with_pongTimeout (Some (next_timer w))
       (with_next_timer (S (next_timer w))
          (with_timers (timers w ++ [next_pong w])
             (with_log (log w ++ [SocketSend s (encoded (value_of (pingMessage options)))])
                       w))), Ok tt).
Proof.
  intro Hs. unfold pingFired, send, bind, this_socket. rewrite Hs.
  now destruct w.
Qed.

Lemma pongTimedOut_exec s w :
  socket w = Some s ->
  pongTimedOut w = (with_log (log w ++ [SocketClose s]) w, Ok tt).
Proof. intro Hs. unfold pongTimedOut, bind, this_socket. now rewrite Hs. Qed.

End Stepping.

(** ** One keepalive round without a pong (C8) *)

Section KeepaliveRound.

Variable url : string.
Variable options : ResilientWebSocketOptions.
Variable body : OnCallback -> list CallbackAction.
Variable JSON_stringify : Value -> Value.
Variable JSON_parse : Value -> option Value.
Variable fuel : nat.

Abbreviation tick_ := (tick url options body JSON_stringify fuel).
Abbreviation dispatch_ := (dispatch options body JSON_parse fuel).

Hypothesis Henabled : pingEnabled options = Some true.
Hypothesis Hinterval : pingInterval options = Some 50%N.
Hypothesis Htimeout : pongTimeout options = Some 50%N.
Hypothesis Hfuel : 1 <= fuel.

Variable s : SocketId.
Variable w : World.
Hypothesis Hsocket : socket w = Some s.
Hypothesis Hlistening : listening s open w = true.
Hypothesis Hidle : timers w = [].
Hypothesis Htame : tame body fuel w.

(** The world after the open event. *)
Definition opened : World :=
  with_pingTimeout (Some (next_timer w))
    (with_next_timer (S (next_timer w))
       (with_timers [mkTimer (next_timer w) (now w + 50) PingFire]
          (with_log (log w ++ ConsoleInfo "onOpen" :: emission CONNECTION VThis w) w))).

Lemma open_event : dispatch_ s open VUndefined w = (opened, Ok tt).
Proof.
  rewrite dispatch_listening by exact Hlistening.
  apply task_ok. simpl. rewrite onOpen_tame; [|exact Htame|now rewrite Henabled].
  unfold opened, next_ping. now rewrite Hidle, Hinterval.
Qed.

(** The world 60 ms later: the ping went out, its pong is awaited. *)
Definition pinged : World :=
  with_now (now w + 60)
    (with_pongTimeout (Some (S (next_timer w)))
       (with_next_timer (S (S (next_timer w)))
          (with_timers [mkTimer (S (next_timer w)) (now w + 50 + 50) PongFire]
             (with_log (log opened
                          ++ [SocketSend s (encoded options JSON_stringify
                                              (value_of (pingMessage options)))])
                       opened)))).

Lemma first_tick : tick_ 60 opened = (pinged, Ok tt).
Proof.
  unfold tick.
  rewrite (run_timers_single _ _ _ _ _ _ _ _ (mkTimer (next_timer w) (now w + 50) PingFire));
    [|reflexivity|simpl; lia|exact Hfuel].
  unfold bind. simpl fire.
  erewrite task_ok; [|apply pingFired_exec; exact Hsocket].
  rewrite run_timers_idle.
  - unfold pinged, next_pong. simpl. now rewrite Htimeout.
  - simpl. intros t [<-|[]]. unfold next_pong. rewrite Htimeout.
    change (timer_delay true (delay (Some 50%N))) with 50%N. simpl. lia.
Qed.

(** The world another 60 ms later: the pong timer fired. *)
Definition timed_out : World :=
  with_now (now w + 60 + 60)
    (with_timers [] (with_log (log pinged ++ [SocketClose s]) pinged)).

Lemma second_tick : tick_ 60 pinged = (timed_out, Ok tt).
Proof.
  unfold tick.
  rewrite (run_timers_single _ _ _ _ _ _ _ _
             (mkTimer (S (next_timer w)) (now w + 50 + 50) PongFire));
    [|reflexivity|simpl; lia|exact Hfuel].
  unfold bind. simpl fire.
  erewrite task_ok; [|apply pongTimedOut_exec; exact Hsocket].
  rewrite run_timers_idle by (simpl; intros t []).
  reflexivity.
Qed.


End KeepaliveRound.


(** What C8 states of the instance [w] and its transport [s]: after the
    open event, one more ping has been sent when 60 ms have passed, and
    one more transport close has been called when another 60 have. *)
Definition pings_once_then_closes_once
           (url : string) (options : ResilientWebSocketOptions)
           (body : OnCallback -> list CallbackAction)
           (JSON_stringify : Value -> Value) (JSON_parse : Value -> option Value)
           (fuel : nat) (s : SocketId) (w : World) : Prop :=
  let w1 := exec (dispatch options body JSON_parse fuel s open VUndefined) w in
  let w2 := exec (tick url options body JSON_stringify fuel 60) w1 in
  let w3 := exec (tick url options body JSON_stringify fuel 60) w2 in
  List.length (sends (log w2)) = List.length (sends (log w)) + 1
  /\ List.length (socket_closes (log w3)) = List.length (socket_closes (log w)) + 1.

(** Pings as in C8, on an instance the caller connects. *)
Definition manual_ping_options : OptionsLiteral :=
  mkOptions None (Some false) None (Some true) (Some 50%N) (Some 50%N) None None None.

Definition connected_by_caller : World :=
  exec (run "ws://localhost" (spread defaultOptions manual_ping_options)
            (fun _ => []) (fun v => v) Some 4 [CallConnect])
       (new_ResilientWebSocket (fun _ => []) 4 "ws://localhost" manual_ping_options).


(** ** A pong in time (C9) *)

(** A run on which every ping is answered.  Pings are enabled, every
    50 ms, with 50 ms for the pong.  The server sends a pong nobody
    asked for 10 ms after the open, then answers each ping it gets: the
    pings go out at 50 and at 60, their pongs arrive at 70 and at 75,
    and the clock advances to 100. *)
Definition answered_pings : list Input :=
  [Deliver 0 open VUndefined;
   Tick 10; Deliver 0 message (VString "PONG");
   Tick 40;
   Tick 10;
   Tick 10; Deliver 0 message (VString "PONG");
   Tick 5; Deliver 0 message (VString "PONG");
   Tick 25].

(** The instance after the first [k] steps of that run. *)
Definition answered_pings_after (k : nat) : World :=
  exec (run "ws://localhost" (spread defaultOptions ping_options)
            (fun _ => []) (fun v => v) Some 4 (firstn k answered_pings))
       (new_ResilientWebSocket (fun _ => []) 4 "ws://localhost" ping_options).

(** C9 fails on that run.  The unasked pong makes [pongReceived] set a
    second ping timer beside the one [onOpen] set, so two pings go out,
    at 50 and at 60.  The second overwrites the recorded pong timer
    handle: the pongs at 70 and at 75, each within the pong timeout of
    both pings, cancel the timer of the second ping only, and the timer
    of the first, which the instance no longer records, calls the
    transport's [close] at 100. *)
Theorem answered_pings_still_time_out :
  let ping := SocketSend 0 (VString "PING") in
  (now (answered_pings_after 4) = 50%N
   /\ sends (log (answered_pings_after 4)) = [ping]
   /\ timers (answered_pings_after 4)
      = [mkTimer 1 60 PingFire; mkTimer 2 100 PongFire]
   /\ w_pongTimeout (answered_pings_after 4) = Some 2)
  /\ (now (answered_pings_after 5) = 60%N
      /\ sends (log (answered_pings_after 5)) = [ping; ping]
      /\ timers (answered_pings_after 5)
         = [mkTimer 2 100 PongFire; mkTimer 3 110 PongFire]
      /\ w_pongTimeout (answered_pings_after 5) = Some 3)
  /\ (now (answered_pings_after 7) = 70%N
      /\ timers (answered_pings_after 7)
         = [mkTimer 2 100 PongFire; mkTimer 4 120 PingFire])
  /\ (now (answered_pings_after 9) = 75%N
      /\ emitted PONG (log (answered_pings_after 9)) = [VThis; VThis; VThis]
      /\ socket_closes (log (answered_pings_after 9)) = [])
  /\ (now (answered_pings_after 10) = 100%N
      /\ sends (log (answered_pings_after 10)) = [ping; ping]
      /\ socket_closes (log (answered_pings_after 10)) = [SocketClose 0]).
Proof.
  intro ping. subst ping.
  repeat split; vm_compute; reflexivity.
Qed.

Section PongInTime.

Variable url : string.
Variable options : ResilientWebSocketOptions.
Variable body : OnCallback -> list CallbackAction.
Variable JSON_stringify : Value -> Value.
Variable JSON_parse : Value -> option Value.
Variable fuel : nat.

Abbreviation tick_ := (tick url options body JSON_stringify fuel).
Abbreviation dispatch_ := (dispatch options body JSON_parse fuel).
Abbreviation interval := (timer_delay false (delay (pingInterval options))).
Abbreviation timeout := (timer_delay true (delay (pongTimeout options))).

Hypothesis Henabled : truthy (pingEnabled options) = true.
Hypothesis Hfuel : 1 <= fuel.

Variable s : SocketId.
Variable data : Value.
Variable w : World.
Variable p : TimerId.
Variable d : N.
Hypothesis Hpong : strict_eq data (value_of (pongMessage options)) = true.
Hypothesis Hsocket : socket w = Some s.
Hypothesis Hlistening : listening s message w = true.
Hypothesis Hrecorded : w_pongTimeout w = Some p.
Hypothesis Hround : timers w = [mkTimer p d PongFire].
Hypothesis Htame : tame body fuel w.

(** The world after the pong. *)
Definition ponged : World :=
  with_pingTimeout (Some (next_timer w))
    (with_next_timer (S (next_timer w))
       (with_timers [next_ping options w]
          (with_log (log w ++ emission PONG VThis w) w))).

Lemma pong_event : dispatch_ s message data w = (ponged, Ok tt).
Proof.
  rewrite dispatch_listening by exact Hlistening.
  apply task_ok. simpl.
  rewrite onMessage_branches by exact Henabled. rewrite Hpong.
  rewrite pongReceived_tame by exact Htame.
  unfold ponged. rewrite Hrecorded, Hround. unfold cancel_opt.
  now rewrite cancel_recorded.
Qed.

Lemma tick_before_next_ping ms :
  (ms < interval)%N ->
  tick_ ms ponged = (with_now (now w + ms) ponged, Ok tt).
Proof.
  intro Hms. unfold tick. rewrite run_timers_idle; [reflexivity|].
  simpl. intros t [<-|[]]. simpl. lia.
Qed.

Lemma tick_to_next_ping :
  tick_ interval ponged
  = (with_now (now w + interval)
       (with_pongTimeout (Some (S (next_timer w)))
          (with_next_timer (S (S (next_timer w)))
             (with_timers [mkTimer (S (next_timer w))
                             (now w + interval + timeout) PongFire]
                (with_log (log ponged
                             ++ [SocketSend s (encoded options JSON_stringify
                                                 (value_of (pingMessage options)))])
                          ponged)))), Ok tt).
Proof.
  pose proof (timer_delay_positive (delay (pongTimeout options))) as Hpos.
  unfold tick.
  rewrite (run_timers_single _ _ _ _ _ _ _ _ (next_ping options w));
    [|reflexivity|simpl; lia|exact Hfuel].
  unfold bind. simpl fire.
  erewrite task_ok; [|apply pingFired_exec; exact Hsocket].
  rewrite run_timers_idle.
  - reflexivity.
  - simpl. intros t [<-|[]]. simpl. lia.
Qed.

Lemma ponged_log (q : Effect -> bool) :
  (forall e c x, q (Invoke e c x) = false) -> q (Emitted PONG VThis) = false ->
  filter q (log ponged) = filter q (log w).
Proof.
  intros Hq He. unfold ponged, emission. simpl.
  rewrite filter_app. simpl. rewrite He.
  rewrite (filter_invocations q (map _ _)); [now rewrite app_nil_r|exact Hq|].
  apply Forall_forall. intros x Hx. apply in_map_iff in Hx as (c & <- & _). eauto.
Qed.

End PongInTime.

(** ** Closing and reconnecting, step by step *)

Definition add_listener (s : SocketId) (k : SocketEventKind)
           (ls : list (SocketId * SocketEventKind)) : list (SocketId * SocketEventKind) :=
  if existsb (listener_eqb (s, k)) ls then ls else ls ++ [(s, k)].

Definition remove_listener (s : SocketId) (k : SocketEventKind)
           (ls : list (SocketId * SocketEventKind)) : list (SocketId * SocketEventKind) :=
  filter (fun l => negb (listener_eqb (s, k) l)) ls.

(** The listeners once [connect] has wired transport [s]. *)
Definition wired (s : SocketId) (ls : list (SocketId * SocketEventKind)) :=
  add_listener s error
    (add_listener s close_ev (add_listener s message (add_listener s open ls))).

(** The listeners once [close] has unwired transport [s]. *)
Definition unwired (s : SocketId) (ls : list (SocketId * SocketEventKind)) :=
  remove_listener s close_ev
    (remove_listener s open (remove_listener s message (remove_listener s error ls))).

Lemma with_listeners_id w : with_listeners (listeners w) w = w.
Proof. now destruct w. Qed.

Lemma addEventListener_exec s k w :
  addEventListener s k w = (with_listeners (add_listener s k (listeners w)) w, Ok tt).
Proof.
  unfold addEventListener, modify, add_listener, listening.
  destruct (existsb (listener_eqb (s, k)) (listeners w)); [|reflexivity].
  now rewrite with_listeners_id.
Qed.

Lemma cancel_opt_nil h : cancel_opt h [] = [].
Proof. now destruct h. Qed.

(** The timer handles an instance records were handed out earlier. *)
Definition handles_issued (w : World) : Prop :=
  (forall id, w_pingTimeout w = Some id -> id < next_timer w)
  /\ (forall id, w_pongTimeout w = Some id -> id < next_timer w).

Lemma cancel_other id t : tid t <> id -> cancel id [t] = [t].
Proof.
  intro H. unfold cancel. simpl.
  now apply Nat.eqb_neq in H as ->.
Qed.

Lemma cancel_opt_other h t :
  (forall id, h = Some id -> id <> tid t) -> cancel_opt h [t] = [t].
Proof.
  destruct h as [id|]; [|reflexivity]. intro H.
  apply cancel_other. intro E. now apply (H id).
Qed.

Section Reconnecting.

Variable url : string.
Variable options : ResilientWebSocketOptions.
Variable body : OnCallback -> list CallbackAction.
Variable JSON_stringify : Value -> Value.
Variable JSON_parse : Value -> option Value.
Variable fuel : nat.

Abbreviation run_timers_ := (run_timers url options body JSON_stringify fuel).
Abbreviation fire_ := (fire url options body JSON_stringify fuel).

Lemma run_timers_step n target w t :
  first_due target (timers w) = Some t -> 1 <= n ->
  run_timers_ n target w
  = (task (fire_ (action t)) ;; run_timers_ (pred n) target)
      (with_now (due t) (with_timers (cancel (tid t) (timers w)) w)).
Proof.
  intros Ht Hn. destruct n as [|n]; [lia|]. simpl. now rewrite Ht.
Qed.

(** The world [connect] leaves, the new transport being [next_socket w]. *)
Definition connected (w : World) : World :=
  with_listeners (wired (next_socket w) (listeners w))
    (with_log (log w ++ FactoryCall url (next_socket w) :: emission CONNECTING VThis w)
       (with_next_socket (S (next_socket w)) w)).

Lemma connect_tame w :
  tame body fuel w ->
  connect url body fuel w = (connected w, Ok (next_socket w)).
Proof.
  intro Ht. unfold connect, bind, wsFactory.
  rewrite respondToCallbacks_tame by (revert Ht; now apply tame_same_callbacks).
  rewrite !addEventListener_exec. unfold ret, connected, wired.
  destruct w. simpl. unfold emission, subscribers. simpl.
  now rewrite <- app_assoc.
Qed.

Lemma reconnectFired_tame w :
  tame body fuel w ->
  reconnectFired url body fuel w
  = (with_socket (Some (next_socket w)) (connected w), Ok tt).
Proof.
  intro Ht. unfold reconnectFired, bind. now rewrite connect_tame.
Qed.

(** The timer [onClose] sets up in a world. *)
Definition next_reconnect (w : World) : Timer :=
  mkTimer (next_timer w) (now w + timer_delay false (delay (reconnectInterval options)))
          Reconnect.

Lemma onClose_tame event w :
  tame body fuel w ->
  onClose options body fuel event w
  = (with_next_timer (S (next_timer w))
       (with_timers (cancel_opt (w_pongTimeout w)
                       (cancel_opt (w_pingTimeout w) (timers w))
                     ++ [next_reconnect w])
          (with_log (log w ++ emission CLOSE event w) w)), Ok tt).
Proof.
  intro Ht. unfold onClose, bind, gets, clearInterval.
  rewrite respondToCallbacks_tame by exact Ht.
  rewrite !clearTimeout_exec. now destruct w.
Qed.

Lemma onError_tame w :
  tame body fuel w ->
  onError options body fuel w
  = if truthy (reconnectOnError options)
    then onClose options body fuel VUndefined
           (with_log (log w ++ emission ERROR VThis w) w)
    else (with_log (log w ++ emission ERROR VThis w) w, Ok tt).
Proof.
  intro Ht. unfold onError, bind.
  rewrite respondToCallbacks_tame by exact Ht.
  now destruct (truthy (reconnectOnError options)).
Qed.

End Reconnecting.

(** A [connect()] of the caller creates and wires a transport but does
    not store it: only the constructor and the reconnect timer assign the
    [socket] field. *)
Lemma connect_does_not_store_the_handle url body fuel w :
  socket (exec (connect url body fuel) w) = socket w.
Proof.
  unfold exec, connect, bind, wsFactory.
  frame_emission. destruct Hr as [-> | ->]; [|reflexivity].
  now rewrite !addEventListener_exec.
Qed.

(** ** An error followed by a close (C2) *)

Ltac world_simpl :=
  cbn [callbacks socket w_pongTimeout w_pingTimeout now timers next_timer
       next_socket listeners log with_callbacks with_socket with_pongTimeout
       with_pingTimeout with_now with_timers with_next_timer with_next_socket
       with_listeners with_log fst snd] in *.

Lemma cancel_first id d a t :
  tid t <> id -> cancel id [mkTimer id d a; t] = [t].
Proof.
  intro H. unfold cancel. cbn [filter tid]. rewrite Nat.eqb_refl.
  now apply Nat.eqb_neq in H as ->.
Qed.

Lemma factory_calls_emission e d w : factory_calls (emission e d w) = 0.
Proof.
  unfold emission, factory_calls. simpl.
  rewrite (filter_invocations is_factory_call (map _ _)); auto.
  apply Forall_forall. intros x Hx. apply in_map_iff in Hx as (c & <- & _). eauto.
Qed.

(** What C2 states: the error and the close of one transport together
    bring one factory call once the reconnect delay has passed. *)
Definition one_reconnect_per_transport
           (url : string) (options : ResilientWebSocketOptions)
           (body : OnCallback -> list CallbackAction)
           (JSON_stringify : Value -> Value) (JSON_parse : Value -> option Value)
           (fuel : nat) (s : SocketId) (event : Value) (w : World) : Prop :=
  factory_calls
    (log (exec (dispatch options body JSON_parse fuel s error VUndefined ;;
                dispatch options body JSON_parse fuel s close_ev event ;;
                tick url options body JSON_stringify fuel
                     (delay (reconnectInterval options))) w))
  = factory_calls (log w) + 1.


Section ErrorThenClose.

Variable url : string.
Variable options : ResilientWebSocketOptions.
Variable body : OnCallback -> list CallbackAction.
Variable JSON_stringify : Value -> Value.
Variable JSON_parse : Value -> option Value.
Variable fuel : nat.

Abbreviation run_timers_ := (run_timers url options body JSON_stringify fuel).
Abbreviation tick_ := (tick url options body JSON_stringify fuel).
Abbreviation dispatch_ := (dispatch options body JSON_parse fuel).

Hypothesis Hfuel : 2 <= fuel.

(** Firing a due reconnect timer: one factory call, the other timers
    left as they were. *)
Lemma reconnect_timer_fires n target w t :
  tame body fuel w -> first_due target (timers w) = Some t ->
  action t = Reconnect -> 1 <= n ->
  exists w',
    run_timers_ n target w = run_timers_ (pred n) target w'
    /\ tame body fuel w'
    /\ timers w' = cancel (tid t) (timers w)
    /\ factory_calls (log w') = factory_calls (log w) + 1.
Proof.
  intros Ht Hdue Hact Hn.
  rewrite (run_timers_step url options body JSON_stringify fuel n target w t Hdue Hn). unfold bind.
  rewrite Hact. simpl fire.
  erewrite task_ok;
    [|apply reconnectFired_tame; revert Ht; now apply tame_same_callbacks].
  eexists. split; [reflexivity|]. split; [|split].
  - revert Ht. now apply tame_same_callbacks.
  - reflexivity.
  - unfold connected. world_simpl. rewrite factory_calls_app.
    change (factory_calls (FactoryCall url (next_socket w) :: ?l))
      with (S (factory_calls l)).
    now rewrite factory_calls_emission.
Qed.

Variable s : SocketId.
Variable event : Value.
Variable w : World.
Hypothesis Herror : listening s error w = true.
Hypothesis Hclose : listening s close_ev w = true.
Hypothesis Hidle : timers w = [].
Hypothesis Hissued : handles_issued w.
Hypothesis Htame : tame body fuel w.

(** The world after the error event. *)
Definition errored : World :=
  if truthy (reconnectOnError options)
  then with_next_timer (S (next_timer w))
         (with_timers [next_reconnect options w]
            (with_log ((log w ++ emission ERROR VThis w)
                       ++ emission CLOSE VUndefined w) w))
  else with_log (log w ++ emission ERROR VThis w) w.

Lemma error_event : dispatch_ s error VUndefined w = (errored, Ok tt).
Proof.
  rewrite dispatch_listening by exact Herror.
  apply task_ok. simpl handler. rewrite onError_tame by exact Htame.
  unfold errored. destruct (truthy (reconnectOnError options)); [|reflexivity].
  rewrite onClose_tame by (revert Htame; now apply tame_same_callbacks).
  world_simpl. rewrite Hidle, !cancel_opt_nil. reflexivity.
Qed.

Lemma errored_facts :
  tame body fuel errored
  /\ listening s close_ev errored = true
  /\ now errored = now w
  /\ factory_calls (log errored) = factory_calls (log w)
  /\ w_pingTimeout errored = w_pingTimeout w
  /\ w_pongTimeout errored = w_pongTimeout w.
Proof.
  unfold errored.
  destruct (truthy (reconnectOnError options)); world_simpl;
    (split; [revert Htame; now apply tame_same_callbacks|]);
    (split; [exact Hclose|]); (split; [reflexivity|]);
    (split; [|split; reflexivity]);
    rewrite ?factory_calls_app, ?factory_calls_emission; lia.
Qed.

(** The world after the close event that follows. *)
Definition closed_after_error : World :=
  with_next_timer (S (next_timer errored))
    (with_timers (timers errored ++ [next_reconnect options errored])
       (with_log (log errored ++ emission CLOSE event errored) errored)).

Lemma close_event : dispatch_ s close_ev event errored = (closed_after_error, Ok tt).
Proof.
  destruct errored_facts as (Ht & Hl & _ & _ & Hpi & Hpo).
  rewrite dispatch_listening by exact Hl.
  apply task_ok. simpl handler. rewrite onClose_tame by exact Ht.
  unfold closed_after_error. do 3 f_equal. f_equal.
  rewrite Hpi, Hpo. destruct Hissued as [Hi1 Hi2].
  unfold errored. destruct (truthy (reconnectOnError options)); world_simpl.
  - rewrite !cancel_opt_other; [reflexivity| |]; intros id Hid; simpl;
      [apply Hi2 in Hid|apply Hi1 in Hid]; lia.
  - now rewrite Hidle, !cancel_opt_nil.
Qed.


End ErrorThenClose.


(** ** Closing twice (C3) *)

Lemma filter_id {A} (f : A -> bool) (l : list A) :
  (forall x, In x l -> f x = true) -> filter f l = l.
Proof.
  induction l as [|a l IH]; simpl; intro H; [reflexivity|].
  rewrite (H a) by now left. f_equal. apply IH. intros; apply H; now right.
Qed.

Lemma unwired_again s k ls : remove_listener s k (unwired s ls) = unwired s ls.
Proof.
  apply filter_id. intros x Hx. unfold unwired, remove_listener in Hx.
  repeat (apply filter_In in Hx as [Hx ?]).
  destruct k; assumption.
Qed.

Lemma unwired_twice s ls : unwired s (unwired s ls) = unwired s ls.
Proof.
  unfold unwired at 1. now rewrite !unwired_again.
Qed.

Lemma cancel_opt_again h h1 h2 ts :
  h = h1 \/ h = h2 ->
  cancel_opt h (cancel_opt h1 (cancel_opt h2 ts)) = cancel_opt h1 (cancel_opt h2 ts).
Proof.
  intro Hh. destruct h as [id|]; [|reflexivity]. simpl.
  apply filter_id. intros x Hx.
  destruct Hh as [<- | <-]; simpl in Hx.
  - now apply filter_In in Hx as [_ ?].
  - destruct h1; simpl in Hx; [apply filter_In in Hx as [Hx _]|];
      now apply filter_In in Hx as [_ ?].
Qed.

Section Closing.

Variable body : OnCallback -> list CallbackAction.
Variable fuel : nat.

(** The world an explicit [close] leaves. *)
Definition closed (s : SocketId) (w : World) : World :=
  with_listeners (unwired s (listeners w))
    (with_timers (cancel_opt (w_pingTimeout w) (cancel_opt (w_pongTimeout w) (timers w)))
       (with_log (log w ++ SocketClose s :: emission CLOSE VThis w) w)).

Lemma removeEventListener_exec s k w :
  removeEventListener s k w
  = (with_listeners (remove_listener s k (listeners w)) w, Ok tt).
Proof. reflexivity. Qed.

Lemma close_tame s w :
  socket w = Some s -> tame body fuel w ->
  close body fuel w = (closed s w, Ok tt).
Proof.
  intros Hs Ht. unfold close, bind, gets, clearInterval, this_socket.
  rewrite !clearTimeout_exec. world_simpl. rewrite Hs.
  rewrite !removeEventListener_exec. world_simpl. rewrite Hs.
  rewrite !removeEventListener_exec. world_simpl. rewrite Hs.
  rewrite !removeEventListener_exec. world_simpl. rewrite Hs.
  rewrite !removeEventListener_exec. world_simpl. rewrite Hs.
  unfold socket_close, emit_effect, modify.
  rewrite respondToCallbacks_tame by (revert Ht; now apply tame_same_callbacks).
  unfold closed, unwired, emission, subscribers. destruct w. world_simpl.
  now rewrite <- app_assoc.
Qed.

End Closing.

(** What C3 states: a second [close] is not observable. *)
Definition second_close_is_silent (body : OnCallback -> list CallbackAction)
           (fuel : nat) (w : World) : Prop :=
  log (exec (close body fuel ;; close body fuel) w) = log (exec (close body fuel) w).

(** C3, as stated, fails: on a fresh instance the second [close] calls
    the transport's [close] again and emits [CLOSE] to the subscribers
    again. *)
Lemma second_close_is_observable :
  let body (c : OnCallback) : list CallbackAction := [] in
  let w := exec (on CLOSE 7)
             (new_ResilientWebSocket body 4 "ws://localhost" noOptions) in
  let twice := exec (close body 4 ;; close body 4) w in
  socket_closes (log twice) = [SocketClose 0; SocketClose 0]
  /\ emitted CLOSE (log twice) = [VThis; VThis]
  /\ invoked CLOSE (log twice) = [7; 7]
  /\ ~ second_close_is_silent body 4 w.
Proof.
  repeat split. unfold second_close_is_silent. vm_compute. discriminate.
Qed.

(** C3, amended: a second [close] repeats the first.  Its timer
    cancellations and listener removals find nothing left to do, so the
    instance is as the first call left it, but the transport's [close] is
    called once more and [CLOSE] is emitted once more to the
    subscribers. *)
Theorem second_close_repeats_transport_close_and_CLOSE
        (body : OnCallback -> list CallbackAction) (fuel : nat)
        (s : SocketId) (w : World)
        (Hsocket : socket w = Some s) (Htame : tame body fuel w) :
  let once := exec (close body fuel) w in
  let twice := exec (close body fuel ;; close body fuel) w in
  outcome (close body fuel ;; close body fuel) w = Ok tt
  /\ twice = with_log (log once ++ SocketClose s :: emission CLOSE VThis w) once
  /\ socket_closes (log twice) = socket_closes (log once) ++ [SocketClose s]
  /\ emitted CLOSE (log twice) = emitted CLOSE (log once) ++ [VThis]
  /\ invoked CLOSE (log twice) = invoked CLOSE (log once) ++ subscribers CLOSE w.
Proof.
  intros once twice. subst once twice. unfold outcome, exec, bind.
  rewrite (close_tame body fuel s w Hsocket Htame). world_simpl.
  assert (tame body fuel (closed s w)) as Ht'
      by (revert Htame; now apply tame_same_callbacks).
  rewrite (close_tame body fuel s (closed s w) Hsocket Ht'). world_simpl.
  assert (closed s (closed s w)
          = with_log (log (closed s w) ++ SocketClose s :: emission CLOSE VThis w)
                     (closed s w)) as Heq.
  { unfold closed at 1. world_simpl.
    replace (listeners (closed s w)) with (unwired s (listeners w)) by reflexivity.
    replace (timers (closed s w))
      with (cancel_opt (w_pingTimeout w) (cancel_opt (w_pongTimeout w) (timers w)))
      by reflexivity.
    replace (w_pingTimeout (closed s w)) with (w_pingTimeout w) by reflexivity.
    replace (w_pongTimeout (closed s w)) with (w_pongTimeout w) by reflexivity.
    rewrite unwired_twice.
    rewrite (cancel_opt_again (w_pongTimeout w)) by now right.
    rewrite (cancel_opt_again (w_pingTimeout w)) by now left.
    reflexivity. }
  split; [reflexivity|]. split; [exact Heq|].
  rewrite Heq. world_simpl. unfold socket_closes.
  assert (invocations_only (map (fun c => Invoke CLOSE c VThis) (subscribers CLOSE w)))
    as Hinv.
  { apply Forall_forall. intros x Hx. apply in_map_iff in Hx as (c & <- & _). eauto. }
  unfold emission. repeat split.
  - rewrite filter_app. simpl.
    now rewrite (filter_invocations is_socket_close (map _ _)) by (auto; exact Hinv).
  - rewrite emitted_app. simpl.
    now rewrite (emitted_invocations CLOSE (map _ _)) by exact Hinv.
  - rewrite invoked_app. simpl. now rewrite invoked_map_Invoke.
Qed.

Lemma second_close_repeats_transport_close_and_CLOSE_witness :
  let body (c : OnCallback) : list CallbackAction := [] in
  let w := new_ResilientWebSocket body 4 "ws://localhost" noOptions in
  tame body 4 w
  /\ socket_closes (log (exec (close body 4 ;; close body 4) w))
     = socket_closes (log (exec (close body 4) w)) ++ [SocketClose 0].
Proof.
  intros body w.
  assert (tame body 4 w) as Ht.
  { split; [intros e c []|intro e; vm_compute; lia]. }
  split; [exact Ht|].
  exact (proj1 (proj2 (proj2 (second_close_repeats_transport_close_and_CLOSE
                                body 4 0 w eq_refl Ht)))).
Defined.

(** ** After an explicit close (C1) *)

(** Predicates on worlds that the instance cannot break as long as no
    transport is created and no reconnect is scheduled: they ignore the
    registry, the clock and the recorded handles, survive effects other
    than factory calls, the removal of timers and of listeners, and the
    scheduling of timers that are not reconnects. *)
Record stable (P : World -> Prop) : Prop := {
  st_callbacks : forall m w, P w -> P (with_callbacks m w);
  st_pingTimeout : forall h w, P w -> P (with_pingTimeout h w);
  st_pongTimeout : forall h w, P w -> P (with_pongTimeout h w);
  st_now : forall n w, P w -> P (with_now n w);
  st_log : forall l w, factory_calls l = 0 -> P w -> P (with_log (log w ++ l) w);
  st_cancel : forall f w, P w -> P (with_timers (filter f (timers w)) w);
  st_unlisten : forall f w, P w -> P (with_listeners (filter f (listeners w)) w);
  st_schedule : forall t w, action t <> Reconnect ->
                            P w -> P (with_next_timer (S (next_timer w))
                                        (with_timers (timers w ++ [t]) w))
}.

Definition preserves (P : World -> Prop) {A} (c : M A) : Prop :=
  forall w, P w -> P (fst (c w)).

Lemma preserves_bind P {A B} (c : M A) (k : A -> M B) :
  preserves P c -> (forall a, preserves P (k a)) -> preserves P (bind c k).
Proof.
  intros Hc Hk w Hw. unfold bind. specialize (Hc w Hw).
  destruct (c w) as [w' [a| |]]; simpl in *; auto. now apply Hk.
Qed.

Lemma preserves_pure P {A} (c : M A) :
  (forall w, fst (c w) = w) -> preserves P c.
Proof. intros H w Hw. now rewrite H. Qed.

Section Stable.

Variable P : World -> Prop.
Hypothesis HP : stable P.

Variable options : ResilientWebSocketOptions.
Variable body : OnCallback -> list CallbackAction.
Variable JSON_stringify : Value -> Value.
Variable JSON_parse : Value -> option Value.
Variable fuel : nat.

Lemma preserves_emit_effect e :
  is_factory_call e = false -> preserves P (emit_effect e).
Proof.
  intros He w Hw. apply (st_log P HP [e]); [|exact Hw].
  unfold factory_calls. simpl. now rewrite He.
Qed.

Lemma preserves_task (c : M unit) : preserves P c -> preserves P (task c).
Proof.
  intros Hc w Hw. unfold task. specialize (Hc w Hw).
  destruct (c w) as [w' [a|e|]]; simpl in *; auto.
  now apply preserves_emit_effect.
Qed.

Lemma preserves_clearTimeout h : preserves P (clearTimeout h).
Proof.
  destruct h; [|now apply preserves_pure].
  intros w Hw. now apply (st_cancel P HP).
Qed.

Lemma preserves_removeEventListener s k : preserves P (removeEventListener s k).
Proof. intros w Hw. now apply (st_unlisten P HP). Qed.

Lemma preserves_setTimeout b a ms :
  a <> Reconnect -> preserves P (setTimeout b a ms).
Proof. intros Ha w Hw. now apply (st_schedule P HP (mkTimer _ _ a)). Qed.

Lemma preserves_this_socket : preserves P this_socket.
Proof. apply preserves_pure. intro w. unfold this_socket. now destruct (socket w). Qed.

Lemma preserves_on e c : preserves P (on e c).
Proof.
  intros w Hw. unfold on, modify. simpl.
  destruct (JsMap.get e (callbacks w)); now apply (st_callbacks P HP).
Qed.

Lemma preserves_off e c : preserves P (off e c).
Proof.
  intros w Hw. unfold off, modify. simpl.
  destruct (JsMap.get e (callbacks w)); [now apply (st_callbacks P HP)|exact Hw].
Qed.

Lemma preserves_respondToCallbacks e d :
  preserves P (respondToCallbacks body fuel e d).
Proof.
  intros w Hw.
  destruct (respondToCallbacks_frame body fuel e d w) as (m & l & r & -> & Hl & _).
  simpl. apply (st_callbacks P HP), (st_log P HP); [|exact Hw].
  change (Emitted e d :: l) with ([Emitted e d] ++ l).
  rewrite factory_calls_app, (factory_calls_invocations l); [reflexivity|].
  eapply invocations_of_event; eauto.
Qed.

Ltac preserved :=
  first [ apply preserves_respondToCallbacks
        | apply preserves_this_socket
        | apply preserves_clearTimeout
        | apply preserves_removeEventListener
        | apply preserves_emit_effect; reflexivity
        | apply preserves_pure; intro; reflexivity
        | apply preserves_bind; [preserved | intro; preserved] ].

Lemma preserves_send d : preserves P (send options JSON_stringify d).
Proof. unfold send, socket_send. preserved. Qed.

Lemma preserves_close : preserves P (close body fuel).
Proof. unfold close, clearInterval, socket_close. preserved. Qed.

Lemma preserves_pingFired : preserves P (pingFired options JSON_stringify).
Proof.
  unfold pingFired.
  apply preserves_bind; [apply preserves_send|intros _].
  apply preserves_bind; [apply preserves_setTimeout; discriminate|intro id].
  intros w Hw. now apply (st_pongTimeout P HP).
Qed.

Lemma preserves_pongTimedOut : preserves P pongTimedOut.
Proof.
  apply preserves_bind; [apply preserves_this_socket|].
  intro s. now apply preserves_emit_effect.
Qed.

Lemma preserves_sendPing : preserves P (sendPing options).
Proof.
  unfold sendPing.
  apply preserves_bind; [apply preserves_setTimeout; discriminate|intro id].
  intros w Hw. now apply (st_pingTimeout P HP).
Qed.

Lemma preserves_pongReceived : preserves P (pongReceived options body fuel).
Proof.
  unfold pongReceived.
  apply preserves_bind; [preserved|intro].
  apply preserves_bind; [preserved|intro]. apply preserves_sendPing.
Qed.

Lemma preserves_onOpen : preserves P (onOpen options body fuel).
Proof.
  unfold onOpen.
  apply preserves_bind; [preserved|intro]. apply preserves_bind; [preserved|intro].
  destruct (truthy (pingEnabled options)); [apply preserves_sendPing|preserved].
Qed.

Lemma preserves_onMessage d : preserves P (onMessage options body JSON_parse fuel d).
Proof.
  unfold onMessage.
  destruct (truthy (pingEnabled options)
            && strict_eq d (value_of (pongMessage options)));
    [apply preserves_pongReceived|].
  apply preserves_bind; [|intro; preserved].
  destruct (truthy (autoJsonify options)); [destruct (JSON_parse d)|]; preserved.
Qed.

(** An error that the options do not turn into a close. *)
Lemma preserves_onError :
  truthy (reconnectOnError options) = false -> preserves P (onError options body fuel).
Proof. intro H. unfold onError. rewrite H. preserved. Qed.

End Stable.

Definition no_reconnect_pending (w : World) : Prop :=
  forall t, In t (timers w) -> action t <> Reconnect.

(** With [k] factory calls so far: no reconnect is pending. *)
Definition settled (k : nat) (w : World) : Prop :=
  no_reconnect_pending w /\ factory_calls (log w) = k.

(** The instance after an explicit close that reached transport [s]:
    settled, and [s] carries none of its handlers any more. *)
Definition closed_off (s : SocketId) (k : nat) (w : World) : Prop :=
  settled k w /\ forall kind, listening s kind w = false.

Lemma stable_settled k : stable (settled k).
Proof.
  unfold settled, no_reconnect_pending.
  constructor; intros; destruct w; world_simpl; try assumption.
  - destruct H0 as [H1 H2]. split; [exact H1|].
    rewrite factory_calls_app. lia.
  - destruct H as [H1 H2]. split; [|exact H2].
    intros t Ht. apply filter_In in Ht as [Ht _]. auto.
  - destruct H0 as [H1 H2]. split; [|exact H2].
    intros t' Ht'. apply in_app_or in Ht' as [Ht' | [<- | []]]; auto.
Qed.

Lemma existsb_filter_false {A} (p f : A -> bool) (l : list A) :
  existsb p l = false -> existsb p (filter f l) = false.
Proof.
  induction l as [|a l IH]; simpl; [auto|]. intro H.
  apply orb_false_iff in H as [H1 H2].
  destruct (f a); simpl; [rewrite H1|]; auto.
Qed.

Lemma stable_closed_off s k : stable (closed_off s k).
Proof.
  pose proof (stable_settled k) as HS. unfold closed_off.
  constructor.
  - intros m w [H Hl]. split; [now apply (st_callbacks _ HS)|exact Hl].
  - intros h w [H Hl]. split; [now apply (st_pingTimeout _ HS)|exact Hl].
  - intros h w [H Hl]. split; [now apply (st_pongTimeout _ HS)|exact Hl].
  - intros n w [H Hl]. split; [now apply (st_now _ HS)|exact Hl].
  - intros l w Hf [H Hl]. split; [now apply (st_log _ HS)|exact Hl].
  - intros f w [H Hl]. split; [now apply (st_cancel _ HS)|exact Hl].
  - intros f w [H Hl]. split; [now apply (st_unlisten _ HS)|].
    intro kind. unfold listening. world_simpl.
    apply existsb_filter_false, Hl.
  - intros t w Ht [H Hl]. split; [now apply (st_schedule _ HS)|exact Hl].
Qed.

Lemma first_timer_In ts t : first_timer ts = Some t -> In t ts.
Proof.
  revert t. induction ts as [|a ts IH]; simpl; [discriminate|].
  intros t. destruct (first_timer ts) as [u|].
  - destruct (earlier a u); intros [= <-]; auto.
  - intros [= <-]. now left.
Qed.

Lemma first_due_In target ts t : first_due target ts = Some t -> In t ts.
Proof.
  intro H. apply first_timer_In in H. now apply filter_In in H as [H _].
Qed.

Lemma not_listening_unwired s k ls :
  existsb (listener_eqb (s, k)) (unwired s ls) = false.
Proof.
  destruct (existsb (listener_eqb (s, k)) (unwired s ls)) eqn:E; [|reflexivity].
  apply existsb_exists in E as (x & Hx & Heq).
  unfold unwired, remove_listener in Hx.
  repeat (apply filter_In in Hx as [Hx ?]).
  destruct x as [s' k']. unfold listener_eqb in *. simpl in *.
  apply andb_true_iff in Heq as [Hs Hk]. apply Nat.eqb_eq in Hs. subst s'.
  rewrite Nat.eqb_refl in *.
  destruct k, k'; simpl in *; discriminate.
Qed.

Lemma task_listeners (c : M unit) w :
  listeners (fst (task c w)) = listeners (fst (c w)).
Proof. unfold task. destruct (c w) as [w' [a|e|]]; reflexivity. Qed.

(** The inputs after which an instance closed on transport [s] makes no
    new transport: the caller does not call [connect()], and no
    transport other than [s] reports its close or, with
    [reconnectOnError] on, an error.  (A transport replaced by a
    reconnect keeps the handlers of the instance.) *)
Definition keeps_closed (options : ResilientWebSocketOptions) (s : SocketId)
           (i : Input) : Prop :=
  match i with
  | CallConnect => False
  | Deliver s' close_ev _ => s' = s
  | Deliver s' error _ => s' = s \/ truthy (reconnectOnError options) = false
  | _ => True
  end.

Section AfterClose.

Variable url : string.
Variable options : ResilientWebSocketOptions.
Variable body : OnCallback -> list CallbackAction.
Variable JSON_stringify : Value -> Value.
Variable JSON_parse : Value -> option Value.
Variable fuel : nat.

Abbreviation run_timers_ := (run_timers url options body JSON_stringify fuel).
Abbreviation step_ := (step url options body JSON_stringify JSON_parse fuel).
Abbreviation run_ := (run url options body JSON_stringify JSON_parse fuel).

Lemma close_listeners s w :
  socket w = Some s ->
  listeners (exec (close body fuel) w) = unwired s (listeners w).
Proof.
  intro Hs. unfold exec, close, bind, gets, clearInterval, this_socket.
  rewrite !clearTimeout_exec. world_simpl. rewrite Hs.
  rewrite !removeEventListener_exec. world_simpl. rewrite Hs.
  rewrite !removeEventListener_exec. world_simpl. rewrite Hs.
  rewrite !removeEventListener_exec. world_simpl. rewrite Hs.
  rewrite !removeEventListener_exec. world_simpl. rewrite Hs.
  unfold socket_close, emit_effect, modify.
  frame_emission. destruct Hr as [-> | ->]; reflexivity.
Qed.

Lemma run_timers_closed_off s k n : forall target w,
  closed_off s k w -> closed_off s k (fst (run_timers_ n target w)).
Proof.
  pose proof (stable_closed_off s k) as HT.
  induction n as [|n IH]; intros target w Hw; simpl.
  - destruct (first_due target (timers w)); [exact Hw|].
    now apply (st_now _ HT).
  - destruct (first_due target (timers w)) as [t|] eqn:Hdue;
      [|now apply (st_now _ HT)].
    assert (action t <> Reconnect) as Hact
        by (apply (proj1 (proj1 Hw)); eapply first_due_In; eauto).
    set (w0 := with_now (due t) (with_timers (cancel (tid t) (timers w)) w)).
    assert (closed_off s k w0) as Hw0
        by (apply (st_now _ HT), (st_cancel _ HT); exact Hw).
    assert (closed_off s k
              (fst (task (fire url options body JSON_stringify fuel (action t)) w0)))
      as Hfired.
    { apply (preserves_task _ HT); [|exact Hw0].
      destruct (action t); simpl;
        [now apply preserves_pingFired|now apply preserves_pongTimedOut|
          contradiction]. }
    unfold bind.
    destruct (task (fire url options body JSON_stringify fuel (action t)) w0)
      as [w' [[]|e|]]; simpl in *; auto.
Qed.

Lemma step_closed_off s k i w :
  keeps_closed options s i -> closed_off s k w -> closed_off s k (fst (step_ i w)).
Proof.
  pose proof (stable_closed_off s k) as HT.
  intros Hi Hw. destruct i as [|d| |e c|e c|s' kind payload|ms]; simpl in *.
  - contradiction.
  - apply (preserves_task _ HT); [|exact Hw]. now apply preserves_send.
  - apply (preserves_task _ HT); [|exact Hw]. now apply preserves_close.
  - now apply (preserves_on _ HT).
  - now apply (preserves_off _ HT).
  - unfold dispatch. destruct (listening s' kind w) eqn:Hl; [|exact Hw].
    apply (preserves_task _ HT); [|exact Hw].
    destruct kind; simpl in *.
    + now apply preserves_onOpen.
    + now apply preserves_onMessage.
    + subst s'. rewrite (proj2 Hw close_ev) in Hl. discriminate.
    + destruct Hi as [-> | Hroe];
        [rewrite (proj2 Hw error) in Hl; discriminate|].
      now apply preserves_onError.
  - now apply run_timers_closed_off.
Qed.

Lemma run_closed_off s k inputs : forall w,
  (forall i, In i inputs -> keeps_closed options s i) ->
  closed_off s k w -> closed_off s k (fst (run_ inputs w)).
Proof.
  induction inputs as [|i rest IH]; intros w Hin Hw; simpl; [exact Hw|].
  assert (closed_off s k (fst (step_ i w))) as Hstep.
  { apply step_closed_off; [|exact Hw]. apply Hin. now left. }
  unfold bind. destruct (step_ i w) as [w' [[]|e|]]; simpl in *;
    [|exact Hstep|exact Hstep].
  apply IH; [|exact Hstep]. intros i' Hi'. apply Hin. now right.
Qed.


End AfterClose.

(** What C1 states: whatever follows an explicit close, the factory is not
    called again. *)
Definition close_is_terminal
           (url : string) (options : ResilientWebSocketOptions)
           (body : OnCallback -> list CallbackAction)
           (JSON_stringify : Value -> Value) (JSON_parse : Value -> option Value)
           (fuel : nat) (inputs : list Input) (w : World) : Prop :=
  factory_calls
    (log (exec (run url options body JSON_stringify JSON_parse fuel
                    (CallClose :: inputs)) w))
  = factory_calls (log w).

(** A transport closes and the instance reconnects; the caller's
    [close()] comes while the reconnect delay is pending. *)
Definition closing_while_reconnecting : World :=
  exec (dispatch defaultOptions (fun _ => []) Some 4 0 close_ev (VObject 9 []))
       (new_ResilientWebSocket (fun _ => []) 4 "ws://localhost" noOptions).

(** The instance is built with [autoConnect] false and connected by the
    caller's [connect()], which does not store the transport. *)
Definition connected_by_hand : World :=
  exec (run "ws://localhost" (spread defaultOptions manual_options)
            (fun _ => []) (fun v => v) Some 4 [CallConnect])
       (new_ResilientWebSocket (fun _ => []) 4 "ws://localhost" manual_options).

(** The first transport reports an error, the instance reconnects and
    stores the second transport; the first keeps its handlers. *)
Definition reconnected_after_error : World :=
  exec (run "ws://localhost" defaultOptions (fun _ => []) (fun v => v) Some 4
            [Deliver 0 error VUndefined; Tick 1000])
       (new_ResilientWebSocket (fun _ => []) 4 "ws://localhost" noOptions).



(** * Further properties of the class *)

(** ** Construction *)

(** Whether the caller's options make the constructor connect: the
    object has no [autoConnect] key, so that the default applies, or has
    it with the value true.  With the key present and its value false or
    [undefined], the spread has copied that value over the default. *)
Definition connects_at_construction (o : OptionsLiteral) : bool :=
  match own_autoConnect o with
  | None => true
  | Some (Some b) => b
  | Some None => false
  end.

(** X1: the constructor overlays the caller's options on the defaults,
    a key the caller's object has winning whatever its value.  When the
    object has no [autoConnect] key, or has it with the value true, the
    constructor calls the factory exactly once, with the url, emits
    [CONNECTING] (which no callback can hear: none can be registered
    before the instance exists), wires the four handlers on the
    transport and stores it as the current one.  When the key is there
    with the value false or [undefined], the constructor does nothing at
    all. *)
Theorem constructor_connects_once_unless_disabled
        (body : OnCallback -> list CallbackAction) (fuel : nat)
        (url : string) (o : OptionsLiteral) :
  autoConnect (spread defaultOptions o)
  = match own_autoConnect o with None => Some true | Some v => v end
  /\ new_ResilientWebSocket body fuel url o
     = if connects_at_construction o
       then mkWorld [] (Some 0) None None 0%N [] 0 1
                    [(0, open); (0, message); (0, close_ev); (0, error)]
                    [FactoryCall url 0; Emitted CONNECTING VThis]
       else empty_world.
Proof.
  split; [reflexivity|].
  unfold new_ResilientWebSocket, connects_at_construction, exec, constructor.
  destruct o as [aj ac ri pe pi po pim pom roe].
  destruct ac as [[[]|]|]; simpl; destruct fuel; reflexivity.
Qed.

(** ** The registry, seen through [registered] and [subscribers] *)

Lemma has_delete_same c s : JsSet.has c (JsSet.delete c s) = false.
Proof.
  induction s as [|[c'|] s IH]; simpl; auto.
  destruct (Nat.eqb c c') eqn:E; simpl; [exact IH|]. now rewrite E.
Qed.

Lemma has_delete_other c c' s :
  c' <> c -> JsSet.has c' (JsSet.delete c s) = JsSet.has c' s.
Proof.
  intro Hne. induction s as [|[x|] s IH]; simpl; auto.
  destruct (Nat.eqb c x) eqn:E; simpl; rewrite IH; [|reflexivity].
  apply Nat.eqb_eq in E. subst x.
  now apply Nat.eqb_neq in Hne as ->.
Qed.

Lemma has_add_other c c' s :
  c' <> c -> JsSet.has c' (JsSet.add c s) = JsSet.has c' s.
Proof.
  intro Hne. unfold JsSet.add. destruct (JsSet.has c s); [reflexivity|].
  rewrite JsFacts.has_app. simpl.
  apply Nat.eqb_neq in Hne as ->. now rewrite orb_false_r.
Qed.

Lemma values_delete c s :
  JsSet.values (JsSet.delete c s)
  = filter (fun x => negb (Nat.eqb c x)) (JsSet.values s).
Proof.
  induction s as [|[x|] s IH]; simpl; auto.
  destruct (Nat.eqb c x); simpl; now rewrite IH.
Qed.

Lemma registered_on_off e c w :
  registered e c (exec (on e c) w) = true
  /\ registered e c (exec (off e c) w) = false.
Proof.
  unfold registered, exec, on, off, modify. simpl. split.
  - destruct (JsMap.get e (callbacks w)); simpl;
      rewrite JsFacts.get_set_same; apply JsFacts.has_add.
  - destruct (JsMap.get e (callbacks w)) as [s|] eqn:Hget; simpl.
    + rewrite JsFacts.get_set_same. apply has_delete_same.
    + now rewrite Hget.
Qed.

(** X2: lookup after update.  A callback is registered for an event
    right after [on] and is not right after [off], whatever the registry
    was; neither operation changes whether any other (event, callback)
    pair is registered. *)
Theorem registration_is_set_and_cleared_pointwise
        (e e' : WebSocketEvent) (c c' : OnCallback) (w : World)
        (Hother : e' <> e \/ c' <> c) :
  registered e c (exec (on e c) w) = true
  /\ registered e c (exec (off e c) w) = false
  /\ registered e' c' (exec (on e c) w) = registered e' c' w
  /\ registered e' c' (exec (off e c) w) = registered e' c' w.
Proof.
  destruct (registered_on_off e c w) as [Hon Hoff].
  split; [exact Hon|]. split; [exact Hoff|].
  unfold registered, exec, on, off, modify. simpl.
  destruct (event_eqb e' e) eqn:E.
  - apply event_eqb_eq in E. subst e'.
    destruct Hother as [Hne|Hne]; [congruence|].
    destruct (JsMap.get e (callbacks w)) as [s|] eqn:Hget; simpl;
      rewrite ?JsFacts.get_set_same, ?Hget.
    + split; [now apply has_add_other|now apply has_delete_other].
    + split; [|reflexivity]. now rewrite has_add_other.
  - assert (e' <> e) as Hne by (intros ->; now rewrite event_eqb_refl in E).
    destruct (JsMap.get e (callbacks w)); simpl;
      rewrite ?JsFacts.get_set_other by exact Hne; split; reflexivity.
Qed.

Lemma registration_is_set_and_cleared_pointwise_witness :
  (MESSAGE <> CONNECTION \/ 1 <> 2)
  /\ registered CONNECTION 2 (exec (off CONNECTION 2) two_subscribers) = false
  /\ registered MESSAGE 1 (exec (on CONNECTION 2) two_subscribers) = false.
Proof.
  assert (MESSAGE <> CONNECTION \/ 1 <> 2) as H by (left; discriminate).
  split; [exact H|].
  destruct (registration_is_set_and_cleared_pointwise
              CONNECTION MESSAGE 2 1 two_subscribers H) as (_ & H2 & H3 & _).
  split; [exact H2|]. rewrite H3. reflexivity.
Defined.

Lemma subscribers_on_new e c w :
  registered e c w = false ->
  subscribers e (exec (on e c) w) = subscribers e w ++ [c].
Proof.
  unfold registered, subscribers, exec, on, modify. simpl.
  destruct (JsMap.get e (callbacks w)) as [s|]; simpl;
    rewrite JsFacts.get_set_same; [|reflexivity].
  intro H. unfold JsSet.add. rewrite H. now rewrite JsFacts.values_app.
Qed.

Lemma subscribers_off e x w :
  subscribers e (exec (off e x) w)
  = filter (fun y => negb (Nat.eqb x y)) (subscribers e w).
Proof.
  unfold subscribers, exec, off, modify. simpl.
  destruct (JsMap.get e (callbacks w)) as [s|] eqn:Hget; simpl.
  - rewrite JsFacts.get_set_same. apply values_delete.
  - now rewrite Hget.
Qed.

(** X3: registration order.  A callback that is not registered goes to
    the end of the event's subscribers; [off] takes a callback out and
    keeps the order of the others; so unregistering and registering
    again moves a callback to the end. *)
Theorem registration_order
        (e : WebSocketEvent) (c : OnCallback) (w : World)
        (Hnew : registered e c w = false) :
  subscribers e (exec (on e c) w) = subscribers e w ++ [c]
  /\ (forall x,
        subscribers e (exec (off e x) w)
        = filter (fun y => negb (Nat.eqb x y)) (subscribers e w))
  /\ (forall x,
        subscribers e (exec (off e x ;; on e x) w)
        = filter (fun y => negb (Nat.eqb x y)) (subscribers e w) ++ [x]).
Proof.
  split; [now apply subscribers_on_new|]. split; [intro x; apply subscribers_off|].
  intro x.
  change (exec (off e x ;; on e x) w) with (exec (on e x) (exec (off e x) w)).
  rewrite subscribers_on_new by apply registered_on_off.
  now rewrite subscribers_off.
Qed.

Lemma registration_order_witness :
  registered CONNECTION 3 two_subscribers = false
  /\ subscribers CONNECTION (exec (on CONNECTION 3) two_subscribers) = [1; 2; 3]
  /\ subscribers CONNECTION (exec (off CONNECTION 1 ;; on CONNECTION 1) two_subscribers)
     = [2; 1].
Proof.
  assert (registered CONNECTION 3 two_subscribers = false) as H by reflexivity.
  split; [exact H|].
  destruct (registration_order CONNECTION 3 two_subscribers H) as (H1 & _ & H3).
  split; [exact H1|exact (H3 1)].
Defined.

(** ** An emission that never ends *)

Lemma values_single c s :
  JsSet.values s = [c] ->
  exists j, nth_error s j = Some (Some c)
            /\ forall i, i <> j -> i < List.length s -> nth_error s i = Some None.
Proof.
  induction s as [|[x|] s IH]; simpl; [discriminate| |].
  - intros [= -> Hs]. exists 0. split; [reflexivity|].
    intros [|i] Hi Hlt; [congruence|]. simpl.
    clear IH Hi. revert i Hlt. induction s as [|[y|] s IH]; simpl in *;
      [lia|discriminate|].
    intros [|i] Hlt; [reflexivity|]. apply IH; [exact Hs|lia].
  - intro Hs. destruct (IH Hs) as (j & Hj & Hothers).
    exists (S j). split; [exact Hj|].
    intros [|i] Hi Hlt; [reflexivity|]. simpl. apply Hothers; lia.
Qed.

Lemma nth_error_delete c s i :
  nth_error (JsSet.delete c s) i
  = option_map (fun e => if JsSet.slot_is c e then None else e) (nth_error s i).
Proof. unfold JsSet.delete. apply nth_error_map. Qed.

Section Restless.

Variable body : OnCallback -> list CallbackAction.
Variable e : WebSocketEvent.
Variable c : OnCallback.
Variable data : Value.

(** The callback unregisters itself and registers itself again. *)
Hypothesis Hbody : body c = [DoOff e c; DoOn e c].

Lemma call_restless entries w :
  JsMap.get e (callbacks w) = Some entries ->
  exists w',
    call body e c data w = (w', Ok tt)
    /\ JsMap.get e (callbacks w') = Some (JsSet.delete c entries ++ [Some c]).
Proof.
  intro Hget. unfold call, bind, emit_effect, modify. rewrite Hbody. simpl.
  unfold bind, on, off, modify, ret. simpl. rewrite Hget. simpl.
  rewrite JsFacts.get_set_same. eexists. split; [reflexivity|]. simpl.
  rewrite JsFacts.get_set_same. unfold JsSet.add.
  now rewrite has_delete_same.
Qed.

Lemma forEach_restless n : forall index w entries j,
  JsMap.get e (callbacks w) = Some entries ->
  index <= j -> nth_error entries j = Some (Some c) ->
  (forall i, index <= i -> i <> j -> i < List.length entries ->
             nth_error entries i = Some None) ->
  snd (forEach body n e data index w) = Diverge.
Proof.
  induction n as [|n IH]; intros index w entries j Hget Hle Hj Hothers.
  - simpl. rewrite Hget.
    assert (index < List.length entries) as Hlt.
    { assert (j < List.length entries) by (apply nth_error_Some; congruence). lia. }
    apply nth_error_Some in Hlt. now destruct (nth_error entries index).
  - simpl. rewrite Hget.
    assert (j < List.length entries) as Hjlt by (apply nth_error_Some; congruence).
    destruct (Nat.eq_dec index j) as [-> | Hne].
    + rewrite Hj. unfold bind.
      destruct (call_restless entries w Hget) as (w' & -> & Hget').
      assert (List.length (JsSet.delete c entries) = List.length entries) as Hlen
          by apply length_map.
      apply (IH (S j) w' _ (List.length entries) Hget'); [lia| |].
      * rewrite nth_error_app2 by lia. rewrite Hlen, Nat.sub_diag. reflexivity.
      * intros i Hi Hne Hlt. rewrite length_app, Hlen in Hlt. simpl in Hlt.
        rewrite nth_error_app1 by lia.
        rewrite nth_error_delete, (Hothers i); [reflexivity|lia|lia|lia].
    + rewrite (Hothers index); [|lia|exact Hne|lia].
      apply (IH (S index) w entries j Hget); [lia|exact Hj|].
      intros i Hi. apply Hothers. lia.
Qed.

(** X4: [forEach] walks the live set, so an emission need not end: when
    the only subscriber of an event unregisters and registers itself
    again while it runs, it is appended behind the walk and met again,
    and the emission exhausts every iteration budget. *)
Theorem emission_to_a_self_reregistering_callback_never_ends
        (fuel : nat) (w : World)
        (Honly : subscribers e w = [c]) :
  outcome (respondToCallbacks body fuel e data) w = Diverge.
Proof.
  unfold outcome, respondToCallbacks, bind, emit_effect, modify.
  unfold subscribers in Honly.
  destruct (JsMap.get e (callbacks w)) as [entries|] eqn:Hget; [|discriminate].
  destruct (values_single c entries Honly) as (j & Hj & Hothers).
  pose proof (forEach_restless fuel 0 (with_log (log w ++ [Emitted e data]) w)
                entries j Hget (Nat.le_0_l j) Hj) as H.
  destruct (forEach body fuel e data 0 (with_log (log w ++ [Emitted e data]) w))
    as [w' r]. simpl in *. rewrite H; [reflexivity|].
  intros i _. apply Hothers.
Qed.

End Restless.

Lemma emission_to_a_self_reregistering_callback_never_ends_witness :
  let body (x : OnCallback) := [DoOff PONG x; DoOn PONG x] in
  let w := exec (on PONG 5) empty_world in
  subscribers PONG w = [5]
  /\ outcome (respondToCallbacks body 1000 PONG VThis) w = Diverge.
Proof.
  intros body w.
  assert (subscribers PONG w = [5]) as H by reflexivity.
  split; [exact H|].
  exact (emission_to_a_self_reregistering_callback_never_ends
           body PONG 5 VThis eq_refl 1000 w H).
Defined.

(** ** Inbound messages that are not the pong *)

(** X5: an inbound payload that does not take the keepalive path (pings
    are disabled, or it is not [===] the pong message) is delivered to
    the [MESSAGE] subscribers: as it is when [autoJsonify] is off, as
    [JSON.parse] decodes it when on.  A text that does not parse is
    delivered to nobody: the [SyntaxError] escapes the handler, which
    changes nothing, and the event loop reports it.  So with pings
    disabled even the pong text reaches the [MESSAGE] subscribers. *)
Theorem other_messages_are_delivered_decoded
        (options : ResilientWebSocketOptions)
        (body : OnCallback -> list CallbackAction)
        (JSON_parse : Value -> option Value) (fuel : nat)
        (s : SocketId) (data : Value) (w : World)
        (Hother : truthy (pingEnabled options) = false
                  \/ strict_eq data (value_of (pongMessage options)) = false)
        (Hlistening : listening s message w = true)
        (Htame : tame body fuel w) :
  onMessage options body JSON_parse fuel data w
  = match (if truthy (autoJsonify options) then JSON_parse data else Some data) with
    | Some msg => (with_log (log w ++ emission MESSAGE msg w) w, Ok tt)
    | None => (w, Throw SyntaxError)
    end
  /\ dispatch options body JSON_parse fuel s message data w
     = match (if truthy (autoJsonify options) then JSON_parse data else Some data) with
       | Some msg => (with_log (log w ++ emission MESSAGE msg w) w, Ok tt)
       | None => (with_log (log w ++ [Uncaught SyntaxError]) w, Ok tt)
       end.
Proof.
  assert (onMessage options body JSON_parse fuel data w
          = match (if truthy (autoJsonify options) then JSON_parse data else Some data) with
            | Some msg => (with_log (log w ++ emission MESSAGE msg w) w, Ok tt)
            | None => (w, Throw SyntaxError)
            end) as Heq.
  { unfold onMessage.
    assert (truthy (pingEnabled options)
            && strict_eq data (value_of (pongMessage options)) = false) as ->.
    { destruct Hother as [-> | ->]; [reflexivity|apply andb_false_r]. }
    unfold bind, ret, throw.
    destruct (truthy (autoJsonify options)); [destruct (JSON_parse data)|];
      try reflexivity; now apply respondToCallbacks_tame. }
  split; [exact Heq|].
  unfold dispatch. rewrite Hlistening. unfold task. simpl handler. rewrite Heq.
  destruct (if truthy (autoJsonify options) then JSON_parse data else Some data);
    reflexivity.
Qed.

Lemma other_messages_are_delivered_decoded_witness :
  let body (x : OnCallback) : list CallbackAction := [] in
  let w := exec (on MESSAGE 3)
             (new_ResilientWebSocket body 4 "ws://localhost" noOptions) in
  tame body 4 w
  /\ log (exec (dispatch defaultOptions body Some 4 0 message (VString "PONG")) w)
     = log w ++ [Emitted MESSAGE (VString "PONG"); Invoke MESSAGE 3 (VString "PONG")].
Proof.
  intros body w.
  assert (tame body 4 w) as Ht.
  { split; [intros e c _; reflexivity|intro e; destruct e; vm_compute; lia]. }
  split; [exact Ht|].
  pose proof (other_messages_are_delivered_decoded
                defaultOptions body Some 4 0 (VString "PONG") w
                (or_introl eq_refl) eq_refl Ht) as [_ H].
  unfold exec. rewrite H. reflexivity.
Defined.

(** ** Errors of the transport *)

(** X6: an error event is reported to the [ERROR] subscribers with the
    instance as argument.  With [reconnectOnError] false that is all:
    no timer is cancelled or scheduled, so the keepalive of the erring
    transport runs on and no reconnect follows.  With it true the close
    handler runs next with no event: the [CLOSE] subscribers are called
    with [undefined], the recorded keepalive timers are cancelled and a
    reconnect is scheduled. *)
Theorem error_is_reported_then_handled_as_close
        (options : ResilientWebSocketOptions)
        (body : OnCallback -> list CallbackAction) (fuel : nat) (w : World)
        (Htame : tame body fuel w) :
  onError options body fuel w
  = if truthy (reconnectOnError options)
    then (with_next_timer (S (next_timer w))
            (with_timers (cancel_opt (w_pongTimeout w)
                            (cancel_opt (w_pingTimeout w) (timers w))
                          ++ [next_reconnect options w])
               (with_log (log w ++ emission ERROR VThis w
                                ++ emission CLOSE VUndefined w) w)), Ok tt)
    else (with_log (log w ++ emission ERROR VThis w) w, Ok tt).
Proof.
  rewrite onError_tame by exact Htame.
  destruct (truthy (reconnectOnError options)); [|reflexivity].
  rewrite onClose_tame by (revert Htame; now apply tame_same_callbacks).
  destruct w. unfold emission, subscribers, next_reconnect. world_simpl.
  now rewrite <- app_assoc.
Qed.

Lemma error_is_reported_then_handled_as_close_witness :
  let body (x : OnCallback) : list CallbackAction := [] in
  let quiet_errors := mkOptions None None None None None None None None (Some false) in
  let w := exec (on CLOSE 3)
             (new_ResilientWebSocket body 4 "ws://localhost" quiet_errors) in
  tame body 4 w
  /\ exec (onError (spread defaultOptions quiet_errors) body 4) w
     = with_log (log w ++ [Emitted ERROR VThis]) w
  /\ timers (exec (onError defaultOptions body 4) w) = [mkTimer 0 1000 Reconnect]
  /\ invoked CLOSE (log (exec (onError defaultOptions body 4) w)) = [3].
Proof.
  intros body quiet_errors w.
  assert (tame body 4 w) as Ht.
  { split; [intros e c _; reflexivity|intro e; destruct e; vm_compute; lia]. }
  split; [exact Ht|].
  unfold exec.
  rewrite (error_is_reported_then_handled_as_close
             (spread defaultOptions quiet_errors) body 4 w Ht).
  rewrite (error_is_reported_then_handled_as_close defaultOptions body 4 w Ht).
  repeat split.
Defined.

(** ** [close()] at the edges *)

(** X7: [close()] on an instance that stores no transport cancels the
    recorded keepalive timers and then fails with the runtime's
    [TypeError] at the first listener removal: no listener is removed,
    no transport is closed and [CLOSE] is not emitted. *)
Theorem close_without_handle_raises_TypeError
        (body : OnCallback -> list CallbackAction) (fuel : nat) (w : World)
        (Hnone : socket w = None) :
  close body fuel w
  = (with_timers (cancel_opt (w_pingTimeout w)
                    (cancel_opt (w_pongTimeout w) (timers w))) w,
     Throw TypeError).
Proof.
  unfold close, bind, gets, clearInterval, this_socket.
  rewrite !clearTimeout_exec. world_simpl. rewrite Hnone.
  now destruct w.
Qed.

Lemma close_without_handle_raises_TypeError_witness :
  socket unconnected = None
  /\ close (fun _ => []) 4 unconnected = (unconnected, Throw TypeError).
Proof.
  split; [reflexivity|].
  exact (close_without_handle_raises_TypeError (fun _ => []) 4 unconnected eq_refl).
Defined.

(** X8: once [close()] has run, the closed transport reaches no handler
    any more: whatever event it delivers afterwards (its own close
    event, a late message, an error) leaves the instance as it is, so
    the close of that transport starts no reconnect. *)
Theorem closed_transport_is_ignored
        (options : ResilientWebSocketOptions)
        (body : OnCallback -> list CallbackAction)
        (JSON_parse : Value -> option Value) (fuel : nat)
        (s : SocketId) (k : SocketEventKind) (payload : Value) (w : World)
        (Hsocket : socket w = Some s) :
  dispatch options body JSON_parse fuel s k payload (exec (close body fuel) w)
  = (exec (close body fuel) w, Ok tt).
Proof.
  unfold dispatch, listening.
  rewrite (close_listeners body fuel s w Hsocket).
  now rewrite not_listening_unwired.
Qed.

Lemma closed_transport_is_ignored_witness :
  let body (x : OnCallback) : list CallbackAction := [] in
  let w := new_ResilientWebSocket body 4 "ws://localhost" noOptions in
  socket w = Some 0
  /\ dispatch defaultOptions body Some 4 0 close_ev VUndefined (exec (close body 4) w)
     = (exec (close body 4) w, Ok tt).
Proof.
  intros body w. split; [reflexivity|].
  exact (closed_transport_is_ignored defaultOptions body Some 4 0 close_ev
           VUndefined w eq_refl).
Defined.

(** ** A transport the caller connects by hand *)

Lemma kind_eqb_eq a b : kind_eqb a b = true <-> a = b.
Proof. destruct a, b; simpl; split; intro H; congruence. Qed.

Lemma listener_eqb_eq a b : listener_eqb a b = true <-> a = b.
Proof.
  destruct a as [s k], b as [s' k']. unfold listener_eqb. simpl.
  rewrite andb_true_iff, Nat.eqb_eq, kind_eqb_eq. split.
  - now intros [-> ->].
  - now intros [= -> ->].
Qed.

Lemma listening_add x s k ls :
  existsb (listener_eqb x) (add_listener s k ls)
  = existsb (listener_eqb x) ls || listener_eqb x (s, k).
Proof.
  unfold add_listener.
  destruct (existsb (listener_eqb (s, k)) ls) eqn:E.
  - destruct (listener_eqb x (s, k)) eqn:Ex; [|now rewrite orb_false_r].
    apply listener_eqb_eq in Ex. subst x. now rewrite E.
  - rewrite existsb_app. simpl. now rewrite orb_false_r.
Qed.

Lemma listening_wired x s ls :
  existsb (listener_eqb x) (wired s ls)
  = existsb (listener_eqb x) ls || Nat.eqb (fst x) s.
Proof.
  unfold wired. rewrite !listening_add. unfold listener_eqb. simpl.
  destruct (existsb _ ls); simpl; [reflexivity|].
  destruct (Nat.eqb (fst x) s); simpl; [|reflexivity].
  now destruct (snd x).
Qed.

(** X9: [connect()] called by the caller creates a transport and wires
    the four handlers on it, but does not store it: only the constructor
    and the reconnect timer assign the [socket] field.  On an instance
    built with [autoConnect] false the transport is therefore live and
    heard, while [send] and [close()] still fail with the [TypeError] of
    a missing handle. *)
Theorem caller_connect_wires_but_does_not_store
        (url : string) (options : ResilientWebSocketOptions)
        (body : OnCallback -> list CallbackAction)
        (JSON_stringify : Value -> Value) (fuel : nat)
        (data : Value) (w : World)
        (Hnone : socket w = None) (Htame : tame body fuel w) :
  let w' := exec (connect url body fuel) w in
  outcome (connect url body fuel) w = Ok (next_socket w)
  /\ log w' = log w ++ FactoryCall url (next_socket w) :: emission CONNECTING VThis w
  /\ (forall k, listening (next_socket w) k w' = true)
  /\ socket w' = None
  /\ outcome (send options JSON_stringify data) w' = Throw TypeError
  /\ outcome (close body fuel) w' = Throw TypeError.
Proof.
  intro w'. subst w'. unfold outcome, exec.
  rewrite (connect_tame url body fuel w Htame). simpl fst. simpl snd.
  split; [reflexivity|]. split; [reflexivity|]. split; [|split; [exact Hnone|]].
  - intro k. unfold listening, connected. world_simpl.
    rewrite listening_wired. simpl. rewrite Nat.eqb_refl. apply orb_true_r.
  - split.
    + unfold send, bind, this_socket. unfold connected. world_simpl.
      now rewrite Hnone.
    + unfold close, bind, gets, clearInterval, this_socket.
      rewrite !clearTimeout_exec. unfold connected. world_simpl.
      now rewrite Hnone.
Qed.

Lemma caller_connect_wires_but_does_not_store_witness :
  let w := exec (connect "ws://localhost" (fun _ => []) 4) unconnected in
  socket unconnected = None
  /\ tame (fun _ => []) 4 unconnected
  /\ listening 0 open w = true
  /\ outcome (send defaultOptions (fun v => v) (VString "hello")) w = Throw TypeError.
Proof.
  intro w.
  assert (tame (fun _ => []) 4 unconnected) as Ht.
  { split; [intros e c []|intro e; vm_compute; lia]. }
  split; [reflexivity|]. split; [exact Ht|].
  pose proof (caller_connect_wires_but_does_not_store
                "ws://localhost" defaultOptions (fun _ => []) (fun v => v) 4
                (VString "hello") unconnected eq_refl Ht) as (_ & _ & H3 & _ & H5 & _).
  split; [exact (H3 open)|exact H5].
Defined.

(** X10: when the ping timer fires on an instance that stores no
    transport (the state a caller's [connect()] leaves once its
    transport has opened), the keepalive dies silently: [send] raises
    the [TypeError], which escapes the timer, no payload is sent, no
    pong timer is armed and no further timer is pending. *)
Theorem ping_without_handle_ends_the_keepalive
        (url : string) (options : ResilientWebSocketOptions)
        (body : OnCallback -> list CallbackAction)
        (JSON_stringify : Value -> Value) (fuel : nat)
        (p : TimerId) (d ms : N) (w : World)
        (Hnone : socket w = None)
        (Hping : timers w = [mkTimer p d PingFire])
        (Hdue : (d <= now w + ms)%N)
        (Hfuel : 1 <= fuel) :
  tick url options body JSON_stringify fuel ms w
  = (with_now (now w + ms)
       (with_timers [] (with_log (log w ++ [Uncaught TypeError]) w)), Ok tt).
Proof.
  unfold tick.
  rewrite (run_timers_single url options body JSON_stringify fuel fuel
             (now w + ms) w (mkTimer p d PingFire) Hping Hdue Hfuel).
  unfold bind. simpl fire.
  assert (pingFired options JSON_stringify
            (with_now (due (mkTimer p d PingFire)) (with_timers [] w))
          = (with_now d (with_timers [] w), Throw TypeError)) as Hfired.
  { unfold pingFired, send, bind, this_socket. world_simpl. now rewrite Hnone. }
  rewrite (task_throw _ _ _ _ Hfired).
  rewrite run_timers_idle by (intros t []).
  now destruct w.
Qed.

Lemma ping_without_handle_ends_the_keepalive_witness :
  let options := spread defaultOptions
                   (mkOptions None (Some false) None (Some true) (Some 50%N)
                              (Some 50%N) None None None) in
  let w := exec (connect "ws://localhost" (fun _ => []) 4 ;;
                 dispatch options (fun _ => []) Some 4 0 open VUndefined) unconnected in
  socket w = None
  /\ timers w = [mkTimer 0 50 PingFire]
  /\ log (exec (tick "ws://localhost" options (fun _ => []) (fun v => v) 4 60) w)
     = log w ++ [Uncaught TypeError].
Proof.
  intros options w.
  assert (50 <= now w + 60)%N as Hdue by (vm_compute; discriminate).
  assert (1 <= 4) as Hf by lia.
  split; [reflexivity|]. split; [reflexivity|].
  unfold exec at 1.
  rewrite (ping_without_handle_ends_the_keepalive
             "ws://localhost" options (fun _ => []) (fun v => v) 4
             0 50%N 60%N w eq_refl eq_refl Hdue Hf).
  reflexivity.
Defined.

(** ** The transport closes: one reconnect, to a new current transport *)

Lemma In_cancel_opt h ts x :
  In x (cancel_opt h ts) -> In x ts /\ h <> Some (tid x).
Proof.
  destruct h as [id|]; simpl.
  - unfold cancel. intro H. apply filter_In in H as [H Hne]. split; [exact H|].
    intros [= ->]. now rewrite Nat.eqb_refl in Hne.
  - intro H. split; [exact H|discriminate].
Qed.

(** Every pending timer is a keepalive timer the instance records. *)
Definition only_recorded_timers (w : World) : Prop :=
  forall t, In t (timers w) ->
            w_pingTimeout w = Some (tid t) \/ w_pongTimeout w = Some (tid t).

Lemma recorded_timers_cancelled w :
  only_recorded_timers w ->
  cancel_opt (w_pongTimeout w) (cancel_opt (w_pingTimeout w) (timers w)) = [].
Proof.
  intro H.
  destruct (cancel_opt (w_pongTimeout w) (cancel_opt (w_pingTimeout w) (timers w)))
    as [|x rest] eqn:E; [reflexivity|exfalso].
  assert (In x (cancel_opt (w_pongTimeout w)
                  (cancel_opt (w_pingTimeout w) (timers w)))) as Hx
      by (rewrite E; now left).
  apply In_cancel_opt in Hx as [Hx Hpo]. apply In_cancel_opt in Hx as [Hx Hpi].
  destruct (H x Hx); contradiction.
Qed.

Section TransportCloses.

Variable url : string.
Variable options : ResilientWebSocketOptions.
Variable body : OnCallback -> list CallbackAction.
Variable JSON_stringify : Value -> Value.
Variable JSON_parse : Value -> option Value.
Variable fuel : nat.

Abbreviation tick_ := (tick url options body JSON_stringify fuel).
Abbreviation dispatch_ := (dispatch options body JSON_parse fuel).

(** The reconnect delay as the clock takes it. *)
Abbreviation wait := (timer_delay false (delay (reconnectInterval options))).

Hypothesis Hfuel : 1 <= fuel.

Variable s : SocketId.
Variable event : Value.
Variable w : World.
Hypothesis Hlistening : listening s close_ev w = true.
Hypothesis Hrecorded : only_recorded_timers w.
Hypothesis Htame : tame body fuel w.

(** The world after the close event: the reconnect is the one timer left. *)
Definition closed_by_transport : World :=
  with_next_timer (S (next_timer w))
    (with_timers [next_reconnect options w]
       (with_log (log w ++ emission CLOSE event w) w)).

Lemma transport_close_event :
  dispatch_ s close_ev event w = (closed_by_transport, Ok tt).
Proof.
  rewrite dispatch_listening by exact Hlistening.
  apply task_ok. simpl handler. rewrite onClose_tame by exact Htame.
  now rewrite (recorded_timers_cancelled w Hrecorded).
Qed.

(** The world once the clock has advanced by [ms], past the reconnect
    delay. *)
Definition reconnected (ms : N) : World :=
  with_now (now w + ms)
    (with_socket (Some (next_socket w))
       (with_listeners (wired (next_socket w) (listeners w))
          (with_log (log closed_by_transport
                       ++ FactoryCall url (next_socket w)
                          :: emission CONNECTING VThis w)
             (with_next_socket (S (next_socket w))
                (with_timers [] closed_by_transport))))).

Lemma tick_before_reconnect ms :
  (ms < wait)%N ->
  tick_ ms closed_by_transport = (with_now (now w + ms) closed_by_transport, Ok tt).
Proof.
  intro Hms. unfold tick. rewrite run_timers_idle; [reflexivity|].
  simpl. intros t [<-|[]]. simpl. lia.
Qed.

Lemma tick_to_reconnect ms :
  (wait <= ms)%N ->
  tick_ ms closed_by_transport = (reconnected ms, Ok tt).
Proof.
  intro Hms. unfold tick.
  rewrite (run_timers_single url options body JSON_stringify fuel fuel _ _
             (next_reconnect options w)); [|reflexivity|simpl; lia|exact Hfuel].
  unfold bind. simpl fire.
  erewrite task_ok;
    [|apply reconnectFired_tame; revert Htame; now apply tame_same_callbacks].
  rewrite run_timers_idle by (intros t []).
  unfold reconnected, connected, closed_by_transport, emission, subscribers.
  now destruct w.
Qed.

Lemma closed_by_transport_log (q : Effect -> bool) :
  (forall e c x, q (Invoke e c x) = false) -> q (Emitted CLOSE event) = false ->
  filter q (log closed_by_transport) = filter q (log w).
Proof.
  intros Hq He. unfold closed_by_transport, emission. simpl.
  rewrite filter_app. simpl. rewrite He.
  rewrite (filter_invocations q (map _ _)); [now rewrite app_nil_r|exact Hq|].
  apply Forall_forall. intros x Hx. apply in_map_iff in Hx as (c & <- & _). eauto.
Qed.

(** X11: a close event of the transport (not an explicit [close()])
    is passed to the [CLOSE] subscribers, cancels the recorded keepalive
    timers and leaves one reconnect pending.  The clock takes the
    reconnect interval as asked up to [TIMEOUT_MAX] and as 1 above it.
    Until the delay so taken has fully passed nothing at all happens,
    in particular no ping is sent to the closed transport; when it has
    passed the factory is called exactly once more, and nothing is left
    pending. *)
Theorem transport_close_reconnects_once_after_the_delay :
  let w1 := exec (dispatch_ s close_ev event) w in
  let w2 := exec (tick_ wait) w1 in
  outcome (dispatch_ s close_ev event) w = Ok tt
  /\ log w1 = log w ++ emission CLOSE event w
  /\ timers w1 = [mkTimer (next_timer w) (now w + wait) Reconnect]
  /\ ((delay (reconnectInterval options) <= TIMEOUT_MAX)%N ->
      wait = delay (reconnectInterval options))
  /\ ((TIMEOUT_MAX < delay (reconnectInterval options))%N -> wait = 1%N)
  /\ (forall ms, (ms < wait)%N ->
                 tick_ ms w1 = (with_now (now w + ms) w1, Ok tt))
  /\ outcome (tick_ wait) w1 = Ok tt
  /\ factory_calls (log w2) = factory_calls (log w) + 1
  /\ sends (log w2) = sends (log w)
  /\ timers w2 = [].
Proof.
  unfold exec, outcome. rewrite transport_close_event. simpl fst. simpl snd.
  rewrite tick_to_reconnect by apply N.le_refl. simpl fst. simpl snd.
  split; [reflexivity|]. split; [reflexivity|]. split; [reflexivity|].
  split; [apply timer_delay_as_asked|]. split; [apply timer_delay_overflow|].
  split; [exact tick_before_reconnect|]. split; [reflexivity|].
  split; [|split; [|reflexivity]].
  - unfold reconnected. world_simpl. rewrite factory_calls_app.
    change (factory_calls (FactoryCall url (next_socket w) :: ?l))
      with (S (factory_calls l)).
    rewrite factory_calls_emission. unfold factory_calls.
    rewrite closed_by_transport_log by reflexivity. lia.
  - unfold reconnected, sends. world_simpl. rewrite filter_app. simpl.
    unfold emission. simpl.
    rewrite (filter_invocations is_send (map _ _)); [|reflexivity|].
    + rewrite app_nil_r. now apply closed_by_transport_log.
    + apply Forall_forall. intros x Hx.
      apply in_map_iff in Hx as (c & <- & _). eauto.
Qed.

(** X12: the transport the reconnect creates becomes the current one:
    it carries the four handlers and a later [send] goes to it.  The
    transport it replaces is not unwired: every handler that was
    attached before is still attached, so a late event of a superseded
    transport still reaches the instance. *)
Theorem reconnect_replaces_the_current_transport :
  let w2 := exec (dispatch_ s close_ev event ;;
                  tick_ (delay (reconnectInterval options))) w in
  socket w2 = Some (next_socket w)
  /\ (forall k, listening (next_socket w) k w2 = true)
  /\ (forall s' k', listening s' k' w = true -> listening s' k' w2 = true)
  /\ (forall data,
        send options JSON_stringify data w2
        = (with_log (log w2 ++ [SocketSend (next_socket w)
                                  (encoded options JSON_stringify data)]) w2, Ok tt)).
Proof.
  unfold exec, bind.
  rewrite transport_close_event, tick_to_reconnect by apply timer_delay_le.
  simpl fst.
  split; [reflexivity|]. split; [|split].
  - intro k. unfold listening, reconnected. world_simpl.
    rewrite listening_wired. simpl. rewrite Nat.eqb_refl. apply orb_true_r.
  - intros s' k'. unfold listening, reconnected. world_simpl.
    rewrite listening_wired. now intros ->.
  - intro data. reflexivity.
Qed.

End TransportCloses.

Lemma transport_close_reconnects_once_after_the_delay_witness :
  let options := spread defaultOptions ping_options in
  let w := exec (dispatch options (fun _ => []) Some 4 0 open VUndefined)
                (new_ResilientWebSocket (fun _ => []) 4 "ws://localhost" ping_options) in
  let w1 := exec (dispatch options (fun _ => []) Some 4 0 close_ev VUndefined) w in
  timers w = [mkTimer 0 50 PingFire]
  /\ only_recorded_timers w
  /\ timers w1 = [mkTimer 1 1000 Reconnect]
  /\ factory_calls
       (log (exec (tick "ws://localhost" options (fun _ => []) (fun v => v) 4 1000) w1))
     = 2.
Proof.
  intros options w w1.
  assert (timers w = [mkTimer 0 50 PingFire]) as Htimers by (vm_compute; reflexivity).
  assert (only_recorded_timers w) as Hr.
  { intros t Ht. rewrite Htimers in Ht. destruct Ht as [<-|[]].
    left. vm_compute. reflexivity. }
  assert (tame (fun _ => []) 4 w) as Ht.
  { split; [intros e c Hc; vm_compute in Hc; destruct Hc|intro e; vm_compute; lia]. }
  assert (1 <= 4) as Hf by lia.
  assert (listening 0 close_ev w = true) as Hl by (vm_compute; reflexivity).
  pose proof (transport_close_reconnects_once_after_the_delay
                "ws://localhost" options (fun _ => []) (fun v => v) Some 4 Hf
                0 VUndefined w Hl Hr Ht) as (_ & _ & H3 & _ & _ & _ & _ & H6 & _).
  split; [exact Htimers|]. split; [exact Hr|]. split.
  - etransitivity; [exact H3|]. vm_compute. reflexivity.
  - etransitivity; [exact H6|]. vm_compute. reflexivity.
Defined.

Lemma reconnect_replaces_the_current_transport_witness :
  let w := new_ResilientWebSocket (fun _ => []) 4 "ws://localhost" noOptions in
  let w2 := exec (dispatch defaultOptions (fun _ => []) Some 4 0 close_ev VUndefined ;;
                  tick "ws://localhost" defaultOptions (fun _ => []) (fun v => v) 4 1000) w in
  only_recorded_timers w
  /\ socket w2 = Some 1
  /\ listening 0 close_ev w2 = true
  /\ listening 1 close_ev w2 = true.
Proof.
  intros w w2.
  assert (only_recorded_timers w) as Hr by (intros t []).
  assert (tame (fun _ => []) 4 w) as Ht.
  { split; [intros e c []|intro e; vm_compute; lia]. }
  assert (1 <= 4) as Hf by lia.
  assert (listening 0 close_ev w = true) as Hl by (vm_compute; reflexivity).
  pose proof (reconnect_replaces_the_current_transport
                "ws://localhost" defaultOptions (fun _ => []) (fun v => v) Some 4 Hf
                0 VUndefined w Hl Hr Ht) as (H1 & H2 & H3 & _).
  split; [exact Hr|]. split; [exact H1|].
  split; [exact (H3 0 close_ev Hl)|exact (H2 close_ev)].
Defined.

(** ** The timing of a keepalive round, for any interval and timeout *)

Section KeepaliveTiming.

Variable url : string.
Variable options : ResilientWebSocketOptions.
Variable body : OnCallback -> list CallbackAction.
Variable JSON_stringify : Value -> Value.
Variable JSON_parse : Value -> option Value.
Variable fuel : nat.

Abbreviation tick_ := (tick url options body JSON_stringify fuel).
Abbreviation dispatch_ := (dispatch options body JSON_parse fuel).

(** The ping interval and the pong timeout as the clock takes them: the
    ping timer is set by a handler, the pong timer by the ping timer's
    callback. *)
Abbreviation interval := (timer_delay false (delay (pingInterval options))).
Abbreviation timeout := (timer_delay true (delay (pongTimeout options))).

Hypothesis Henabled : truthy (pingEnabled options) = true.
Hypothesis Hfuel : 1 <= fuel.

Variable s : SocketId.
Variable w : World.
Hypothesis Hsocket : socket w = Some s.
Hypothesis Hlistening : listening s open w = true.
Hypothesis Hidle : timers w = [].
Hypothesis Htame : tame body fuel w.

(** The worlds after the open event, after the ping and after the pong
    timeout. *)
Definition round_opened : World :=
  with_pingTimeout (Some (next_timer w))
    (with_next_timer (S (next_timer w))
       (with_timers [next_ping options w]
          (with_log (log w ++ ConsoleInfo "onOpen" :: emission CONNECTION VThis w) w))).

Definition round_pinged : World :=
  with_now (now w + interval)
    (with_pongTimeout (Some (S (next_timer w)))
       (with_next_timer (S (S (next_timer w)))
          (with_timers [mkTimer (S (next_timer w)) (now w + interval + timeout) PongFire]
             (with_log (log round_opened
                          ++ [SocketSend s (encoded options JSON_stringify
                                              (value_of (pingMessage options)))])
                       round_opened)))).

Definition round_timed_out : World :=
  with_now (now w + interval + timeout)
    (with_timers [] (with_log (log round_pinged ++ [SocketClose s]) round_pinged)).

Lemma round_open_event : dispatch_ s open VUndefined w = (round_opened, Ok tt).
Proof.
  rewrite dispatch_listening by exact Hlistening.
  apply task_ok. simpl handler. rewrite onOpen_tame by assumption.
  unfold round_opened. now rewrite Hidle.
Qed.

Lemma round_waits ms :
  (ms < interval)%N ->
  tick_ ms round_opened = (with_now (now w + ms) round_opened, Ok tt).
Proof.
  intro Hms. unfold tick. rewrite run_timers_idle; [reflexivity|].
  simpl. intros t [<-|[]]. simpl. lia.
Qed.

Lemma round_pings : tick_ interval round_opened = (round_pinged, Ok tt).
Proof.
  pose proof (timer_delay_positive (delay (pongTimeout options))) as Hpos.
  unfold tick.
  rewrite (run_timers_single url options body JSON_stringify fuel fuel _ _
             (next_ping options w)); [|reflexivity|simpl; lia|exact Hfuel].
  unfold bind. simpl fire.
  erewrite task_ok; [|apply pingFired_exec; exact Hsocket].
  rewrite run_timers_idle; [reflexivity|].
  simpl. intros t [<-|[]]. simpl. lia.
Qed.

Lemma round_awaits ms :
  (ms < timeout)%N ->
  tick_ ms round_pinged = (with_now (now w + interval + ms) round_pinged, Ok tt).
Proof.
  intro Hms. unfold tick. rewrite run_timers_idle; [reflexivity|].
  simpl. intros t [<-|[]]. simpl. lia.
Qed.

Lemma round_times_out : tick_ timeout round_pinged = (round_timed_out, Ok tt).
Proof.
  unfold tick.
  rewrite (run_timers_single url options body JSON_stringify fuel fuel _ _
             (mkTimer (S (next_timer w)) (now w + interval + timeout) PongFire));
    [|reflexivity|simpl; lia|exact Hfuel].
  unfold bind. simpl fire.
  erewrite task_ok; [|apply pongTimedOut_exec; exact Hsocket].
  rewrite run_timers_idle by (intros t []).
  reflexivity.
Qed.

Lemma round_rests ms :
  tick_ ms round_timed_out
  = (with_now (now w + interval + timeout + ms) round_timed_out, Ok tt).
Proof.
  unfold tick. rewrite run_timers_idle by (intros t []). reflexivity.
Qed.

(** X13: the timing of the keepalive, for any ping interval and any
    pong timeout, on a connection with no timer pending.  The clock
    takes a ping interval up to [TIMEOUT_MAX] as asked, and a pong
    timeout from 1 to [TIMEOUT_MAX] as asked; it takes either as 1 above
    [TIMEOUT_MAX], and a pong timeout of 0 as 1.  After the open event
    nothing happens until the ping interval so taken has fully passed;
    then exactly one ping goes to the current transport.  If no pong
    arrives, nothing happens until the pong timeout so taken has fully
    passed; then the transport's [close] is called once, with no [CLOSE]
    emitted and no reconnect scheduled: from then on the instance does
    nothing by itself however far the clock advances, and waits for the
    transport to report its close. *)
Theorem keepalive_round_timing :
  let w1 := exec (dispatch_ s open VUndefined) w in
  let w2 := exec (tick_ interval) w1 in
  let w3 := exec (tick_ timeout) w2 in
  (((delay (pingInterval options) <= TIMEOUT_MAX)%N ->
    interval = delay (pingInterval options))
   /\ ((TIMEOUT_MAX < delay (pingInterval options))%N -> interval = 1%N)
   /\ ((1 <= delay (pongTimeout options) <= TIMEOUT_MAX)%N ->
       timeout = delay (pongTimeout options))
   /\ ((TIMEOUT_MAX < delay (pongTimeout options))%N
       \/ delay (pongTimeout options) = 0%N -> timeout = 1%N))
  /\ (forall ms, (ms < interval)%N -> tick_ ms w1 = (with_now (now w + ms) w1, Ok tt))
  /\ log w2 = log w1 ++ [SocketSend s (encoded options JSON_stringify
                                         (value_of (pingMessage options)))]
  /\ (forall ms, (ms < timeout)%N ->
                 tick_ ms w2 = (with_now (now w + interval + ms) w2, Ok tt))
  /\ log w3 = log w2 ++ [SocketClose s]
  /\ timers w3 = []
  /\ (forall ms, tick_ ms w3 = (with_now (now w + interval + timeout + ms) w3, Ok tt)).
Proof.
  unfold exec. rewrite round_open_event. simpl fst.
  rewrite round_pings. simpl fst. rewrite round_times_out. simpl fst.
  split.
  { split; [apply timer_delay_as_asked|]. split; [apply timer_delay_overflow|].
    split; [apply timer_delay_in_range|].
    intros [H | ->]; [now apply timer_delay_overflow|reflexivity]. }
  split; [exact round_waits|]. split; [reflexivity|].
  split; [exact round_awaits|]. split; [reflexivity|].
  split; [reflexivity|exact round_rests].
Qed.

End KeepaliveTiming.

Lemma keepalive_round_timing_witness :
  let w := new_ResilientWebSocket (fun _ => []) 1 "ws://localhost"
             (mkOptions None None None (Some true) None None None None None) in
  let options := spread defaultOptions
                   (mkOptions None None None (Some true) None None None None None) in
  let w1 := exec (dispatch options (fun _ => []) Some 1 0 open VUndefined) w in
  tame (fun _ => []) 1 w
  /\ tick "ws://localhost" options (fun _ => []) (fun v => v) 1 9999 w1
     = (with_now 9999 w1, Ok tt)
  /\ log (exec (tick "ws://localhost" options (fun _ => []) (fun v => v) 1 10000) w1)
     = log w1 ++ [SocketSend 0 (VString "PING")].
Proof.
  intros w options w1.
  assert (tame (fun _ => []) 1 w) as Ht.
  { split; [intros e c []|intro e; vm_compute; lia]. }
  pose proof (keepalive_round_timing
                "ws://localhost" options (fun _ => []) (fun v => v) Some 1
                eq_refl (le_n 1) 0 w eq_refl eq_refl eq_refl Ht)
    as (_ & H1 & H2 & _).
  split; [exact Ht|]. split; [|exact H2].
  apply (H1 9999%N). vm_compute. reflexivity.
Defined.

(** ** What the instance never does by itself

    A discipline on effects and timers: [ok] says which effects may be
    appended to the log, [allowed] which timers may be pending.  A world
    is disciplined when the effects of its log that are not [ok] are
    exactly [L] (so none is added while the discipline is kept) and
    every pending timer is [allowed]. *)

Definition disciplined (ok : Effect -> bool) (allowed : TimerAction -> bool)
           (L : list Effect) (w : World) : Prop :=
  filter (fun x => negb (ok x)) (log w) = L
  /\ forall t, In t (timers w) -> allowed (action t) = true.

Section Discipline.

Variable ok : Effect -> bool.
Variable allowed : TimerAction -> bool.
Variable L : list Effect.

Variable url : string.
Variable options : ResilientWebSocketOptions.
Variable body : OnCallback -> list CallbackAction.
Variable JSON_stringify : Value -> Value.
Variable JSON_parse : Value -> option Value.
Variable fuel : nat.

Abbreviation P := (disciplined ok allowed L).

(** The event bus, the console and the reports of escaped exceptions are
    always permitted; the other effects and the timers depend on each
    other as the code produces them. *)
Hypothesis Hemitted : forall e d, ok (Emitted e d) = true.
Hypothesis Hinvoke : forall e c d, ok (Invoke e c d) = true.
Hypothesis Hconsole : forall m, ok (ConsoleInfo m) = true.
Hypothesis Huncaught : forall e, ok (Uncaught e) = true.
Hypothesis Hkeepalive : truthy (pingEnabled options) = true -> allowed PingFire = true.
Hypothesis Hpingfire :
  allowed PingFire = true ->
  allowed PongFire = true /\ forall s v, ok (SocketSend s v) = true.
Hypothesis Hpongfire : allowed PongFire = true -> forall s, ok (SocketClose s) = true.
Hypothesis Hreconnect : allowed Reconnect = true -> forall s, ok (FactoryCall url s) = true.

Lemma disciplined_log l w : forallb ok l = true -> P w -> P (with_log (log w ++ l) w).
Proof.
  intros Hl [Hlog Ht]. split; [|exact Ht]. simpl.
  rewrite filter_app, Hlog.
  replace (filter (fun x => negb (ok x)) l) with (@nil Effect);
    [apply app_nil_r|].
  clear -Hl. induction l as [|x l IH]; simpl in *; [reflexivity|].
  apply andb_true_iff in Hl as [-> Hl]. simpl. now apply IH.
Qed.

Lemma preserves_effect x : ok x = true -> preserves P (emit_effect x).
Proof.
  intros Hx w Hw. apply (disciplined_log [x]); [|exact Hw]. simpl.
  now rewrite Hx.
Qed.

Lemma preserves_env (f : World -> World) :
  (forall w, log (f w) = log w) -> (forall w, timers (f w) = timers w) ->
  preserves P (modify f).
Proof.
  intros Hl Ht w [H1 H2]. unfold modify. simpl. split.
  - now rewrite Hl.
  - now rewrite Ht.
Qed.

Lemma preserves_cancel h : preserves P (clearTimeout h).
Proof.
  destruct h as [id|]; [|now apply preserves_pure].
  intros w [H1 H2]. split; [exact H1|].
  simpl. intros t Ht. apply filter_In in Ht as [Ht _]. auto.
Qed.

Lemma preserves_schedule b a ms :
  allowed a = true -> preserves P (setTimeout b a ms).
Proof.
  intros Ha w [H1 H2]. split; [exact H1|].
  simpl. intros t Ht. apply in_app_or in Ht as [Ht | [<- | []]]; auto.
Qed.

Lemma preserves_listen s k : preserves P (addEventListener s k).
Proof.
  intros w Hw. unfold addEventListener, modify. simpl.
  destruct (listening s k w); [exact Hw|]. destruct Hw. now split.
Qed.

Lemma preserves_unlisten s k : preserves P (removeEventListener s k).
Proof. now apply preserves_env. Qed.

Lemma preserves_registry_on e c : preserves P (on e c).
Proof.
  intros w [H1 H2]. unfold on, modify. simpl.
  destruct (JsMap.get e (callbacks w)); now split.
Qed.

Lemma preserves_registry_off e c : preserves P (off e c).
Proof.
  intros w [H1 H2]. unfold off, modify. simpl.
  destruct (JsMap.get e (callbacks w)); now split.
Qed.

Lemma preserves_emission e d : preserves P (respondToCallbacks body fuel e d).
Proof.
  intros w Hw.
  destruct (respondToCallbacks_frame body fuel e d w) as (m & l & r & -> & Hl & _).
  simpl.
  assert (P (with_log (log w ++ Emitted e d :: l) w)) as [H1 H2].
  { apply disciplined_log; [|exact Hw]. simpl. rewrite Hemitted. simpl.
    apply forallb_forall. intros x Hx.
    rewrite Forall_forall in Hl. destruct (Hl x Hx) as [c ->]. apply Hinvoke. }
  now split.
Qed.

Ltac kept :=
  first [ apply preserves_emission
        | apply preserves_this_socket
        | apply preserves_cancel
        | apply preserves_listen
        | apply preserves_unlisten
        | apply preserves_effect; solve [auto]
        | apply preserves_schedule; solve [auto]
        | apply preserves_env; intro; reflexivity
        | apply preserves_pure; intro; reflexivity
        | apply preserves_bind; [kept | intro; kept] ].

Lemma kept_wsFactory :
  (forall s, ok (FactoryCall url s) = true) -> preserves P (wsFactory url).
Proof.
  intros Hf w [H1 H2]. unfold wsFactory. simpl.
  apply (disciplined_log [FactoryCall url (next_socket w)]
           (with_next_socket (S (next_socket w)) w)).
  - simpl. now rewrite Hf.
  - now split.
Qed.

Lemma kept_connect :
  (forall s, ok (FactoryCall url s) = true) -> preserves P (connect url body fuel).
Proof.
  intro Hf. unfold connect.
  apply preserves_bind; [now apply kept_wsFactory|intro]. kept.
Qed.

Lemma kept_send d :
  (forall s v, ok (SocketSend s v) = true) ->
  preserves P (send options JSON_stringify d).
Proof. intro Hs. unfold send, socket_send. kept. Qed.

Lemma kept_close :
  (forall s, ok (SocketClose s) = true) -> preserves P (close body fuel).
Proof. intro Hc. unfold close, clearInterval, socket_close. kept. Qed.

Lemma kept_sendPing : allowed PingFire = true -> preserves P (sendPing options).
Proof. intro Ha. unfold sendPing. kept. Qed.

Lemma kept_pingFired :
  allowed PingFire = true -> preserves P (pingFired options JSON_stringify).
Proof.
  intro Ha. destruct (Hpingfire Ha) as [Hpong Hs]. unfold pingFired.
  apply preserves_bind; [now apply kept_send|intro]. kept.
Qed.

Lemma kept_pongTimedOut : allowed PongFire = true -> preserves P pongTimedOut.
Proof.
  intro Ha. pose proof (Hpongfire Ha) as Hc. unfold pongTimedOut, socket_close. kept.
Qed.

Lemma kept_pongReceived :
  truthy (pingEnabled options) = true -> preserves P (pongReceived options body fuel).
Proof.
  intro He. unfold pongReceived.
  apply preserves_bind; [kept|intro].
  apply preserves_bind; [kept|intro]. apply kept_sendPing. auto.
Qed.

Lemma kept_onOpen : preserves P (onOpen options body fuel).
Proof.
  unfold onOpen.
  apply preserves_bind; [kept|intro]. apply preserves_bind; [kept|intro].
  destruct (Bool.bool_dec (truthy (pingEnabled options)) true) as [E|E].
  - rewrite E. apply kept_sendPing. auto.
  - apply not_true_is_false in E. rewrite E. kept.
Qed.

Lemma kept_onMessage d : preserves P (onMessage options body JSON_parse fuel d).
Proof.
  unfold onMessage.
  destruct (Bool.bool_dec (truthy (pingEnabled options)) true) as [E|E].
  - rewrite E. simpl.
    destruct (strict_eq d (value_of (pongMessage options)));
      [now apply kept_pongReceived|].
    apply preserves_bind; [|intro; kept].
    destruct (truthy (autoJsonify options)); [destruct (JSON_parse d)|]; kept.
  - apply not_true_is_false in E. rewrite E. simpl.
    apply preserves_bind; [|intro; kept].
    destruct (truthy (autoJsonify options)); [destruct (JSON_parse d)|]; kept.
Qed.

Lemma kept_onClose ev :
  allowed Reconnect = true -> preserves P (onClose options body fuel ev).
Proof. intro Ha. unfold onClose, clearInterval. kept. Qed.

Lemma kept_onError :
  (truthy (reconnectOnError options) = true -> allowed Reconnect = true) ->
  preserves P (onError options body fuel).
Proof.
  intro Ha. unfold onError. apply preserves_bind; [kept|intro].
  destruct (Bool.bool_dec (truthy (reconnectOnError options)) true) as [E|E].
  - rewrite E. apply kept_onClose. auto.
  - apply not_true_is_false in E. rewrite E. kept.
Qed.

Lemma kept_reconnectFired :
  allowed Reconnect = true -> preserves P (reconnectFired url body fuel).
Proof.
  intro Ha. unfold reconnectFired.
  apply preserves_bind; [apply kept_connect; auto|intro]. kept.
Qed.

Lemma kept_task (c : M unit) : preserves P c -> preserves P (task c).
Proof.
  intros Hc w Hw. unfold task. specialize (Hc w Hw).
  destruct (c w) as [w' [a|e|]]; simpl in *; auto.
  now apply preserves_effect.
Qed.

Lemma kept_fire a :
  allowed a = true -> preserves P (fire url options body JSON_stringify fuel a).
Proof.
  intro Ha. destruct a; simpl;
    [now apply kept_pingFired|now apply kept_pongTimedOut|now apply kept_reconnectFired].
Qed.

(** What an event of a transport needs to be permitted: its close
    schedules a reconnect, and so does its error when [reconnectOnError]
    is on. *)
Definition event_ok (k : SocketEventKind) : Prop :=
  match k with
  | close_ev => allowed Reconnect = true
  | error => truthy (reconnectOnError options) = true -> allowed Reconnect = true
  | _ => True
  end.

(** What an input needs to be permitted. *)
Definition input_ok (i : Input) : Prop :=
  match i with
  | CallConnect => forall s, ok (FactoryCall url s) = true
  | CallSend _ => forall s v, ok (SocketSend s v) = true
  | CallClose => forall s, ok (SocketClose s) = true
  | Deliver _ k _ => event_ok k
  | _ => True
  end.

Lemma kept_dispatch s k payload :
  event_ok k -> preserves P (dispatch options body JSON_parse fuel s k payload).
Proof.
  intros Hk w Hw. unfold dispatch.
  destruct (listening s k w); [|exact Hw].
  apply kept_task; [|exact Hw].
  destruct k; simpl in *;
    [apply kept_onOpen|apply kept_onMessage|now apply kept_onClose|
      now apply kept_onError].
Qed.

Lemma kept_run_timers n : forall target,
  preserves P (run_timers url options body JSON_stringify fuel n target).
Proof.
  induction n as [|n IH]; intros target w Hw; simpl.
  - destruct (first_due target (timers w)); [exact Hw|]. destruct Hw. now split.
  - destruct (first_due target (timers w)) as [t|] eqn:Hdue;
      [|destruct Hw; now split].
    assert (allowed (action t) = true) as Ha
        by (apply (proj2 Hw); eapply first_due_In; eauto).
    set (w0 := with_now (due t) (with_timers (cancel (tid t) (timers w)) w)).
    assert (P w0) as Hw0.
    { destruct Hw as [H1 H2]. split; [exact H1|].
      simpl. intros x Hx. apply filter_In in Hx as [Hx _]. auto. }
    pose proof (kept_task _ (kept_fire (action t) Ha) w0 Hw0) as Hfired.
    unfold bind.
    destruct (task (fire url options body JSON_stringify fuel (action t)) w0)
      as [w' [[]|e|]]; simpl in *; [|exact Hfired|exact Hfired].
    now apply IH.
Qed.

Lemma kept_step i :
  input_ok i -> preserves P (step url options body JSON_stringify JSON_parse fuel i).
Proof.
  intro Hi. destruct i; simpl in *.
  - apply kept_task. apply preserves_bind; [now apply kept_connect|intro; kept].
  - apply kept_task. now apply kept_send.
  - apply kept_task. now apply kept_close.
  - apply preserves_registry_on.
  - apply preserves_registry_off.
  - now apply kept_dispatch.
  - intros w Hw. unfold tick. now apply kept_run_timers.
Qed.

Lemma kept_run inputs :
  (forall i, In i inputs -> input_ok i) ->
  preserves P (run url options body JSON_stringify JSON_parse fuel inputs).
Proof.
  induction inputs as [|i rest IH]; intros Hin w Hw; simpl; [exact Hw|].
  assert (P (fst (step url options body JSON_stringify JSON_parse fuel i w)))
    as Hstep by (apply kept_step; [apply Hin; now left|exact Hw]).
  unfold bind.
  destruct (step url options body JSON_stringify JSON_parse fuel i w)
    as [w' [[]|e|]]; simpl in *; [|exact Hstep|exact Hstep].
  apply IH; [|exact Hstep]. intros i' Hi'. apply Hin. now right.
Qed.

End Discipline.

Lemma filter_within {A} (p q : A -> bool) (l : list A) :
  (forall x, p x = true -> q x = true) -> filter p (filter q l) = filter p l.
Proof.
  intro H. induction l as [|x l IH]; simpl; [reflexivity|].
  destruct (q x) eqn:Eq; simpl; [now rewrite IH|].
  destruct (p x) eqn:Ep; [|exact IH].
  apply H in Ep. congruence.
Qed.

(** The caller neither sends nor closes. *)
Definition caller_is_silent (i : Input) : Prop :=
  match i with
  | CallSend _ | CallClose => False
  | _ => True
  end.

(** X14: with [pingEnabled] false the instance never uses a transport of
    its own accord.  From a world with no keepalive timer pending,
    whatever events the transports deliver (opens, messages, pong texts
    included, closes, errors), however often it reconnects and however
    far the clock advances, nothing is sent through a transport and no
    transport's [close] is called, unless the caller calls [send] or
    [close()]. *)
Theorem without_pings_no_transport_is_used_unasked
        (url : string) (options : ResilientWebSocketOptions)
        (body : OnCallback -> list CallbackAction)
        (JSON_stringify : Value -> Value) (JSON_parse : Value -> option Value)
        (fuel : nat) (inputs : list Input) (w : World)
        (Hoff : truthy (pingEnabled options) = false)
        (Hpending : forall t, In t (timers w) -> action t = Reconnect)
        (Hsilent : forall i, In i inputs -> caller_is_silent i) :
  let w' := exec (run url options body JSON_stringify JSON_parse fuel inputs) w in
  sends (log w') = sends (log w)
  /\ socket_closes (log w') = socket_closes (log w).
Proof.
  intro w'. subst w'.
  set (ok := fun x => negb (is_send x || is_socket_close x)).
  set (allowed := fun a => match a with Reconnect => true | _ => false end).
  assert (disciplined ok allowed (filter (fun x => negb (ok x)) (log w))
            (exec (run url options body JSON_stringify JSON_parse fuel inputs) w))
    as [Hlog _].
  { apply (kept_run ok allowed _ url options body JSON_stringify JSON_parse fuel);
      try (intros; reflexivity); try (subst allowed; simpl; congruence).
    - intros i Hi. specialize (Hsilent i Hi).
      destruct i; simpl in *; try exact I; try contradiction; try reflexivity.
      destruct k; simpl; auto.
    - split; [reflexivity|]. intros t Ht. subst allowed. simpl.
      now rewrite (Hpending t Ht). }
  unfold sends, socket_closes. split.
  - rewrite <- (filter_within is_send (fun x => negb (ok x)) (log (exec _ w))),
            <- (filter_within is_send (fun x => negb (ok x)) (log w)).
    + now rewrite Hlog.
    + intros x Hx. subst ok. simpl. now rewrite Hx.
    + intros x Hx. subst ok. simpl. now rewrite Hx.
  - rewrite <- (filter_within is_socket_close (fun x => negb (ok x)) (log (exec _ w))),
            <- (filter_within is_socket_close (fun x => negb (ok x)) (log w)).
    + now rewrite Hlog.
    + intros x Hx. subst ok. simpl. rewrite Hx. now rewrite orb_true_r.
    + intros x Hx. subst ok. simpl. rewrite Hx. now rewrite orb_true_r.
Qed.

Lemma without_pings_no_transport_is_used_unasked_witness :
  let body (c : OnCallback) : list CallbackAction := [] in
  let w := new_ResilientWebSocket body 4 "ws://localhost" noOptions in
  let inputs := [Deliver 0 open VUndefined; Deliver 0 message (VString "PONG");
                 Deliver 0 error VUndefined; Tick 20000] in
  sends (log (exec (run "ws://localhost" defaultOptions body (fun v => v) Some 4 inputs) w))
  = [].
Proof.
  intros body w inputs.
  assert (forall t, In t (timers w) -> action t = Reconnect) as Hp by (intros t []).
  assert (forall i, In i inputs -> caller_is_silent i) as Hs.
  { intros i [<-|[<-|[<-|[<-|[]]]]]; exact I. }
  exact (proj1 (without_pings_no_transport_is_used_unasked
                  "ws://localhost" defaultOptions body (fun v => v) Some 4
                  inputs w eq_refl Hp Hs)).
Defined.

(** The inputs that give the instance no cause to create a transport:
    no [connect()] of the caller, no close event of a transport, and no
    error event while [reconnectOnError] is on. *)
Definition gives_no_cause (options : ResilientWebSocketOptions) (i : Input) : Prop :=
  match i with
  | CallConnect => False
  | Deliver _ close_ev _ => False
  | Deliver _ error _ => truthy (reconnectOnError options) = false
  | _ => True
  end.

(** X15: the factory is called for a cause only.  From a world with no
    reconnect pending, as long as no transport reports its close (nor,
    with [reconnectOnError] on, an error) and the caller does not call
    [connect()], no transport is ever created: not by opens, messages or
    pongs, not by the pong timeout closing a silent transport, not by
    [send] or [close()], not by the passing of time. *)
Theorem no_transport_is_created_without_cause
        (url : string) (options : ResilientWebSocketOptions)
        (body : OnCallback -> list CallbackAction)
        (JSON_stringify : Value -> Value) (JSON_parse : Value -> option Value)
        (fuel : nat) (inputs : list Input) (w : World)
        (Hpending : no_reconnect_pending w)
        (Hcause : forall i, In i inputs -> gives_no_cause options i) :
  factory_calls (log (exec (run url options body JSON_stringify JSON_parse fuel inputs) w))
  = factory_calls (log w).
Proof.
  set (ok := fun x => negb (is_factory_call x)).
  set (allowed := fun a => match a with Reconnect => false | _ => true end).
  assert (disciplined ok allowed (filter (fun x => negb (ok x)) (log w))
            (exec (run url options body JSON_stringify JSON_parse fuel inputs) w))
    as [Hlog _].
  { apply (kept_run ok allowed _ url options body JSON_stringify JSON_parse fuel);
      try (intros; reflexivity); try (subst allowed; simpl; congruence).
    - subst allowed ok. simpl. intros _. split; [reflexivity|]. reflexivity.
    - intros i Hi. specialize (Hcause i Hi).
      destruct i; simpl in *; try exact I; try contradiction; try reflexivity.
      destruct k; simpl in *; try exact I; try contradiction.
      intro Hroe. congruence.
    - split; [reflexivity|]. intros t Ht. subst allowed. simpl.
      specialize (Hpending t Ht). now destruct (action t). }
  unfold factory_calls.
  rewrite (filter_ext is_factory_call (fun x => negb (ok x))).
  - rewrite Hlog. f_equal. apply filter_ext.
    intro x. subst ok. simpl. now rewrite negb_involutive.
  - intro x. subst ok. simpl. now rewrite negb_involutive.
Qed.

Lemma no_transport_is_created_without_cause_witness :
  let body (c : OnCallback) : list CallbackAction := [] in
  let w := new_ResilientWebSocket body 4 "ws://localhost" ping_options in
  let options := spread defaultOptions ping_options in
  let inputs := [Deliver 0 open VUndefined; Tick 200; CallSend (VString "x");
                 CallClose; Tick 5000] in
  no_reconnect_pending w
  /\ factory_calls
       (log (exec (run "ws://localhost" options body (fun v => v) Some 4 inputs) w)) = 1.
Proof.
  intros body w options inputs.
  assert (no_reconnect_pending w) as Hp by (intros t []).
  assert (forall i, In i inputs -> gives_no_cause options i) as Hc.
  { intros i [<-|[<-|[<-|[<-|[<-|[]]]]]]; exact I. }
  split; [exact Hp|].
  exact (no_transport_is_created_without_cause
           "ws://localhost" options body (fun v => v) Some 4 inputs w Hp Hc).
Defined.

(** ** The keepalive is a loop *)

Section KeepaliveLoop.

Variable url : string.
Variable options : ResilientWebSocketOptions.
Variable body : OnCallback -> list CallbackAction.
Variable JSON_stringify : Value -> Value.
Variable JSON_parse : Value -> option Value.
Variable fuel : nat.

Abbreviation run_ := (run url options body JSON_stringify JSON_parse fuel).

(** The ping interval and the pong timeout as the clock takes them. *)
Abbreviation interval := (timer_delay false (delay (pingInterval options))).
Abbreviation timeout := (timer_delay true (delay (pongTimeout options))).

Hypothesis Henabled : truthy (pingEnabled options) = true.
Hypothesis Hfuel : 1 <= fuel.

Variable s : SocketId.
Variable pong : Value.
Hypothesis Hpong : strict_eq pong (value_of (pongMessage options)) = true.

(** A ping has just gone to the current transport [s]: its pong timer,
    recorded by the instance, is the one timer pending. *)
Definition just_pinged (w : World) : Prop :=
  exists p, timers w = [mkTimer p (now w + timeout) PongFire]
            /\ w_pongTimeout w = Some p
            /\ socket w = Some s
            /\ listening s message w = true
            /\ tame body fuel w.

(** One answered round: the pong arrives [d] after the ping, and the
    clock then advances by the ping interval. *)
Definition answered_round (d : N) : list Input :=
  [Tick d; Deliver s message pong; Tick interval].

Lemma answered_round_keeps_the_loop d w :
  just_pinged w -> (d < timeout)%N ->
  exists w',
    run_ (answered_round d) w = (w', Ok tt)
    /\ just_pinged w'
    /\ sends (log w')
       = sends (log w)
         ++ [SocketSend s (encoded options JSON_stringify (value_of (pingMessage options)))]
    /\ socket_closes (log w') = socket_closes (log w)
    /\ emitted PONG (log w') = emitted PONG (log w) ++ [VThis].
Proof.
  intros (p & Htimers & Hrec & Hsock & Hlisten & Htame) Hd.
  unfold answered_round. simpl. unfold bind.
  assert (tick url options body JSON_stringify fuel d w
          = (with_now (now w + d) w, Ok tt)) as ->.
  { unfold tick. apply run_timers_idle. rewrite Htimers.
    intros t [<-|[]]. simpl. lia. }
  set (w0 := with_now (now w + d) w).
  assert (timers w0 = [mkTimer p (now w + timeout) PongFire]) as Htimers0
      by exact Htimers.
  assert (w_pongTimeout w0 = Some p) as Hrec0 by exact Hrec.
  assert (socket w0 = Some s) as Hsock0 by exact Hsock.
  assert (listening s message w0 = true) as Hlisten0 by exact Hlisten.
  assert (tame body fuel w0) as Htame0
      by (revert Htame; now apply tame_same_callbacks).
  assert (log w0 = log w) as Hlog0 by reflexivity.
  clearbody w0.
  rewrite (pong_event options body JSON_parse fuel Henabled s pong w0 p
             (now w + timeout) Hpong Hlisten0 Hrec0 Htimers0 Htame0).
  rewrite (tick_to_next_ping url options body JSON_stringify fuel Hfuel
             s w0 Hsock0).
  pose proof (ponged_log options w0) as Hfilter. rewrite Hlog0 in Hfilter.
  eexists. split; [reflexivity|]. split; [|split; [|split]].
  - exists (S (next_timer w0)).
    split; [reflexivity|]. split; [reflexivity|]. split; [exact Hsock0|].
    split; [exact Hlisten0|]. revert Htame0. now apply tame_same_callbacks.
  - unfold sends.
    change (log (with_now ?n (with_pongTimeout ?a (with_next_timer ?b
              (with_timers ?c (with_log ?l ?x)))))) with l.
    rewrite filter_app. simpl. now rewrite Hfilter by reflexivity.
  - unfold socket_closes.
    change (log (with_now ?n (with_pongTimeout ?a (with_next_timer ?b
              (with_timers ?c (with_log ?l ?x)))))) with l.
    rewrite filter_app. simpl. rewrite app_nil_r. now rewrite Hfilter by reflexivity.
  - change (log (with_now ?n (with_pongTimeout ?a (with_next_timer ?b
              (with_timers ?c (with_log ?l ?x)))))) with l.
    rewrite emitted_app. simpl. rewrite app_nil_r.
    change (log (ponged options w0)) with (log w0 ++ emission PONG VThis w0).
    rewrite Hlog0, emitted_app. unfold emission. simpl.
    rewrite (emitted_invocations PONG (map _ _)); [reflexivity|].
    apply Forall_forall. intros x Hx. apply in_map_iff in Hx as (c & <- & _). eauto.
Qed.

(** X16: the keepalive is a loop, not a single shot.  The ping interval
    and the pong timeout count as the clock takes them: as asked from 1
    to [TIMEOUT_MAX], as 1 above it, and when 0 the interval as 0 and
    the timeout as 1.  Starting right after a ping, with one round in
    flight: as long as every ping is answered before its timeout, every
    round emits one [PONG] and sends one further ping a full interval
    after the pong, the keepalive never calls the transport's [close],
    and the instance is again waiting for a pong, for any number of
    rounds. *)
Theorem answered_keepalive_runs_forever
        (delays : list N) (w : World)
        (Hstart : just_pinged w)
        (Hintime : forall d, In d delays -> (d < timeout)%N) :
  let rounds := flat_map answered_round delays in
  let w' := exec (run_ rounds) w in
  (((delay (pingInterval options) <= TIMEOUT_MAX)%N ->
    interval = delay (pingInterval options))
   /\ ((TIMEOUT_MAX < delay (pingInterval options))%N -> interval = 1%N)
   /\ ((1 <= delay (pongTimeout options) <= TIMEOUT_MAX)%N ->
       timeout = delay (pongTimeout options))
   /\ ((TIMEOUT_MAX < delay (pongTimeout options))%N
       \/ delay (pongTimeout options) = 0%N -> timeout = 1%N))
  /\ outcome (run_ rounds) w = Ok tt
  /\ just_pinged w'
  /\ List.length (sends (log w')) = List.length (sends (log w)) + List.length delays
  /\ List.length (emitted PONG (log w'))
     = List.length (emitted PONG (log w)) + List.length delays
  /\ socket_closes (log w') = socket_closes (log w).
Proof.
  intros rounds w'. subst rounds w'.
  split.
  { split; [apply timer_delay_as_asked|]. split; [apply timer_delay_overflow|].
    split; [apply timer_delay_in_range|].
    intros [H | ->]; [now apply timer_delay_overflow|reflexivity]. }
  revert w Hstart. induction delays as [|d delays IH]; intros w Hstart.
  - simpl. unfold outcome, exec. simpl.
    repeat split; try exact Hstart; lia.
  - destruct (answered_round_keeps_the_loop d w Hstart)
      as (w1 & Hrun & Hnext & Hs & Hc & Hp); [apply Hintime; now left|].
    destruct (IH (fun x Hx => Hintime x (or_intror Hx)) w1 Hnext)
      as (Hout & Hloop & Hs' & Hp' & Hc').
    assert (run_ (flat_map answered_round (d :: delays)) w
            = run_ (flat_map answered_round delays) w1) as Heq.
    { unfold answered_round in *. simpl in *. unfold bind in *.
      destruct (tick url options body JSON_stringify fuel d w) as [wa [[]|ea|]];
        try discriminate.
      destruct (dispatch options body JSON_parse fuel s message pong wa)
        as [wb [[]|eb|]]; try discriminate.
      destruct (tick url options body JSON_stringify fuel interval wb)
        as [wc [[]|ec|]]; try discriminate.
      unfold ret in Hrun. now inversion Hrun. }
    cbv zeta in *. unfold outcome, exec in *. rewrite Heq.
    split; [exact Hout|]. split; [exact Hloop|].
    rewrite Hs', Hp', Hc', Hs, Hp, Hc, !length_app. simpl.
    repeat split; lia.
Qed.

End KeepaliveLoop.

Lemma answered_keepalive_runs_forever_witness :
  let options := spread defaultOptions ping_options in
  let w := exec (run "ws://localhost" options (fun _ => []) (fun v => v) Some 4
                     [Deliver 0 open VUndefined; Tick 50])
                (new_ResilientWebSocket (fun _ => []) 4 "ws://localhost" ping_options) in
  let rounds := flat_map (answered_round options 0 (VString "PONG")) [10; 0; 49]%N in
  just_pinged options (fun _ => []) 4 0 w
  /\ socket_closes
       (log (exec (run "ws://localhost" options (fun _ => []) (fun v => v) Some 4 rounds) w))
     = socket_closes (log w).
Proof.
  intros options w rounds.
  assert (just_pinged options (fun _ => []) 4 0 w) as Hj.
  { exists 1. split; [vm_compute; reflexivity|]. split; [vm_compute; reflexivity|].
    split; [vm_compute; reflexivity|]. split; [vm_compute; reflexivity|].
    split; [intros e c Hc; vm_compute in Hc; destruct Hc|intro e; vm_compute; lia]. }
  assert (forall d, In d [10; 0; 49]%N ->
                    (d < timer_delay true (delay (pongTimeout options)))%N) as Hd.
  { intros d [<-|[<-|[<-|[]]]]; vm_compute; reflexivity. }
  assert (truthy (pingEnabled options) = true) as He by (vm_compute; reflexivity).
  assert (strict_eq (VString "PONG") (value_of (pongMessage options)) = true) as Hp
      by (vm_compute; reflexivity).
  split; [exact Hj|].
  exact (proj2 (proj2 (proj2 (proj2 (proj2
           (answered_keepalive_runs_forever
              "ws://localhost" options (fun _ => []) (fun v => v) Some 4
              He (le_S _ _ (le_S _ _ (le_S _ _ (le_n 1)))) 0 (VString "PONG") Hp
              [10; 0; 49]%N w Hj Hd)))))).
Defined.

(** ** The registry across the life of an instance *)

Section RegistryOnly.

(** A property of the registry alone that emissions keep. *)
Variable Q : JsMap.t -> Prop.

Variable url : string.
Variable options : ResilientWebSocketOptions.
Variable body : OnCallback -> list CallbackAction.
Variable JSON_stringify : Value -> Value.
Variable JSON_parse : Value -> option Value.
Variable fuel : nat.

Abbreviation P := (fun w : World => Q (callbacks w)).

Hypothesis Hemission : forall e d, preserves P (respondToCallbacks body fuel e d).

Lemma untouched {A} (c : M A) :
  (forall w, callbacks (fst (c w)) = callbacks w) -> preserves P c.
Proof. intros H w Hw. simpl. now rewrite H. Qed.

Lemma untouched_clearTimeout h w : callbacks (fst (clearTimeout h w)) = callbacks w.
Proof. now destruct h. Qed.

Lemma untouched_addEventListener s k w :
  callbacks (fst (addEventListener s k w)) = callbacks w.
Proof. unfold addEventListener, modify. simpl. now destruct (listening s k w). Qed.

Lemma untouched_this_socket w : callbacks (fst (this_socket w)) = callbacks w.
Proof. unfold this_socket. now destruct (socket w). Qed.

Ltac spared :=
  first [ apply Hemission
        | apply untouched; intro; apply untouched_clearTimeout
        | apply untouched; intro; apply untouched_addEventListener
        | apply untouched; intro; apply untouched_this_socket
        | apply untouched; intro; reflexivity
        | apply preserves_bind; [spared | intro; spared] ].

Lemma spared_connect : preserves P (connect url body fuel).
Proof. unfold connect. spared. Qed.

Lemma spared_send d : preserves P (send options JSON_stringify d).
Proof. unfold send, socket_send. spared. Qed.

Lemma spared_close : preserves P (close body fuel).
Proof. unfold close, clearInterval, socket_close. spared. Qed.

Lemma spared_fire a : preserves P (fire url options body JSON_stringify fuel a).
Proof.
  destruct a; simpl.
  - unfold pingFired. apply preserves_bind; [apply spared_send|intro; spared].
  - unfold pongTimedOut, socket_close. spared.
  - unfold reconnectFired. apply preserves_bind; [apply spared_connect|intro; spared].
Qed.

Lemma spared_onClose ev : preserves P (onClose options body fuel ev).
Proof. unfold onClose, clearInterval. spared. Qed.

Lemma spared_handler k payload :
  preserves P (handler options body JSON_parse fuel k payload).
Proof.
  destruct k; simpl.
  - unfold onOpen, sendPing. apply preserves_bind; [spared|intro].
    apply preserves_bind; [spared|intro].
    destruct (truthy (pingEnabled options)); spared.
  - unfold onMessage, pongReceived, sendPing.
    destruct (truthy (pingEnabled options)
              && strict_eq payload (value_of (pongMessage options))); [spared|].
    apply preserves_bind; [|intro; spared].
    destruct (truthy (autoJsonify options)); [destruct (JSON_parse payload)|]; spared.
  - apply spared_onClose.
  - unfold onError. apply preserves_bind; [spared|intro].
    destruct (truthy (reconnectOnError options)); [apply spared_onClose|spared].
Qed.

Lemma spared_task (c : M unit) : preserves P c -> preserves P (task c).
Proof.
  intros Hc w Hw. unfold task. specialize (Hc w Hw).
  destruct (c w) as [w' [a|e|]]; simpl in *; auto.
Qed.

Lemma spared_run_timers n : forall target,
  preserves P (run_timers url options body JSON_stringify fuel n target).
Proof.
  induction n as [|n IH]; intros target w Hw; simpl.
  - now destruct (first_due target (timers w)).
  - destruct (first_due target (timers w)) as [t|]; [|exact Hw].
    set (w0 := with_now (due t) (with_timers (cancel (tid t) (timers w)) w)).
    pose proof (spared_task _ (spared_fire (action t)) w0 Hw) as Hfired.
    unfold bind.
    destruct (task (fire url options body JSON_stringify fuel (action t)) w0)
      as [w' [[]|e|]]; simpl in *; [|exact Hfired|exact Hfired].
    now apply IH.
Qed.

(** The caller's [on] and [off] are the inputs that must keep [Q]
    themselves. *)
Definition registry_input_ok (i : Input) : Prop :=
  match i with
  | CallOn e c => preserves P (on e c)
  | CallOff e c => preserves P (off e c)
  | _ => True
  end.

Lemma spared_step i :
  registry_input_ok i ->
  preserves P (step url options body JSON_stringify JSON_parse fuel i).
Proof.
  intro Hi. destruct i; simpl in *; try exact Hi.
  - apply spared_task. apply preserves_bind; [apply spared_connect|intro; spared].
  - apply spared_task, spared_send.
  - apply spared_task, spared_close.
  - intros w Hw. unfold dispatch. destruct (listening s k w); [|exact Hw].
    apply spared_task; [apply spared_handler|exact Hw].
  - intros w Hw. unfold tick. now apply spared_run_timers.
Qed.

Lemma spared_run inputs :
  (forall i, In i inputs -> registry_input_ok i) ->
  preserves P (run url options body JSON_stringify JSON_parse fuel inputs).
Proof.
  induction inputs as [|i rest IH]; intros Hin w Hw; simpl; [exact Hw|].
  assert (P (fst (step url options body JSON_stringify JSON_parse fuel i w)))
    as Hstep by (apply spared_step; [apply Hin; now left|exact Hw]).
  unfold bind.
  destruct (step url options body JSON_stringify JSON_parse fuel i w)
    as [w' [[]|e|]]; simpl in *; [|exact Hstep|exact Hstep].
  apply IH; [|exact Hstep]. intros i' Hi'. apply Hin. now right.
Qed.

End RegistryOnly.

Lemma registry_ok_perform_all acts : forall w,
  registry_ok w -> registry_ok (fst (perform_all acts w)).
Proof.
  induction acts as [|a acts IH]; intros w Hw; simpl; [exact Hw|].
  unfold bind.
  assert (registry_ok (fst (perform a w))) as Ha.
  { destruct a; simpl; [now apply registry_ok_on|now apply registry_ok_off]. }
  destruct (perform a w) as [w' [[]|e|]] eqn:E; simpl in *;
    [now apply IH|exact Ha|exact Ha].
Qed.

Lemma registry_ok_forEach body n e data : forall index w,
  registry_ok w -> registry_ok (fst (forEach body n e data index w)).
Proof.
  induction n as [|n IH]; intros index w Hw; simpl.
  - destruct (JsMap.get e (callbacks w)) as [entries|]; [|exact Hw].
    now destruct (nth_error entries index).
  - destruct (JsMap.get e (callbacks w)) as [entries|]; [|exact Hw].
    destruct (nth_error entries index) as [[c|]|]; [|now apply IH|exact Hw].
    unfold bind.
    assert (registry_ok (fst (call body e c data w))) as Hc.
    { unfold call, bind, emit_effect, modify. simpl.
      pose proof (registry_ok_perform_all (body c)
                    (with_log (log w ++ [Invoke e c data]) w) Hw) as H.
      now destruct (perform_all (body c) (with_log (log w ++ [Invoke e c data]) w))
        as [w' [[]|err|]]. }
    destruct (call body e c data w) as [w' [[]|err|]]; simpl in *;
      [now apply IH|exact Hc|exact Hc].
Qed.

Lemma registry_ok_emission body fuel e d :
  preserves (fun w => registry_ok w) (respondToCallbacks body fuel e d).
Proof.
  intros w Hw. unfold respondToCallbacks, bind, emit_effect, modify. simpl.
  now apply registry_ok_forEach.
Qed.

(** X17: the registry keeps set semantics for the whole life of an
    instance.  Whatever the callbacks register or unregister while they
    run, whatever the caller, the transports and the clock do, no
    callback is ever held twice for an event in a world reached from a
    registry with that property, such as that of a fresh instance. *)
Theorem registry_never_holds_a_callback_twice
        (url : string) (options : ResilientWebSocketOptions)
        (body : OnCallback -> list CallbackAction)
        (JSON_stringify : Value -> Value) (JSON_parse : Value -> option Value)
        (fuel : nat) (inputs : list Input) (w : World)
        (Hok : registry_ok w) :
  registry_ok (exec (run url options body JSON_stringify JSON_parse fuel inputs) w)
  /\ forall user,
       registry_ok
         (exec (run url (spread defaultOptions user) body JSON_stringify JSON_parse
                    fuel inputs)
               (new_ResilientWebSocket body fuel url user)).
Proof.
  assert (forall o w0, registry_ok w0 ->
            registry_ok (exec (run url o body JSON_stringify JSON_parse fuel inputs) w0))
    as Hrun.
  { intros o w0 Hw0.
    pose proof (spared_run (fun m => forall e s, JsMap.get e m = Some s ->
                                                NoDup (JsSet.values s))
                  url o body JSON_stringify JSON_parse fuel
                  (registry_ok_emission body fuel) inputs) as H.
    unfold preserves in H. unfold exec. refine (H _ w0 Hw0).
    intros i _. destruct i; simpl; try exact I.
    - intros w1 Hw1. now apply registry_ok_on.
    - intros w1 Hw1. now apply registry_ok_off. }
  split; [now apply Hrun|].
  intro user. apply Hrun.
  unfold new_ResilientWebSocket, exec.
  assert (preserves (fun w0 => registry_ok w0)
            (constructor url (spread defaultOptions user) body fuel)) as Hc.
  { unfold constructor.
    destruct (truthy (autoConnect (spread defaultOptions user))).
    - apply preserves_bind.
      + apply (spared_connect (fun m => forall e s, JsMap.get e m = Some s ->
                                                 NoDup (JsSet.values s))
                 url body fuel (registry_ok_emission body fuel)).
      + intro. intros w0 Hw0. exact Hw0.
    - intros w0 Hw0. exact Hw0. }
  apply Hc. exact registry_ok_empty.
Qed.

Lemma registry_never_holds_a_callback_twice_witness :
  let inputs := [CallOn CONNECTION 2; Deliver 0 open VUndefined; CallOn CONNECTION 3;
                 CallOff CONNECTION 1; CallOn CONNECTION 1] in
  registry_ok two_subscribers
  /\ registry_ok
       (exec (run "ws://localhost" defaultOptions meddling_body (fun v => v) Some 8 inputs)
             two_subscribers).
Proof.
  intro inputs.
  assert (registry_ok two_subscribers) as Hok.
  { apply registry_ok_on, registry_ok_on, registry_ok_empty. }
  split; [exact Hok|].
  exact (proj1 (registry_never_holds_a_callback_twice
                  "ws://localhost" defaultOptions meddling_body (fun v => v) Some 8
                  inputs two_subscribers Hok)).
Defined.

(** The caller leaves the registry alone. *)
Definition leaves_registry (i : Input) : Prop :=
  match i with
  | CallOn _ _ | CallOff _ _ => False
  | _ => True
  end.

(** X18: the registry belongs to the instance, not to a transport.  With
    callbacks that do not themselves register or unregister, nothing but
    the caller's [on] and [off] changes it: it is the same after any
    number of opens, messages, closes, errors, reconnects, sends and
    explicit closes, so subscribers stay subscribed across
    reconnections. *)
Theorem registry_survives_everything_but_on_and_off
        (url : string) (options : ResilientWebSocketOptions)
        (body : OnCallback -> list CallbackAction)
        (JSON_stringify : Value -> Value) (JSON_parse : Value -> option Value)
        (fuel : nat) (inputs : list Input) (w : World)
        (Htame : tame body fuel w)
        (Hinputs : forall i, In i inputs -> leaves_registry i) :
  callbacks (exec (run url options body JSON_stringify JSON_parse fuel inputs) w)
  = callbacks w.
Proof.
  pose proof (spared_run (fun m => m = callbacks w)
                url options body JSON_stringify JSON_parse fuel) as H.
  unfold preserves in H. unfold exec. refine (H _ inputs _ w eq_refl).
  - intros e d w1 Hw1.
    rewrite respondToCallbacks_tame; [exact Hw1|].
    revert Htame. now apply tame_same_callbacks.
  - intros i Hi. specialize (Hinputs i Hi). destruct i; simpl in *;
      try exact I; contradiction.
Qed.

Lemma registry_survives_everything_but_on_and_off_witness :
  let body (c : OnCallback) : list CallbackAction := [] in
  let w := exec (on MESSAGE 3)
             (new_ResilientWebSocket body 4 "ws://localhost" noOptions) in
  let inputs := [Deliver 0 close_ev VUndefined; Tick 1000; Deliver 1 open VUndefined;
                 Deliver 1 message (VString "hi")] in
  tame body 4 w
  /\ (forall i, In i inputs -> leaves_registry i)
  /\ subscribers MESSAGE
       (exec (run "ws://localhost" defaultOptions body (fun v => v) Some 4 inputs) w)
     = [3].
Proof.
  intros body w inputs.
  assert (tame body 4 w) as Ht.
  { split; [intros e c _; reflexivity|intro e; destruct e; vm_compute; lia]. }
  assert (forall i, In i inputs -> leaves_registry i) as Hi.
  { intros i [<-|[<-|[<-|[<-|[]]]]]; exact I. }
  split; [exact Ht|]. split; [exact Hi|].
  unfold subscribers.
  rewrite (registry_survives_everything_but_on_and_off
             "ws://localhost" defaultOptions body (fun v => v) Some 4 inputs w Ht Hi).
  reflexivity.
Defined.
